(** * yano-js: progress-driven CSS variables, DOM watchers and the frame scheduler

    A shallow embedding of [src/interpolate/css-var-interpolate.ts] and
    [src/dom/dom-watcher.ts], together with models of the collaborators
    those files import ([mathf.childProgress], [Interpolate],
    [MultiInterpolate], [dom.setCssVariable], [Raf]).

    JavaScript numbers are idealised as exact rationals ([Qc], canonical
    fractions, so that Leibniz equality is numeric equality): IEEE rounding,
    [NaN] and the infinities are outside the model. The one exception is
    [MatrixIV], whose arithmetic is rounded to doubles and whose entries
    are rounded to floats. *)

From Stdlib Require Import QArith Qcanon Qabs Qround Qpower Lqa.
From stdpp Require Import base numbers strings gmap list sorting.

Local Open Scope string_scope.
Local Open Scope list_scope.
Local Open Scope Qc_scope.

(** ** Numbers *)

(** The type of JavaScript's [number]. *)
Abbreviation num := Qc.

Module mathf.

(** Literal [n / d]. *)
Definition frac (n : Z) (d : positive) : num := Q2Qc (n # d).

(** Modelled from the spec: [clamp01], the clamp onto the unit interval
    used by the child-progress formula of section 4.4 ([mathf] itself is
    not among the sources). *)
Definition clamp01 (x : num) : num :=
  if decide (x < 0) then 0 else if decide (1 < x) then 1 else x.

(** Modelled from the spec: [mathf.childProgress], section 4.4 (a):
    [clamp01((progress - start) / (end - start))] when [end != start],
    else [0]. *)
Definition childProgress (progress start end_ : num) : num :=
  if decide (end_ = start) then 0
  else clamp01 ((progress - start) / (end_ - start)).

(** Modelled from the spec: linear interpolation, section 4.2 step 5. *)
Definition lerp (a b t : num) : num := a + t * (b - a).

End mathf.
Export mathf.

(** ** Values, errors and effects *)

(** What an interpolation produces: a plain number, or a magnitude with its
    unit re-attached (the string ["15px"] is [VUnit 15 "px"]). *)
Inductive value : Type :=
  | VNum (n : num)
  | VUnit (magnitude : num) (unit : string).

(** Exceptions that can cross the functions modelled here. *)
Inductive error : Type :=
  | ConfigurationError
  | TypeError
  | NoSegment.

(** A JavaScript object used as a string-keyed record: its entries in the
    enumeration order of [for ... in], which for keys that are not array
    indices (CSS variable names are not) is insertion order. *)
Definition Object : Type := list (string * value).

(** [o[k]]. *)
Fixpoint obj_get (o : Object) (k : string) : option value :=
  match o with
  | [] => None
  | (k', v) :: o' => if decide (k' = k) then Some v else obj_get o' k
  end.

(** [o[k] = v]: overwrite in place when the key exists, append otherwise. *)
Fixpoint obj_set (o : Object) (k : string) (v : value) : Object :=
  match o with
  | [] => [(k, v)]
  | (k', v') :: o' =>
      if decide (k' = k) then (k', v) :: o' else (k', v') :: obj_set o' k v
  end.

(** Outcome of a call that may throw. *)
Inductive result (A : Type) : Type :=
  | Ok (a : A)
  | Throw (e : error).
Arguments Ok {A} a.
Arguments Throw {A} e.

(** ** Interpolate: one piecewise interpolation *)

Module Interpolate.

Record Range : Type := { from : num; to : num }.

Record UnitValue : Type := { magnitude : num; unit : string }.

Inductive OutputRange : Type :=
  | Numeric (r : Range)
  | UnitTagged (a b : UnitValue).

Record Segment : Type := {
  inputRange : Range;
  outputRange : OutputRange;
  easing : option (num → num)
}.

Definition qmin (a b : num) : num := if decide (a ≤ b) then a else b.
Definition qmax (a b : num) : num := if decide (a ≤ b) then b else a.
Definition qabs (a : num) : num := if decide (a < 0) then - a else a.

(** Modelled from the spec: section 4.2 step 1, containment inclusive of
    both bounds, reversed ranges compared as [min .. max]. *)
Definition contains (r : Range) (p : num) : bool :=
  bool_decide (qmin (from r) (to r) ≤ p) && bool_decide (p ≤ qmax (from r) (to r)).

(** Modelled from the spec: section 4.2 step 2, distance from [p] to the
    closer of the two boundaries of the input range. *)
Definition boundaryDistance (r : Range) (p : num) : num :=
  qmin (qabs (p - from r)) (qabs (p - to r)).

Fixpoint nearest (best : Segment) (rest : list Segment) (p : num) : Segment :=
  match rest with
  | [] => best
  | s :: rest' =>
      if decide (boundaryDistance (inputRange s) p < boundaryDistance (inputRange best) p)
      then nearest s rest' p
      else nearest best rest' p
  end.

(** Modelled from the spec: section 4.2 steps 1 and 2, the first segment
    containing [p], else the nearest one, ties to the earliest. The spec
    is silent on an empty segment list; the model has no segment then. *)
Definition select (segments : list Segment) (p : num) : option Segment :=
  match segments with
  | [] => None
  | s0 :: rest =>
      match List.find (λ s, contains (inputRange s) p) segments with
      | Some s => Some s
      | None => Some (nearest s0 rest p)
      end
  end.

(** Modelled from the spec: section 4.2 step 3. *)
Definition localProgress (r : Range) (p : num) : num :=
  if decide (from r = to r) then 0 else (p - from r) / (to r - from r).

(** Modelled from the spec: section 4.2 step 4. *)
Definition ease (e : option (num → num)) (t : num) : num :=
  match e with Some f => f t | None => t end.

(** Modelled from the spec: section 4.2 steps 5 and 6. *)
Definition interpolate (o : OutputRange) (t : num) : result value :=
  match o with
  | Numeric r => Ok (VNum (lerp (from r) (to r) t))
  | UnitTagged a b =>
      if decide (unit a = unit b)
      then Ok (VUnit (lerp (magnitude a) (magnitude b) t) (unit a))
      else Throw ConfigurationError
  end.

(** The value a unit-tagged endpoint stands for: ["10px"] is [VUnit 10 "px"]. *)
Definition valueOf (u : UnitValue) : value := VUnit (magnitude u) (unit u).

(** The [start] and the [end] of a segment, as values. *)
Definition startOf (o : OutputRange) : value :=
  match o with
  | Numeric r => VNum (from r)
  | UnitTagged a _ => valueOf a
  end.

Definition endOf (o : OutputRange) : value :=
  match o with
  | Numeric r => VNum (to r)
  | UnitTagged _ b => valueOf b
  end.

(** Both endpoints are numbers, or they carry one unit. *)
Definition sameUnits (o : OutputRange) : Prop :=
  match o with
  | Numeric _ => True
  | UnitTagged a b => unit a = unit b
  end.

(** A segment over the input range 0 .. 1. *)
Definition unitSegment (o : OutputRange) (e : option (num → num)) : Segment :=
  {| inputRange := {| from := 0; to := 1 |}; outputRange := o; easing := e |}.

(** Modelled from the spec: [Interpolator.calculate], section 4.2
    ([interpolate.ts] is not among the sources). *)
Definition calculate (segments : list Segment) (progress : num) : result value :=
  match select segments progress with
  | None => Throw NoSegment
  | Some s =>
      interpolate (outputRange s)
        (ease (easing s) (localProgress (inputRange s) progress))
  end.

End Interpolate.

(** ** MultiInterpolate: one interpolation per identifier *)

Module MultiInterpolate.

Record interpolateConfig : Type := {
  id : string;
  progress : list Interpolate.Segment
}.

Record multiInterpolateConfig : Type := {
  interpolations : list interpolateConfig
}.

Record t : Type := { config : multiInterpolateConfig }.

Definition new (config : multiInterpolateConfig) : t := {| config := config |}.

(** [new MultiInterpolate(config)], seen from a caller: an interpolator,
    or an exception. Section 7 lets a configuration error surface at
    construction or with the first calculation, and
    [multi-interpolate.ts] is not among the sources, so which
    configurations are turned down is left open. *)
Definition Constructor : Type := multiInterpolateConfig → result t.

(** The constructor that turns no configuration down. *)
Definition accepting : Constructor := λ config, Ok (new config).

Fixpoint collect (cs : list interpolateConfig) (p : num) (acc : Object)
  : result Object :=
  match cs with
  | [] => Ok acc
  | c :: cs' =>
      match Interpolate.calculate (progress c) p with
      | Ok v => collect cs' p (obj_set acc (id c) v)
      | Throw e => Throw e
      end
  end.

(** Modelled from the spec: [MultiInterpolator.calculate], section 4.3:
    every registered config is handed to an [Interpolate] over its
    segments and the results are collected keyed by id
    ([multi-interpolate.ts] is not among the sources). *)
Definition calculate (this : t) (p : num) : result Object :=
  collect (interpolations (config this)) p [].

End MultiInterpolate.

(** ** dom: the CSS variable sink *)

Module dom.

(** An element, as far as this development looks at it: its inline
    style declarations. *)
Record HTMLElement : Type := { style : gmap string value }.

(** Modelled from the spec: the sink of section 6,
    [element.style.setProperty(name, value)] ([dom.ts] is not among the
    sources). A [null] element has no [style] to read: [TypeError]. *)
Definition setCssVariable (element : option HTMLElement) (name : string)
    (v : value) : result HTMLElement :=
  match element with
  | None => Throw TypeError
  | Some el => Ok {| style := <[name := v]> (style el) |}
  end.

End dom.

(** ** CssVarInterpolate (src/interpolate/css-var-interpolate.ts) *)

Module CssVarInterpolate.

Import dom.

(** What a call does to its collaborators, in program order. *)
Inductive effect : Type :=
  | Calculate (childProgress : num)
  | SetCssVariable (name : string) (v : value).

Record t : Type := {
  element : option HTMLElement;
  config : MultiInterpolate.multiInterpolateConfig;
  mainProgress : option num;
  currentValues : Object;
  multiInterpolate : MultiInterpolate.t;
  startProgress : num;
  endProgress : num
}.

(** A method call: the receiver afterwards, what it did, how it ended. *)
Record outcome : Type := {
  this' : t;
  effects : list effect;
  completion : result unit
}.

(** The constructor, with the [MultiInterpolate] constructor it calls.
    Its other statements are assignments: [element] is stored as it is
    handed over, and nothing but [new MultiInterpolate(config)] can
    throw. *)
Definition new (construct : MultiInterpolate.Constructor)
    (element : option HTMLElement)
    (config : MultiInterpolate.multiInterpolateConfig) : result t :=
  match construct config with
  | Throw e => Throw e
  | Ok multiInterpolate =>
      Ok {| element := element;
            config := config;
            mainProgress := None;
            currentValues := [];
            multiInterpolate := multiInterpolate;
            startProgress := 0;
            endProgress := 1 |}
  end.

(** [progress == this.mainProgress] with [mainProgress : number | null]:
    a number is never loosely equal to [null]. *)
Definition looseEq (progress : num) (mainProgress : option num) : bool :=
  match mainProgress with
  | None => false
  | Some m => bool_decide (progress = m)
  end.

Definition set_mainProgress (this : t) (m : option num) : t :=
  {| element := element this; config := config this; mainProgress := m;
     currentValues := currentValues this;
     multiInterpolate := multiInterpolate this;
     startProgress := startProgress this; endProgress := endProgress this |}.

Definition set_currentValues (this : t) (o : Object) : t :=
  {| element := element this; config := config this;
     mainProgress := mainProgress this; currentValues := o;
     multiInterpolate := multiInterpolate this;
     startProgress := startProgress this; endProgress := endProgress this |}.

Definition set_element (this : t) (el : option HTMLElement) : t :=
  {| element := el; config := config this;
     mainProgress := mainProgress this; currentValues := currentValues this;
     multiInterpolate := multiInterpolate this;
     startProgress := startProgress this; endProgress := endProgress this |}.

(** [for (var key in this.currentValues)
       dom.setCssVariable(this.element, key, this.currentValues[key])],
    over the entries still to visit, each key with the value the object
    holds for it. The element is a shared DOM node: a write made before a
    later one throws stays made. *)
Fixpoint writeAll (this : t) (todo : Object) : outcome :=
  match todo with
  | [] => {| this' := this; effects := []; completion := Ok () |}
  | (key, v) :: todo' =>
      match setCssVariable (element this) key v with
      | Throw e => {| this' := this; effects := []; completion := Throw e |}
      | Ok el =>
          let r := writeAll (set_element this (Some el)) todo' in
          {| this' := this' r;
             effects := SetCssVariable key v :: effects r;
             completion := completion r |}
      end
  end.

Definition update (this : t) (progress : num) : outcome :=
  if looseEq progress (mainProgress this)
  then {| this' := this; effects := []; completion := Ok () |}
  else
    let child := childProgress progress (startProgress this) (endProgress this) in
    let this1 := set_mainProgress this (Some child) in
    match MultiInterpolate.calculate (multiInterpolate this1) child with
    | Throw e =>
        {| this' := this1; effects := [Calculate child]; completion := Throw e |}
    | Ok values =>
        let r := writeAll (set_currentValues this1 values) values in
        {| this' := this' r;
           effects := Calculate child :: effects r;
           completion := completion r |}
    end.

Definition setProgressRange (this : t) (start end_ : num) : outcome :=
  {| this' :=
       {| element := element this; config := config this;
          mainProgress := mainProgress this;
          currentValues := currentValues this;
          multiInterpolate := multiInterpolate this;
          startProgress := start; endProgress := end_ |};
     effects := [];
     completion := Ok () |}.

(** The arguments of the [calculate] calls among some effects. *)
Definition calculated (es : list effect) : list num :=
  omap (λ e, match e with Calculate p => Some p | _ => None end) es.

(** The [(name, value)] pairs of the sink writes among some effects. *)
Definition written (es : list effect) : Object :=
  omap (λ e, match e with SetCssVariable k v => Some (k, v) | _ => None end) es.

(** One sink write per pair of an object, in enumeration order. *)
Definition writesOf (o : Object) : list effect :=
  map (λ kv, SetCssVariable kv.1 kv.2) o.

(** The inline style after [setProperty] for every pair of an object. *)
Definition styleAfter (m : gmap string value) (o : Object) : gmap string value :=
  foldl (λ acc kv, <[kv.1 := kv.2]> acc) m o.

(** What [mainProgress] can hold: nothing yet, or a child progress, which
    lies between 0 and 1. *)
Definition childStored (this : t) : Prop :=
  match mainProgress this with
  | None => True
  | Some m => 0 ≤ m ∧ m ≤ 1
  end.

(** A client's calls on one binder, run in order until one throws. *)
Inductive call : Type :=
  | Update (progress : num)
  | SetProgressRange (start end_ : num).

Definition perform (this : t) (c : call) : outcome :=
  match c with
  | Update progress => update this progress
  | SetProgressRange start end_ => setProgressRange this start end_
  end.

Fixpoint performAll (this : t) (cs : list call) : outcome :=
  match cs with
  | [] => {| this' := this; effects := []; completion := Ok () |}
  | c :: cs' =>
      let r := perform this c in
      match completion r with
      | Throw e => r
      | Ok _ =>
          let r' := performAll (this' r) cs' in
          {| this' := this' r';
             effects := effects r ++ effects r';
             completion := completion r' |}
      end
  end.

End CssVarInterpolate.

(** ** DomWatcher (src/dom/dom-watcher.ts) *)

Module DomWatcher.
Section World.

(** Whatever the registered callbacks read and write. *)
Context {World : Type}.

Inductive target : Type :=
  | Window
  | Element (node : nat).

(** A function of the page, called without arguments: the world
    afterwards, and the truthiness of what it returned or what it
    threw. *)
Definition Function : Type := World → World * result bool.

(** The flags [addEventListener] reads off an options object; a flag
    the object does not have is falsy. *)
Record EventOptions : Type := {
  capture : bool;
  once : bool;
  passive : bool
}.

(** [{}]. *)
Definition noOptions : EventOptions :=
  {| capture := false; once := false; passive := false |}.

Record DomWatcherConfig : Type := {
  eventOptions : option EventOptions;
  element : target;
  on : string;
  callback : Function;
  runWhen : option Function;
  id : option string
}.

Record t : Type := { watcherConfigs : list DomWatcherConfig }.

Definition new : t := {| watcherConfigs := [] |}.

(** A function body without [return]: what was called last decides
    whether it throws, and when it does not the value is [undefined]. *)
Definition discard (r : World * result bool) : World * result bool :=
  (r.1, match r.2 with Ok _ => Ok false | Throw e => Throw e end).

(** The listener [add] builds for a config: the callback, behind
    [runWhen] when there is one. *)
Definition listener (config : DomWatcherConfig) : Function :=
  λ w,
    match runWhen config with
    | Some condition =>
        let '(w1, go) := condition w in
        match go with
        | Ok true => discard (callback config w1)
        | Ok false => (w1, Ok false)
        | Throw e => (w1, Throw e)
        end
    | None => discard (callback config w)
    end.

(** What [add] asks of the page: to call [listener config] on smart
    resizes, or on the events named [on] of the element, either with
    [config.eventOptions || {}]. *)
Inductive registration : Type :=
  | SmartResize (options : EventOptions)
  | AddEventListener (element : target) (on : string) (options : EventOptions).

Definition registrationOf (config : DomWatcherConfig) : registration :=
  let options := default noOptions (eventOptions config) in
  if decide (on config = "smartResize") then SmartResize options
  else AddEventListener (element config) (on config) options.

(** [add]: the listener and the remover it stores on the config are
    functions of the config and are not kept as fields here. *)
Definition add (this : t) (config : DomWatcherConfig) : t * registration :=
  ({| watcherConfigs := watcherConfigs this ++ [config] |},
   registrationOf config).

(** Truthiness of a string: only the empty string is falsy. *)
Definition truthy (s : string) : bool := negb (bool_decide (s = "")).

(** [config.id && config.id == id], as the filter callback's verdict. *)
Definition idMatches (config : DomWatcherConfig) (id_ : string) : bool :=
  match id config with
  | None => false
  | Some s => truthy s && bool_decide (s = id_)
  end.

(** One call of a callback: which entry of [watcherConfigs] it belongs
    to, and whether it returned something truthy, something falsy, or
    threw. *)
Definition invocation : Type := (nat * result bool)%type.

(** [config.callback() && config.callback()], as a statement: the world
    afterwards, the calls made, and whether the statement completed. *)
Definition callTwiceIfTruthy (i : nat) (config : DomWatcherConfig)
    (w : World) : World * list invocation * result unit :=
  let '(w1, r1) := callback config w in
  match r1 with
  | Ok true =>
      let '(w2, r2) := callback config w1 in
      (w2, [(i, r1); (i, r2)],
       match r2 with Ok _ => Ok () | Throw e => Throw e end)
  | Ok false => (w1, [(i, r1)], Ok ())
  | Throw e => (w1, [(i, r1)], Throw e)
  end.

(** [configs.forEach(...)]: an exception ends the loop where it is
    thrown. *)
Fixpoint forEach (configs : list (nat * DomWatcherConfig)) (w : World)
  : World * list invocation * result unit :=
  match configs with
  | [] => (w, [], Ok ())
  | (i, config) :: rest =>
      let '(w1, tr1, c1) := callTwiceIfTruthy i config w in
      match c1 with
      | Throw e => (w1, tr1, Throw e)
      | Ok _ =>
          let '(w2, tr2, c2) := forEach rest w1 in
          (w2, tr1 ++ tr2, c2)
      end
  end.

(** Each entry paired with its position, so that a call can be traced
    back to the entry it came from. *)
Definition indexed (configs : list DomWatcherConfig)
  : list (nat * DomWatcherConfig) :=
  imap (λ i c, (i, c)) configs.

Definition run (this : t) (id_ : string) (w : World)
  : World * list invocation * result unit :=
  let configsToRun :=
    filter (λ ic, idMatches ic.2 id_) (indexed (watcherConfigs this)) in
  forEach configsToRun w.

(** The calls a trace holds for entry [i], in order. *)
Definition callsOf (i : nat) (tr : list invocation) : list (result bool) :=
  (filter (λ e : invocation, e.1 = i) tr).*2.

(** How the calls of one entry can look once
    [config.callback() && config.callback()] has completed for it. *)
Definition completed (calls : list (result bool)) : Prop :=
  calls = [Ok false] ∨ ∃ b, calls = [Ok true; Ok b].

(** How they look when the statement threw [e]. *)
Definition thrown (e : error) (calls : list (result bool)) : Prop :=
  calls = [Throw e] ∨ calls = [Ok true; Throw e].

End World.
Arguments DomWatcherConfig : clear implicits.
Arguments t : clear implicits.
Arguments Function : clear implicits.
Global Instance target_eq_dec : EqDecision target.
Proof. solve_decision. Defined.
Global Instance EventOptions_eq_dec : EqDecision EventOptions.
Proof. solve_decision. Defined.
End DomWatcher.

(** ** Raf: the frame scheduler *)

Module Raf.
Section World.

(** Whatever the scheduled callbacks read and write (the layout state,
    the fields of the objects that scheduled them). *)
Context {World : Type}.

Inductive Phase : Type := Read | Write | PostWrite.

Inductive State : Type := Idle | Running.

(** A callback handed to the scheduler. Running it changes the world,
    may call back into the scheduler (the requests, in call order) and
    returns or throws. The label only names it in traces. *)
Inductive Callback : Type :=
  | Fn (label : nat) (body : World → World * list request * result unit)
with request : Type :=
  | Enqueue (phase : Phase) (cb : Callback)
  | Start
  | Stop
  | SetReadWriteMode (enabled : bool).

Definition label (cb : Callback) : nat :=
  match cb with Fn l _ => l end.

(** Modelled from the spec: the scheduler of section 4.1, three phase
    queues, the Idle/Running state, the mode flag and the per-frame
    callback of tick mode ([raf.ts] is not among the sources). *)
Record t : Type := {
  reads : list Callback;
  writes : list Callback;
  postWrites : list Callback;
  state : State;
  isReadWriteMode : bool;
  callback : option Callback
}.

(** A new scheduler is idle with empty queues. The spec leaves the initial
    mode open; [scroll-smooth-render.ts] switches read/write mode on right
    after construction, so the model starts in tick mode. *)
Definition new (callback : option Callback) : t :=
  {| reads := []; writes := []; postWrites := []; state := Idle;
     isReadWriteMode := false; callback := callback |}.

Definition with_queues (this : t) (r w p : list Callback) : t :=
  {| reads := r; writes := w; postWrites := p; state := state this;
     isReadWriteMode := isReadWriteMode this; callback := callback this |}.

(** Modelled from the spec: [read], [write], [postWrite] enqueue into the
    queue of their phase for the next pump cycle. *)
Definition enqueue (this : t) (phase : Phase) (cb : Callback) : t :=
  match phase with
  | Read => with_queues this (reads this ++ [cb]) (writes this) (postWrites this)
  | Write => with_queues this (reads this) (writes this ++ [cb]) (postWrites this)
  | PostWrite => with_queues this (reads this) (writes this) (postWrites this ++ [cb])
  end.

Definition read (this : t) (cb : Callback) : t := enqueue this Read cb.
Definition write (this : t) (cb : Callback) : t := enqueue this Write cb.
Definition postWrite (this : t) (cb : Callback) : t := enqueue this PostWrite cb.

(** Modelled from the spec: [start], Idle to Running, idempotent. *)
Definition start (this : t) : t :=
  {| reads := reads this; writes := writes this;
     postWrites := postWrites this; state := Running;
     isReadWriteMode := isReadWriteMode this; callback := callback this |}.

(** Modelled from the spec: [stop], Running to Idle, safe when idle; what
    is still queued is discarded (section 5). *)
Definition stop (this : t) : t :=
  {| reads := []; writes := []; postWrites := []; state := Idle;
     isReadWriteMode := isReadWriteMode this; callback := callback this |}.

Definition setReadWriteMode (this : t) (enabled : bool) : t :=
  {| reads := reads this; writes := writes this;
     postWrites := postWrites this; state := state this;
     isReadWriteMode := enabled; callback := callback this |}.

Definition serve (this : t) (r : request) : t :=
  match r with
  | Enqueue phase cb => enqueue this phase cb
  | Start => start this
  | Stop => stop this
  | SetReadWriteMode enabled => setReadWriteMode this enabled
  end.

(** What a pump cycle ran, in order. *)
Inductive event : Type :=
  | Tick (label : nat)
  | Task (phase : Phase) (label : nat).

Record cycle : Type := {
  this' : t;
  world : World;
  trace : list event;
  completion : result unit
}.

(** One callback: run it, then let the scheduler see the calls it made. *)
Definition invoke (this : t) (cb : Callback) (w : World)
  : t * World * result unit :=
  match cb with
  | Fn _ body =>
      let '(w1, requests, c) := body w in
      (foldl serve this requests, w1, c)
  end.

(** Modelled from the spec: a phase queue is drained front to back; a
    callback that throws is not caught, which ends the cycle there
    (section 4.1, failure semantics). *)
Fixpoint drain (phase : Phase) (queue : list Callback) (this : t) (w : World)
  : cycle :=
  match queue with
  | [] => {| this' := this; world := w; trace := []; completion := Ok () |}
  | cb :: queue' =>
      let '(this1, w1, c) := invoke this cb w in
      match c with
      | Throw e =>
          {| this' := this1; world := w1;
             trace := [Task phase (label cb)]; completion := Throw e |}
      | Ok _ =>
          let r := drain phase queue' this1 w1 in
          {| this' := this' r; world := world r;
             trace := Task phase (label cb) :: trace r;
             completion := completion r |}
      end
  end.

(** Sequencing of two parts of a cycle: the second runs only when the
    first returned. *)
Definition andThen (r : cycle) (k : t → World → cycle) : cycle :=
  match completion r with
  | Throw e => r
  | Ok _ =>
      let r' := k (this' r) (world r) in
      {| this' := this' r'; world := world r';
         trace := trace r ++ trace r'; completion := completion r' |}
  end.

(** Modelled from the spec: one firing of the frame pump (section 4.1).
    Nothing fires while Idle. In read/write mode the cycle owns the tasks
    queued so far (single-shot: they leave the queues) and runs them
    Read, then Write, then PostWrite; what callbacks enqueue meanwhile
    waits for the next cycle. Otherwise the per-frame callback runs. *)
Definition pump (this : t) (w : World) : cycle :=
  match state this with
  | Idle => {| this' := this; world := w; trace := []; completion := Ok () |}
  | Running =>
      if isReadWriteMode this then
        andThen (drain Read (reads this) (with_queues this [] [] []) w)
          (λ this1 w1,
             andThen (drain Write (writes this) this1 w1)
               (λ this2 w2, drain PostWrite (postWrites this) this2 w2))
      else
        match callback this with
        | None =>
            {| this' := this; world := w; trace := []; completion := Ok () |}
        | Some cb =>
            let '(this1, w1, c) := invoke this cb w in
            {| this' := this1; world := w1; trace := [Tick (label cb)];
               completion := c |}
        end
  end.

Definition tasks (phase : Phase) (queue : list Callback) : list event :=
  map (λ cb, Task phase (label cb)) queue.

(** The tasks a cycle owns, in the order the spec prescribes. *)
Definition schedule (this : t) : list event :=
  tasks Read (reads this) ++ tasks Write (writes this)
    ++ tasks PostWrite (postWrites this).

Definition rank (e : event) : nat :=
  match e with
  | Tick _ => 0
  | Task Read _ => 0
  | Task Write _ => 1
  | Task PostWrite _ => 2
  end%nat.

End World.
Arguments Callback : clear implicits.
Arguments request : clear implicits.
Arguments t : clear implicits.
Arguments cycle : clear implicits.
End Raf.

(** ** Concrete configurations used by the examples *)

Module Examples.

Import Interpolate MultiInterpolate.

(** [{ from: 0, to: 1, start: 0, end: 500 }], the first interpolation of
    the class documentation. *)
Definition segX : Segment :=
  {| inputRange := {| from := 0; to := 1 |};
     outputRange := Numeric {| from := 0; to := frac 500 1 |};
     easing := None |}.

(** [{ interpolations: [{ progress: [segX], id: '--x' }] }]. *)
Definition configX : multiInterpolateConfig :=
  {| interpolations := [ {| id := "--x"; progress := [segX] |} ] |}.

(** [{ from: 0, to: 1, start: '10px', end: '20px' }]. *)
Definition segPx : Segment :=
  unitSegment (UnitTagged {| magnitude := frac 10 1; unit := "px" |}
                          {| magnitude := frac 20 1; unit := "px" |}) None.

(** [{ from: 0, to: 1, start: '10px', end: '20vh' }]. *)
Definition segMixed : Segment :=
  unitSegment (UnitTagged {| magnitude := frac 10 1; unit := "px" |}
                          {| magnitude := frac 20 1; unit := "vh" |}) None.

(** [{ from: 0, to: 0.5, start: 0, end: 100 }] followed by
    [{ from: 0.5, to: 1, start: 100, end: 300 }]. *)
Definition twoSegments : list Segment :=
  [ {| inputRange := {| from := 0; to := frac 1 2 |};
       outputRange := Numeric {| from := 0; to := frac 100 1 |};
       easing := None |};
    {| inputRange := {| from := frac 1 2; to := 1 |};
       outputRange := Numeric {| from := frac 100 1; to := frac 300 1 |};
       easing := None |} ].

(** An element without inline style. *)
Definition ball : dom.HTMLElement := {| dom.style := ∅ |}.

(** The receiver [new CssVarInterpolate(ball, configX)] leaves behind. *)
Definition binderX : CssVarInterpolate.t :=
  {| CssVarInterpolate.element := Some ball;
     CssVarInterpolate.config := configX;
     CssVarInterpolate.mainProgress := None;
     CssVarInterpolate.currentValues := [];
     CssVarInterpolate.multiInterpolate := MultiInterpolate.new configX;
     CssVarInterpolate.startProgress := 0;
     CssVarInterpolate.endProgress := 1 |}.

(** A page whose only state is a count of the calls made so far. *)
Definition bump : DomWatcher.Function nat := λ n, (S n, Ok true).

(** A callback that counts its call and then throws. *)
Definition boom : DomWatcher.Function nat := λ n, (S n, Throw TypeError).

(** [{ element: window, on: 'scroll', callback: bump, id: '' }]. *)
Definition unnamed : DomWatcher.DomWatcherConfig nat :=
  {| DomWatcher.eventOptions := None;
     DomWatcher.element := DomWatcher.Window;
     DomWatcher.on := "scroll";
     DomWatcher.callback := bump;
     DomWatcher.runWhen := None;
     DomWatcher.id := Some "" |}.

(** [{ element: window, on: 'click', callback: bump, id: 'yo' }]. *)
Definition yo : DomWatcher.DomWatcherConfig nat :=
  {| DomWatcher.eventOptions := None;
     DomWatcher.element := DomWatcher.Window;
     DomWatcher.on := "click";
     DomWatcher.callback := bump;
     DomWatcher.runWhen := None;
     DomWatcher.id := Some "yo" |}.

(** [watcher.add(unnamed); watcher.add(yo)] on a new watcher. *)
Definition watcher : DomWatcher.t nat :=
  (DomWatcher.add (DomWatcher.add DomWatcher.new unnamed).1 yo).1.

(** [{ element: window, on: 'click', callback: boom, id: 'yo' }]. *)
Definition yoBoom : DomWatcher.DomWatcherConfig nat :=
  {| DomWatcher.eventOptions := None;
     DomWatcher.element := DomWatcher.Window;
     DomWatcher.on := "click";
     DomWatcher.callback := boom;
     DomWatcher.runWhen := None;
     DomWatcher.id := Some "yo" |}.

(** [watcher.add(yoBoom); watcher.add(yo)] on a new watcher. *)
Definition watcherBoom : DomWatcher.t nat :=
  (DomWatcher.add (DomWatcher.add DomWatcher.new yoBoom).1 yo).1.

(** The reversing easing [t => 1 - t] on the first interpolation of the
    class documentation. *)
Definition segReversed : Segment :=
  unitSegment (Numeric {| from := 0; to := frac 500 1 |}) (Some (λ t, 1 - t)).

(** A page with one variable [x]; a read callback that sets it, a write
    callback that doubles what it finds, and a post-write callback that
    asks for the read again on the next frame. *)
Definition setX : Raf.Callback nat := Raf.Fn 1 (λ _, (7%nat, [], Ok ())).
Definition doubleX : Raf.Callback nat := Raf.Fn 2 (λ x, ((2 * x)%nat, [], Ok ())).
Definition again : Raf.Callback nat :=
  Raf.Fn 3 (λ x, (x, [Raf.Enqueue Raf.Read setX], Ok ())).

(** [raf.setReadWriteMode(true); raf.write(doubleX); raf.postWrite(again);
    raf.read(setX); raf.start()] on a new scheduler. *)
Definition scheduler : Raf.t nat :=
  Raf.start
    (Raf.read
       (Raf.postWrite
          (Raf.write (Raf.setReadWriteMode (Raf.new None) true) doubleX)
          again)
       setX).

End Examples.

(** ** Proof automation *)

(** Closes an equation between evaluated terms that hold rationals. *)
Ltac qc_eq :=
  repeat first [ apply Qc_is_canon; reflexivity | reflexivity | f_equal ].


(** ** DomWatcher: the listeners on the page (src/dom/dom-watcher.ts)

    [add], [removeById], [removeAll] and [dispose] with what they ask of
    the page. A listener is a closure, created by one call of [add]; it is
    named here by the number of closures created before it. [add] is
    the method for a config object of its own, as in the callers among
    the sources, which all pass object literals; [addObject] is the
    method for any config object, one that was added before included.
    Nobody but the watcher writes to a config once it is added. *)

Module DomWatcherPage.
Section World.

Import DomWatcher.

Context {World : Type}.

(** What a remover asks of the page when it is called: for the event
    name ['smartResize'] it is the function [bom.smartResize] returned,
    otherwise [config.element.removeEventListener(config.on, listener)],
    which names no options. *)
Inductive removal : Type :=
  | SmartResizeRemover
  | RemoveEventListener (element : target) (on : string).

Definition removalOf (config : DomWatcherConfig World) : removal :=
  if decide (on config = "smartResize") then SmartResizeRemover
  else RemoveEventListener (element config) (on config).

(** What happens to the listeners of a page: a registration with the
    listener it hands over, the call of a remover, and the page having
    called a listener for an event. *)
Inductive pageCall : Type :=
  | Listen (l : nat) (how : registration) (fn : Function World)
  | Unlisten (l : nat) (how : removal)
  | Fired (l : nat).

(** The page: how many listeners were created so far, and what happened,
    oldest first. *)
Record page : Type := { created : nat; calls : list pageCall }.

(** A config object in [watcherConfigs]: what the caller wrote, and the
    listener that the remover stored on it by [add] takes away. *)
Record entry : Type := {
  config : DomWatcherConfig World;
  remover : option nat
}.

Record t : Type := { watcherConfigs : list entry }.

Definition new : t := {| watcherConfigs := [] |}.

(** The same watcher without the removers, as [run] reads it. *)
Definition plain (this : t) : DomWatcher.t World :=
  {| DomWatcher.watcherConfigs := map config (watcherConfigs this) |}.

Definition said (p : page) (c : pageCall) : page :=
  {| created := created p; calls := calls p ++ [c] |}.

Definition add (this : t) (config : DomWatcherConfig World) (p : page)
  : t * page :=
  let l := created p in
  ({| watcherConfigs :=
        watcherConfigs this ++ [ {| config := config; remover := Some l |} ] |},
   said {| created := S l; calls := calls p |}
     (Listen l (registrationOf config) (listener config))).

(** [const remover = config.remover; remover && remover();]. *)
Definition callRemover (p : page) (e : entry) : page :=
  match remover e with
  | None => p
  | Some l => said p (Unlisten l (removalOf (config e)))
  end.

(** The callback [removeById] filters with: an entry whose id matches has
    its remover called and is dropped, any other is kept. *)
Fixpoint removeMatching (es : list entry) (id_ : string) (p : page)
  : list entry * page :=
  match es with
  | [] => ([], p)
  | e :: es' =>
      if idMatches (config e) id_
      then removeMatching es' id_ (callRemover p e)
      else
        let '(kept, p') := removeMatching es' id_ p in
        (e :: kept, p')
  end.

Definition removeById (this : t) (id_ : string) (p : page) : t * page :=
  let '(kept, p') := removeMatching (watcherConfigs this) id_ p in
  ({| watcherConfigs := kept |}, p').

Definition removeAll (this : t) (p : page) : t * page :=
  ({| watcherConfigs := [] |}, foldl callRemover p (watcherConfigs this)).

Definition dispose (this : t) (p : page) : t * page := removeAll this p.

Definition run (this : t) (id_ : string) (w : World)
  : World * list invocation * result unit :=
  DomWatcher.run (plain this) id_ w.

(** [watcher.add(c1); watcher.add(c2); ...]. *)
Fixpoint addAll (this : t) (configs : list (DomWatcherConfig World))
    (p : page) : t * page :=
  match configs with
  | [] => (this, p)
  | c :: configs' => let '(this1, p1) := add this c p in addAll this1 configs' p1
  end.

(** The listeners that were handed over and whose remover has not been
    called, in the order of their registration. *)
Definition hear (ls : list nat) (c : pageCall) : list nat :=
  match c with
  | Listen l _ _ => ls ++ [l]
  | Unlisten l _ => filter (λ l', l' ≠ l) ls
  | Fired _ => ls
  end.

Definition live (cs : list pageCall) : list nat := foldl hear [] cs.

Definition optionsOf (how : registration) : EventOptions :=
  match how with
  | SmartResize options => options
  | AddEventListener _ _ options => options
  end.

(** Whether [element.removeEventListener(on, listener)] takes the
    registration [x] away: it does when [x] is the listener [l] on that
    element for that event, registered without [capture]. *)
Definition removedBy (l : nat) (how : removal)
    (x : nat * registration * Function World) : bool :=
  match how, x.1.2 with
  | RemoveEventListener element on, AddEventListener element' on' options =>
      bool_decide (x.1.1 = l) && bool_decide (element' = element)
      && bool_decide (on' = on) && negb (capture options)
  | _, _ => false
  end.

(** The same for the remover an entry holds. *)
Definition takenBy (e : entry) (x : nat * registration * Function World)
  : bool :=
  match remover e with
  | Some l => removedBy l (removalOf (config e)) x
  | None => false
  end.

(** The listeners that [addEventListener] attached and that are still
    attached, with how and with what they were registered. What
    [bom.smartResize] does with a listener is its own business. A
    listener registered with [once] is gone after its first call. *)
Definition attach (ls : list (nat * registration * Function World))
    (c : pageCall) : list (nat * registration * Function World) :=
  match c with
  | Listen l (AddEventListener element on options) fn =>
      ls ++ [(l, AddEventListener element on options, fn)]
  | Listen _ (SmartResize _) _ => ls
  | Unlisten l how => filter (λ x, removedBy l how x = false) ls
  | Fired l => filter (λ x, ¬ (x.1.1 = l ∧ once (optionsOf x.1.2) = true)) ls
  end.

Definition attached (cs : list pageCall)
  : list (nat * registration * Function World) :=
  foldl attach [] cs.

(** A page on which no listener yet to be created is already attached. *)
Definition fresh (p : page) : Prop :=
  Forall (λ x, (x.1.1 < created p)%nat) (attached (calls p)).

(** The listeners whose removers the entries of a watcher hold. *)
Definition removers (this : t) : list nat :=
  omap remover (watcherConfigs this).

(** What [add] attaches for the configs [cs], the first of them with the
    listener [l]. *)
Fixpoint attachedBy (l : nat) (cs : list (DomWatcherConfig World))
  : list (nat * registration * Function World) :=
  match cs with
  | [] => []
  | c :: cs' =>
      match registrationOf c with
      | AddEventListener element on options =>
          [(l, AddEventListener element on options, listener c)]
      | SmartResize _ => []
      end ++ attachedBy (S l) cs'
  end.

(** [add] writes on the config object it is handed, [config.listener]
    and [config.remover]. An object that is added once more holds the
    remover of its latest listener from then on, and holds it in every
    place of [watcherConfigs] where it is: the removers of its earlier
    listeners are lost. [os] tells which of the caller's objects each
    entry of a watcher is, and [addObject] is [add] for the object [o],
    whose fields are [config]; [add] itself is [addObject] for an object
    that is not in the watcher yet. *)
Definition restored (o : nat) (config : DomWatcherConfig World) (l : nat)
    (o' : nat) (e : entry) : entry :=
  if decide (o' = o) then {| config := config; remover := Some l |} else e.

Definition addObject (this : t) (os : list nat) (o : nat)
    (config : DomWatcherConfig World) (p : page) : t * list nat * page :=
  let l := created p in
  ({| watcherConfigs :=
        zip_with (restored o config l) os (watcherConfigs this)
          ++ [ {| config := config; remover := Some l |} ] |},
   os ++ [o],
   said {| created := S l; calls := calls p |}
     (Listen l (registrationOf config) (listener config))).

(** [watcher.add(o1); watcher.add(o2); ...], each object with the
    fields it has when it is added. *)
Fixpoint addObjects (this : t) (os : list nat)
    (adds : list (nat * DomWatcherConfig World)) (p : page)
  : t * list nat * page :=
  match adds with
  | [] => (this, os, p)
  | (o, c) :: adds' =>
      let '(this1, os1, p1) := addObject this os o c p in
      addObjects this1 os1 adds' p1
  end.

(** The last of the calls [adds] that is for the object [o], the first
    of [adds] creating the listener [l]: its listener and its fields. *)
Fixpoint latest (o : nat) (l : nat) (adds : list (nat * DomWatcherConfig World))
  : option (nat * DomWatcherConfig World) :=
  match adds with
  | [] => None
  | (o', c') :: adds' =>
      match latest o (S l) adds' with
      | Some r => Some r
      | None => if decide (o' = o) then Some (l, c') else None
      end
  end.

(** What an entry that is the object [o] holds after the calls [adds]. *)
Definition relatest (adds : list (nat * DomWatcherConfig World)) (l : nat)
    (o : nat) (e : entry) : entry :=
  match latest o l adds with
  | Some (l', c') => {| config := c'; remover := Some l' |}
  | None => e
  end.

(** The entries a watcher holds for the calls [adds], after all of
    them. *)
Fixpoint entriesForObjects (l : nat)
    (adds : list (nat * DomWatcherConfig World)) : list entry :=
  match adds with
  | [] => []
  | (o, c) :: adds' =>
      relatest adds' (S l) o {| config := c; remover := Some l |}
        :: entriesForObjects (S l) adds'
  end.

(** What stays attached, after the removers the watcher holds were
    called, of what the calls [adds] attached: the listeners registered
    with [capture], and the listeners of an object that was added again
    later. *)
Fixpoint staying (l : nat) (adds : list (nat * DomWatcherConfig World))
  : list (nat * registration * Function World) :=
  match adds with
  | [] => []
  | (o, c) :: adds' =>
      match registrationOf c with
      | AddEventListener element on options =>
          if capture options || bool_decide (o ∈ adds'.*1)
          then [(l, AddEventListener element on options, listener c)]
          else []
      | SmartResize _ => []
      end ++ staying (S l) adds'
  end.

(** A config with its [runWhen] taken away. *)
Definition withoutRunWhen (c : DomWatcherConfig World) : DomWatcherConfig World :=
  {| eventOptions := eventOptions c; element := element c; on := on c;
     callback := callback c; runWhen := None; id := id c |}.

End World.
Arguments pageCall : clear implicits.
Arguments page : clear implicits.
Arguments entry : clear implicits.
Arguments t : clear implicits.
End DomWatcherPage.

(** ** Rounding (IEEE 754)

    What JavaScript does to the result of an arithmetic operation, and
    to a number stored in a [Float32Array]: it is rounded to the nearest
    number of 53 bits, and of 24 bits, the one with an even last bit of
    two that are as near. Exponents are of any size here: overflow to
    an infinity, and the gradual underflow of the smallest numbers, are
    outside the model. *)

Module ieee.

Local Open Scope Q_scope.

(** [2^e]. *)
Definition pow2 (e : Z) : Q := 2 ^ e.

(** The integer nearest to [s], the even one of two. *)
Definition nearest (s : Q) : Z :=
  let f := Qfloor s in
  match Qcompare (s - inject_Z f) (1 # 2) with
  | Lt => f
  | Gt => (f + 1)%Z
  | Eq => if Z.even f then f else (f + 1)%Z
  end.

(** The exponent of a positive [a]: [2^(mag a - 1) <= a < 2^(mag a)]. *)
Definition mag (a : Q) : Z :=
  let e := (Z.log2 (Qnum a) - Z.log2 (Zpos (Qden a)))%Z in
  if Qle_bool (pow2 e) a then (e + 1)%Z else e.

(** [x] rounded to [p] bits: the nearest of the numbers [k * 2^e] with
    [|k| < 2^p], the one with [k] even of two. *)
Definition round (p : Z) (x : Q) : Q :=
  if Qeq_bool x 0 then 0
  else
    let a := Qabs x in
    let e := mag a in
    let y := inject_Z (nearest (a * pow2 (p - e))) * pow2 (e - p) in
    if Qle_bool 0 x then y else - y.

(** The numbers of [p] bits: [k * 2^e] with [|k| < 2^p]. *)
Definition representable (p : Z) (y : Q) : Prop :=
  ∃ k e : Z, y == inject_Z k * pow2 e ∧ (Z.abs k < 2 ^ p)%Z.

End ieee.

(** ** MatrixIV (src/mathf/matrixIV.ts)

    The sixteen entries of [this.value], a [Float32Array]. The result
    of every arithmetic operation is rounded to a double, and every
    store to a float. The two roundings are a parameter, [Rounding]:
    [binary] is what JavaScript does, [exact] rounds nothing, and the
    properties are proved for every pair of roundings that obeys the
    laws of [Lawful], as these two do. [NaN], the infinities and the
    sign of zero are outside the model.
    [Math.sin(angle)] and [Math.cos(angle)] are taken as they come, as
    two numbers [s] and [c], and so is [axis.magnitude()].
    [multiply] is left out: it reads [mat[0]] .. [mat[15]] off the matrix
    object, not off its [value], and what it gets is not a number. *)

Module MatrixIV.

(** [double x] is the double nearest to [x], the result of an
    arithmetic operation whose exact result is [x]; [single x] is what
    a [Float32Array] holds after [x] is stored in it. *)
Class Rounding : Type := {
  double : num → num;
  single : num → num
}.

(** What is known of the roundings: a number that needs no rounding is
    left as it is, what a [Float32Array] holds is a double, rounding is
    symmetric about zero, and 0 and 1 need no rounding. *)
Class Lawful (R : Rounding) : Prop := {
  double_idem (x : num) : double (double x) = double x;
  single_idem (x : num) : single (single x) = single x;
  double_single (x : num) : double (single x) = single x;
  double_opp (x : num) : double (- x) = - double x;
  single_0 : single 0 = 0;
  single_1 : single 1 = 1
}.

(** Exact arithmetic. *)
Definition exact : Rounding := {| double := λ x, x; single := λ x, x |}.

(** The arithmetic of JavaScript: a number is a double, of 53 bits, and
    a [Float32Array] holds floats, of 24 bits. *)
Definition binary : Rounding :=
  {| double := λ x, Q2Qc (ieee.round 53 x);
     single := λ x, Q2Qc (ieee.round 24 x) |}.

(** [Vector], as far as this class reads it. *)
Record Vector : Type := { x : num; y : num; z : num }.

Record t : Type := { value : list num }.

Section Rounded.

Context {R : Rounding}.

(** The arithmetic of JavaScript numbers. *)
Definition mul (a b : num) : num := double (a * b).
Definition div (a b : num) : num := double (a / b).
Definition add (a b : num) : num := double (a + b).
Definition sub (a b : num) : num := double (a - b).

Infix "⊗" := mul (at level 40, left associativity).
Infix "⊘" := div (at level 40, left associativity).
Infix "⊕" := add (at level 50, left associativity).
Infix "⊖" := sub (at level 50, left associativity).

(** [this.value[i]]. *)
Definition get (this : t) (i : nat) : num := default 0 (value this !! i).

(** [this.value[i] = v]. *)
Definition put (i : nat) (v : num) (this : t) : t :=
  {| value := <[i := single v]> (value this) |}.

Definition identity (this : t) : t :=
  let this := put 0 1 this in
  let this := put 1 0 this in
  let this := put 2 0 this in
  let this := put 3 0 this in
  let this := put 4 0 this in
  let this := put 5 1 this in
  let this := put 6 0 this in
  let this := put 7 0 this in
  let this := put 8 0 this in
  let this := put 9 0 this in
  let this := put 10 1 this in
  let this := put 11 0 this in
  let this := put 12 0 this in
  let this := put 13 0 this in
  let this := put 14 0 this in
  let this := put 15 1 this in
  this.

(** [this.value = matrix4.value.slice(0)]: the entries, not the array. *)
Definition copy (this : t) (matrix4 : t) : t := {| value := value matrix4 |}.

Definition new (matrix : option t) : t :=
  let this := {| value := replicate 16 0 |} in
  let this := identity this in
  match matrix with
  | Some m => copy this m
  | None => identity this
  end.

Definition clone (this : t) : t := new (Some this).

Definition setXyz (this : t) (x y z : num) : t :=
  let this := identity this in
  let this := put 12 x this in
  let this := put 13 y this in
  let this := put 14 z this in
  this.

Definition set (this : t) (v : Vector) : t := setXyz this (x v) (y v) (z v).

Definition scaleXyz (this : t) (x y z : num) : t :=
  let this := put 0 (get this 0 ⊗ x) this in
  let this := put 1 (get this 1 ⊗ x) this in
  let this := put 2 (get this 2 ⊗ x) this in
  let this := put 3 (get this 3 ⊗ x) this in
  let this := put 4 (get this 4 ⊗ y) this in
  let this := put 5 (get this 5 ⊗ y) this in
  let this := put 6 (get this 6 ⊗ y) this in
  let this := put 7 (get this 7 ⊗ y) this in
  let this := put 8 (get this 8 ⊗ z) this in
  let this := put 9 (get this 9 ⊗ z) this in
  let this := put 10 (get this 10 ⊗ z) this in
  let this := put 11 (get this 11 ⊗ z) this in
  this.

Definition scale (this : t) (v : Vector) : t := scaleXyz this (x v) (y v) (z v).

Definition translateXyz (this : t) (x y z : num) : t :=
  let this :=
    put 12 (get this 0 ⊗ x ⊕ get this 4 ⊗ y ⊕ get this 8 ⊗ z
            ⊕ get this 12) this in
  let this :=
    put 13 (get this 1 ⊗ x ⊕ get this 5 ⊗ y ⊕ get this 9 ⊗ z
            ⊕ get this 13) this in
  let this :=
    put 14 (get this 2 ⊗ x ⊕ get this 6 ⊗ y ⊕ get this 10 ⊗ z
            ⊕ get this 14) this in
  let this :=
    put 15 (get this 3 ⊗ x ⊕ get this 7 ⊗ y ⊕ get this 11 ⊗ z
            ⊕ get this 15) this in
  this.

Definition translate (this : t) (v : Vector) : t :=
  translateXyz this (x v) (y v) (z v).

(** [rotate(angle, axis)], given what [axis.magnitude()] returns
    ([vector.ts] is not among the sources); [None] is [null]. *)
Definition rotate (this : t) (s c : num) (axis : Vector) (magnitude : num)
  : option t :=
  let mg := magnitude in
  if decide (mg = 0) then None
  else
    let a := x axis in
    let b := y axis in
    let c' := z axis in
    let '(a, b, c') :=
      if decide (mg ≠ 1)
      then let mg := 1 ⊘ mg in (a ⊗ mg, b ⊗ mg, c' ⊗ mg)
      else (a, b, c') in
    let d := s in
    let e := c in
    let f := 1 ⊖ e in
    let g := get this 0 in
    let h := get this 1 in
    let i := get this 2 in
    let j := get this 3 in
    let k := get this 4 in
    let l := get this 5 in
    let m := get this 6 in
    let n := get this 7 in
    let o := get this 8 in
    let p := get this 9 in
    let q := get this 10 in
    let r := get this 11 in
    let s' := a ⊗ a ⊗ f ⊕ e in
    let t' := b ⊗ a ⊗ f ⊕ c' ⊗ d in
    let u := c' ⊗ a ⊗ f ⊖ b ⊗ d in
    let v := a ⊗ b ⊗ f ⊖ c' ⊗ d in
    let w := b ⊗ b ⊗ f ⊕ e in
    let x' := c' ⊗ b ⊗ f ⊕ a ⊗ d in
    let y' := a ⊗ c' ⊗ f ⊕ b ⊗ d in
    let z' := b ⊗ c' ⊗ f ⊖ a ⊗ d in
    let A := c' ⊗ c' ⊗ f ⊕ e in
    let this := put 12 (get this 12) this in
    let this := put 13 (get this 13) this in
    let this := put 14 (get this 14) this in
    let this := put 15 (get this 15) this in
    let this := put 0 (g ⊗ s' ⊕ k ⊗ t' ⊕ o ⊗ u) this in
    let this := put 1 (h ⊗ s' ⊕ l ⊗ t' ⊕ p ⊗ u) this in
    let this := put 2 (i ⊗ s' ⊕ m ⊗ t' ⊕ q ⊗ u) this in
    let this := put 3 (j ⊗ s' ⊕ n ⊗ t' ⊕ r ⊗ u) this in
    let this := put 4 (g ⊗ v ⊕ k ⊗ w ⊕ o ⊗ x') this in
    let this := put 5 (h ⊗ v ⊕ l ⊗ w ⊕ p ⊗ x') this in
    let this := put 6 (i ⊗ v ⊕ m ⊗ w ⊕ q ⊗ x') this in
    let this := put 7 (j ⊗ v ⊕ n ⊗ w ⊕ r ⊗ x') this in
    let this := put 8 (g ⊗ y' ⊕ k ⊗ z' ⊕ o ⊗ A) this in
    let this := put 9 (h ⊗ y' ⊕ l ⊗ z' ⊕ p ⊗ A) this in
    let this := put 10 (i ⊗ y' ⊕ m ⊗ z' ⊕ q ⊗ A) this in
    let this := put 11 (j ⊗ y' ⊕ n ⊗ z' ⊕ r ⊗ A) this in
    Some this.

Definition rotateX (this : t) (s c : num) : t :=
  let this := put 4 (get this 4 ⊕ get this 8 ⊗ s) this in
  let this := put 5 (get this 5 ⊗ c ⊕ get this 9 ⊗ s) this in
  let this := put 6 (get this 6 ⊗ c ⊕ get this 10 ⊗ s) this in
  let this := put 7 (get this 7 ⊗ c ⊕ get this 11 ⊗ s) this in
  let this := put 8 (get this 8 ⊗ c ⊖ get this 4 ⊗ s) this in
  let this := put 9 (get this 9 ⊗ c ⊖ get this 5 ⊗ s) this in
  let this := put 10 (get this 10 ⊗ c ⊖ get this 6 ⊗ s) this in
  let this := put 11 (get this 11 ⊗ c ⊖ get this 7 ⊗ s) this in
  this.

Definition rotateY (this : t) (s c : num) : t :=
  let this := put 0 (get this 0 ⊗ c ⊖ get this 8 ⊗ s) this in
  let this := put 1 (get this 1 ⊗ c ⊖ get this 9 ⊗ s) this in
  let this := put 2 (get this 2 ⊗ c ⊖ get this 10 ⊗ s) this in
  let this := put 3 (get this 3 ⊗ c ⊖ get this 11 ⊗ s) this in
  let this := put 8 (get this 0 ⊗ s ⊕ get this 8 ⊗ c) this in
  let this := put 9 (get this 1 ⊗ s ⊕ get this 9 ⊗ c) this in
  let this := put 10 (get this 2 ⊗ s ⊕ get this 10 ⊗ c) this in
  let this := put 11 (get this 3 ⊗ s ⊕ get this 11 ⊗ c) this in
  this.

Definition rotateZ (this : t) (s c : num) : t :=
  let v0 := get this 0 in
  let v1 := get this 1 in
  let v2 := get this 2 in
  let v3 := get this 3 in
  let v4 := get this 4 in
  let v5 := get this 5 in
  let a12 := get this 6 in
  let a13 := get this 7 in
  let this := put 0 (v0 ⊗ c ⊕ v4 ⊗ s) this in
  let this := put 1 (v1 ⊗ c ⊕ v5 ⊗ s) this in
  let this := put 2 (v2 ⊗ c ⊕ a12 ⊗ s) this in
  let this := put 3 (v3 ⊗ c ⊕ a13 ⊗ s) this in
  let this := put 4 (v4 ⊗ c ⊖ v0 ⊗ s) this in
  let this := put 5 (v5 ⊗ c ⊖ v1 ⊗ s) this in
  let this := put 6 (a12 ⊗ c ⊖ v2 ⊗ s) this in
  let this := put 7 (a13 ⊗ c ⊖ v3 ⊗ s) this in
  this.

(** [MatrixIV.IDENTITY]. *)
Definition IDENTITY : t := identity (new None).

(** A JavaScript number: a number that is a double. *)
Definition number (x : num) : Prop := double x = x.

(** What a [Float32Array] can hold: numbers that a store leaves as they
    are. *)
Definition floats (this : t) : Prop :=
  Forall (λ e, single e = e) (value this).

End Rounded.

Infix "⊗" := mul (at level 40, left associativity).
Infix "⊘" := div (at level 40, left associativity).
Infix "⊕" := add (at level 50, left associativity).
Infix "⊖" := sub (at level 50, left associativity).

(** A matrix has sixteen entries. *)
Definition sized (this : t) : Prop := length (value this) = 16%nat.

End MatrixIV.

(** ** GlobalWindow (src/dom/global-window.ts) *)

(** The class and the module body that keeps one instance of it in
    [window.YANO_JS_GLOBAL_WINDOW]. Instances live in a list and are
    known by their place in it; their watchers are kept beside them. The
    browser is seen as far as the file depends on it: a window with the
    three numbers read here, and the dispatch of an event to the
    listeners attached for it, those registered with [capture] first,
    either group in the order of its registration. *)
Module GlobalWindow.

Import DomWatcher DomWatcherPage.

(** [window], as far as this file reads and writes it. *)
Module window.

Record t : Type := {
  scrollY : num;
  innerWidth : num;
  innerHeight : num;
  YANO_JS_GLOBAL_WINDOW : option nat
}.

End window.

(** The public fields of an instance; its [watcher] is kept in the realm
    below. *)
Record t : Type := { scrollY : num; width : num; height : num }.

(** What the listeners read and write: the window and the instances made
    so far. An instance is known by its place among them. *)
Record World : Type := { win : window.t; instances : list t }.

(** [onResize], bound to the instance [this]. A method without [return]
    gives [undefined], which is falsy. *)
Definition onResize (this : nat) : Function World :=
  λ w,
    ({| win := win w;
        instances :=
          alter (λ _, {| scrollY := window.scrollY (win w);
                         width := window.innerWidth (win w);
                         height := window.innerHeight (win w) |})
            this (instances w) |},
     Ok false).

(** [onScroll], bound to the instance [this]. *)
Definition onScroll (this : nat) : Function World :=
  λ w,
    ({| win := win w;
        instances :=
          alter (λ g, {| scrollY := window.scrollY (win w);
                         width := width g;
                         height := height g |})
            this (instances w) |},
     Ok false).

(** [{ passive: true }]. *)
Definition passiveOptions : EventOptions :=
  {| capture := false; once := false; passive := true |}.

(** The two configs the constructor hands to its watcher. *)
Definition scrollConfig (this : nat) : DomWatcherConfig World :=
  {| eventOptions := Some passiveOptions;
     element := Window; on := "scroll"; callback := onScroll this;
     runWhen := None; id := None |}.

Definition resizeConfig (this : nat) : DomWatcherConfig World :=
  {| eventOptions := Some passiveOptions;
     element := Window; on := "resize"; callback := onResize this;
     runWhen := None; id := None |}.

(** Everything the file touches: the world of the listeners, the page
    they are registered on, and the watcher of each instance. *)
Record realm : Type := {
  world : World;
  page : DomWatcherPage.page World;
  watchers : list (DomWatcherPage.t World)
}.

(** [new GlobalWindow()]: the realm afterwards and the new instance. *)
Definition construct (r : realm) : realm * nat :=
  let this := length (instances (world r)) in
  let watcher := DomWatcherPage.new in
  let w := win (world r) in
  let g := {| scrollY := window.scrollY w;
              width := window.innerWidth w;
              height := window.innerHeight w |} in
  let '(watcher, p) := add watcher (scrollConfig this) (page r) in
  let '(watcher, p) := add watcher (resizeConfig this) p in
  ({| world := {| win := w; instances := instances (world r) ++ [g] |};
      page := p;
      watchers := watchers r ++ [watcher] |},
   this).

(** The module body: what a load of this file does and what it exports. *)
Definition load (r : realm) : realm * nat :=
  let '(r1, globalWindow) := construct r in
  let w := win (world r1) in
  match window.YANO_JS_GLOBAL_WINDOW w with
  | Some existing => (r1, existing)
  | None =>
      ({| world :=
            {| win :=
                 {| window.scrollY := window.scrollY w;
                    window.innerWidth := window.innerWidth w;
                    window.innerHeight := window.innerHeight w;
                    window.YANO_JS_GLOBAL_WINDOW := Some globalWindow |};
               instances := instances (world r1) |};
          page := page r1;
          watchers := watchers r1 |},
       globalWindow)
  end.

(** [dispose] on the instance [this]. *)
Definition dispose (this : nat) (r : realm) : realm :=
  match watchers r !! this with
  | None => r
  | Some watcher =>
      let '(watcher, p) := DomWatcherPage.dispose watcher (page r) in
      {| world := world r; page := p;
         watchers := <[this := watcher]> (watchers r) |}
  end.

(** Whether a registration is for events named [on] of the window. *)
Definition hears (how : registration) (on : string) : bool :=
  match how with
  | AddEventListener Window on' _ => bool_decide (on' = on)
  | _ => false
  end.

(** The listeners the window calls for an event named [on]: those
    attached for it, the ones registered with [capture] first, either
    group in the order of its registration. *)
Definition heard (on : string) (p : DomWatcherPage.page World)
  : list (nat * registration * Function World) :=
  let ls := filter (λ x, hears x.1.2 on) (attached (calls p)) in
  filter (λ x, capture (optionsOf x.1.2) = true) ls
    ++ filter (λ x, capture (optionsOf x.1.2) = false) ls.

(** The browser dispatching an event of the window. An exception in a
    listener is reported and the dispatch goes on with the next one. *)
Definition fire (on : string) (r : realm) : realm :=
  {| world := foldl (λ w x, (x.2 w).1) (world r) (heard on (page r));
     page := foldl (λ p x, said p (Fired x.1.1)) (page r) (heard on (page r));
     watchers := watchers r |}.

Definition withWindow (r : realm) (w : window.t) : realm :=
  {| world := {| win := w; instances := instances (world r) |};
     page := page r; watchers := watchers r |}.

(** The page is scrolled to [y]: the window changes, then hears about it. *)
Definition scrollTo (y : num) (r : realm) : realm :=
  let w := win (world r) in
  fire "scroll"
    (withWindow r
       {| window.scrollY := y;
          window.innerWidth := window.innerWidth w;
          window.innerHeight := window.innerHeight w;
          window.YANO_JS_GLOBAL_WINDOW := window.YANO_JS_GLOBAL_WINDOW w |}).

(** The window is resized to [width] by [height]. *)
Definition resizeTo (width height : num) (r : realm) : realm :=
  let w := win (world r) in
  fire "resize"
    (withWindow r
       {| window.scrollY := window.scrollY w;
          window.innerWidth := width;
          window.innerHeight := height;
          window.YANO_JS_GLOBAL_WINDOW := window.YANO_JS_GLOBAL_WINDOW w |}).

(** A page before any load: nothing listens, no instance exists and the
    window has no [YANO_JS_GLOBAL_WINDOW]. *)
Definition start (scrollY innerWidth innerHeight : num) : realm :=
  {| world :=
       {| win := {| window.scrollY := scrollY;
                    window.innerWidth := innerWidth;
                    window.innerHeight := innerHeight;
                    window.YANO_JS_GLOBAL_WINDOW := None |};
          instances := [] |};
     page := {| created := 0; calls := [] |};
     watchers := [] |}.

(** What happens on the page, one thing after the other. *)
Inductive happening : Type :=
  | Load
  | Dispose (this : nat)
  | ScrollTo (y : num)
  | ResizeTo (width height : num).

(** The realm after a happening, and the export when it was a load. *)
Definition happen (r : realm) (h : happening) : realm * list nat :=
  match h with
  | Load => let '(r', g) := load r in (r', [g])
  | Dispose this => (dispose this r, [])
  | ScrollTo y => (scrollTo y r, [])
  | ResizeTo w h => (resizeTo w h r, [])
  end.

Fixpoint happenAll (r : realm) (hs : list happening) : realm * list nat :=
  match hs with
  | [] => (r, [])
  | h :: hs' =>
      let '(r1, e1) := happen r h in
      let '(r2, e2) := happenAll r1 hs' in
      (r2, e1 ++ e2)
  end.

(** Whether the watcher of an instance still holds its configs. *)
Definition listening (r : realm) (this : nat) : bool :=
  match watchers r !! this with
  | Some watcher => negb (bool_decide (watcherConfigs watcher = []))
  | None => false
  end.

(** What the watcher of the instance [this] holds when the listeners of
    the page were all created by constructors of this class: the two
    configs, with the removers of listener [2 * this] and the next. *)
Definition entriesOf (this : nat) : list (entry World) :=
  [ {| config := scrollConfig this; remover := Some (2 * this)%nat |};
    {| config := resizeConfig this; remover := Some (2 * this + 1)%nat |} ].

Definition listenersOf (this : nat)
  : list (nat * registration * Function World) :=
  [ ((2 * this)%nat, AddEventListener Window "scroll" passiveOptions,
     listener (scrollConfig this));
    ((2 * this + 1)%nat, AddEventListener Window "resize" passiveOptions,
     listener (resizeConfig this)) ].

(** The listeners of the watchers [k], [k + 1], ... that still hold their
    configs. *)
Fixpoint heardFrom (k : nat) (ws : list (DomWatcherPage.t World))
  : list (nat * registration * Function World) :=
  match ws with
  | [] => []
  | watcher :: ws' =>
      (if bool_decide (watcherConfigs watcher = []) then []
       else listenersOf k)
      ++ heardFrom (S k) ws'
  end.

(** The realms this file alone gives rise to: every instance has its
    watcher, a watcher holds its two configs or none, and the page hears
    the watchers that hold theirs. *)
Definition tidy (r : realm) : Prop :=
  length (watchers r) = length (instances (world r))
  ∧ created (page r) = (2 * length (watchers r))%nat
  ∧ (∀ i watcher, watchers r !! i = Some watcher →
       watcherConfigs watcher = [] ∨ watcherConfigs watcher = entriesOf i)
  ∧ attached (calls (page r)) = heardFrom 0 (watchers r).

(** What the module body keeps of [window.YANO_JS_GLOBAL_WINDOW]: it is
    unset as long as no instance exists, and names the first instance
    afterwards. *)
Definition singleton (r : realm) : Prop :=
  match window.YANO_JS_GLOBAL_WINDOW (win (world r)) with
  | None => instances (world r) = []
  | Some g => g = 0%nat ∧ instances (world r) ≠ []
  end.

(** The instance [g] after a scroll event that found the window [w], and
    after a resize event. *)
Definition scrolled (w : window.t) (g : t) : t :=
  {| scrollY := window.scrollY w; width := width g; height := height g |}.

Definition resized (w : window.t) (g : t) : t :=
  {| scrollY := window.scrollY w;
     width := window.innerWidth w;
     height := window.innerHeight w |}.

End GlobalWindow.

(** ** [ScrollSmoothRender]: the handlers *)

(** The handlers and the public switches of
    [src/dom/scroll-smooth-render.ts]. The [Raf] the class owns and the
    event it is handed are seen through the calls made on them. [onRaf],
    which rests on [mathf.damp] and on 32-bit truncation of floats, and
    the registrations of the constructor are not embedded. *)
Module ScrollSmoothRender.

Record ScrollSmoothRenderConfig : Type := {
  scrollSensitivity : num;
  dynamicSensitivity : bool;
  lerp : num;
  damp : num
}.

(** A wheel event, as far as [wheelHandler] reads it. Not every browser
    has [wheelDeltaY]. *)
Record WheelEvent : Type := { deltaY : num; wheelDeltaY : option num }.

(** The functions handed to [raf.read]. *)
Inductive read : Type :=
  | TrackCurrentY
  | TrackTargetY
  | AimBy (delta sensitivity : num).

(** The calls a handler makes on its event and on [this.raf]. *)
Inductive call : Type :=
  | PreventDefault
  | RafStart
  | RafStop
  | RafRead (k : read).

(** [None] in [currentY] and [targetY] stands for what is no number:
    [undefined] before the first assignment, [NaN] after arithmetic
    on it. *)
Record t : Type := {
  currentY : option num;
  targetY : option num;
  isWheeling : bool;
  config : ScrollSmoothRenderConfig;
  disabled : bool
}.

(** The fields as the constructor leaves them. *)
Definition new (config : ScrollSmoothRenderConfig) : t :=
  {| currentY := None; targetY := None; isWheeling := false;
     config := config; disabled := false |}.

Definition set_isWheeling (this : t) (b : bool) : t :=
  {| currentY := currentY this; targetY := targetY this; isWheeling := b;
     config := config this; disabled := disabled this |}.

Definition set_disabled (this : t) (b : bool) : t :=
  {| currentY := currentY this; targetY := targetY this;
     isWheeling := isWheeling this; config := config this; disabled := b |}.

Definition set_currentY (this : t) (y : option num) : t :=
  {| currentY := y; targetY := targetY this; isWheeling := isWheeling this;
     config := config this; disabled := disabled this |}.

Definition set_targetY (this : t) (y : option num) : t :=
  {| currentY := currentY this; targetY := y; isWheeling := isWheeling this;
     config := config this; disabled := disabled this |}.

(** What a function handed to [raf.read] does once it runs, with
    [scrollTop] what [getScrollTop()] gives then. *)
Definition run (k : read) (scrollTop : num) (this : t) : t :=
  match k with
  | TrackCurrentY => set_currentY this (Some scrollTop)
  | TrackTargetY => set_targetY this (Some scrollTop)
  | AimBy delta sensitivity =>
      set_targetY this ((λ y, y + delta * sensitivity) <$> currentY this)
  end.

Definition stopWheelJack (this : t) : t * list call :=
  (set_isWheeling this false, [RafStop]).

Definition disable (this : t) : t * list call :=
  let '(this, calls) := stopWheelJack this in
  (set_disabled this true, calls).

Definition enable (this : t) : t * list call :=
  (set_disabled this false, []).

(** [this.disable], read in a condition: the method itself, and a
    function is truthy. *)
Definition disableIsTruthy : bool := true.

Definition scrollHandler (this : t) : t * list call :=
  if isWheeling this || disableIsTruthy then (this, [])
  else (this, [RafRead TrackTargetY]).

(** A number in a condition: zero is falsy, and so is a missing one. *)
Definition truthy (x : option num) : bool :=
  match x with
  | Some v => negb (bool_decide (v = 0))
  | None => false
  end.

Definition wheelHandler (this : t) (e : WheelEvent) : t * list call :=
  if disabled this then (this, [])
  else
    let delta := deltaY e in
    let sensitivity := scrollSensitivity (config this) in
    let delta :=
      if dynamicSensitivity (config this)
      then match wheelDeltaY e with
           | Some v => if truthy (Some v) then - v / frac 120 1 else deltaY e
           | None => deltaY e
           end
      else delta in
    (set_isWheeling this true,
     [PreventDefault; RafStart; RafRead (AimBy delta sensitivity)]).

(** What reaches an instance: the three events its constructor listens
    for, and the two public switches. *)
Inductive input : Type :=
  | Wheel (e : WheelEvent)
  | Scroll
  | MouseDown
  | Disable
  | Enable.

Definition handle (this : t) (i : input) : t * list call :=
  match i with
  | Wheel e => wheelHandler this e
  | Scroll => scrollHandler this
  | MouseDown => stopWheelJack this
  | Disable => disable this
  | Enable => enable this
  end.

Fixpoint handleAll (this : t) (inputs : list input) : t * list call :=
  match inputs with
  | [] => (this, [])
  | i :: inputs' =>
      let '(this1, calls1) := handle this i in
      let '(this2, calls2) := handleAll this1 inputs' in
      (this2, calls1 ++ calls2)
  end.

(** Whether an input is an event of the page rather than a call of the
    owner. *)
Definition fromPage (i : input) : bool :=
  match i with
  | Wheel _ | Scroll | MouseDown => true
  | Disable | Enable => false
  end.

End ScrollSmoothRender.

(** ** More concrete configurations *)

Module MoreExamples.

Import Interpolate MultiInterpolate.

(** [{ interpolations: [{ progress: [segMixed], id: '--w' }] }], whose
    only segment runs from pixels to viewport heights. *)
Definition configMixed : multiInterpolateConfig :=
  {| interpolations := [ {| id := "--w"; progress := [Examples.segMixed] |} ] |}.

(** What [new CssVarInterpolate(ball, configMixed)] leaves behind. *)
Definition binderMixed : CssVarInterpolate.t :=
  {| CssVarInterpolate.element := Some Examples.ball;
     CssVarInterpolate.config := configMixed;
     CssVarInterpolate.mainProgress := None;
     CssVarInterpolate.currentValues := [];
     CssVarInterpolate.multiInterpolate := MultiInterpolate.new configMixed;
     CssVarInterpolate.startProgress := 0;
     CssVarInterpolate.endProgress := 1 |}.

(** A page on which nothing listens yet. *)
Definition emptyPage : DomWatcherPage.page nat :=
  {| DomWatcherPage.created := 0; DomWatcherPage.calls := [] |}.

(** [{ element: window, on: 'click', callback: bump,
       eventOptions: { capture: true } }]. *)
Definition capturing : DomWatcher.DomWatcherConfig nat :=
  {| DomWatcher.eventOptions :=
       Some {| DomWatcher.capture := true; DomWatcher.once := false;
               DomWatcher.passive := false |};
     DomWatcher.element := DomWatcher.Window;
     DomWatcher.on := "click";
     DomWatcher.callback := Examples.bump;
     DomWatcher.runWhen := None;
     DomWatcher.id := None |}.

(** The settings the class documents for a mouse wheel. *)
Definition smooth : ScrollSmoothRender.ScrollSmoothRenderConfig :=
  {| ScrollSmoothRender.scrollSensitivity := frac 120 1;
     ScrollSmoothRender.dynamicSensitivity := true;
     ScrollSmoothRender.lerp := 1;
     ScrollSmoothRender.damp := frac 2 5 |}.

(** One notch of a mouse wheel, downwards. *)
Definition notch : ScrollSmoothRender.WheelEvent :=
  {| ScrollSmoothRender.deltaY := frac 100 1;
     ScrollSmoothRender.wheelDeltaY := Some (frac (-120) 1) |}.

(** [MatrixIV.IDENTITY], in the arithmetic of JavaScript. *)
Definition identityIV : MatrixIV.t := @MatrixIV.IDENTITY MatrixIV.binary.

(** The numbers [0.1], [0.6] and [0.8]: the doubles nearest to a tenth,
    to three fifths and to four fifths. *)
Definition tenth : num := @MatrixIV.double MatrixIV.binary (frac 1 10).
Definition sine : num := @MatrixIV.double MatrixIV.binary (frac 3 5).
Definition cosine : num := @MatrixIV.double MatrixIV.binary (frac 4 5).

(** [MatrixIV.IDENTITY.scaleXyz(0.1, 1, 1)]. *)
Definition scaled : MatrixIV.t :=
  @MatrixIV.scaleXyz MatrixIV.binary identityIV tenth 1 1.

(** [MatrixIV.IDENTITY.rotateZ(angle)], the sine of the angle being
    [0.6] and its cosine [0.8]. *)
Definition turned : MatrixIV.t :=
  @MatrixIV.rotateZ MatrixIV.binary identityIV sine cosine.

End MoreExamples.

(** * Properties *)

(** ** Numbers *)

Section Numbers.

Lemma clamp01_range (x : num) : 0 ≤ clamp01 x ∧ clamp01 x ≤ 1.
Proof.
  unfold clamp01. repeat case_decide; split; try done.
  - by apply Qcnot_lt_le.
  - by apply Qcnot_lt_le.
Qed.

Lemma clamp01_id (x : num) : 0 ≤ x → x ≤ 1 → clamp01 x = x.
Proof.
  intros H0 H1. unfold clamp01. repeat case_decide; try done.
  - by destruct (Qclt_not_le _ _ H).
  - by destruct (Qclt_not_le 1 x).
Qed.

Lemma Qcminus_ne_0 (a b : num) : a ≠ b → a - b ≠ 0.
Proof.
  intros Hne Hz. apply Hne.
  rewrite <-(Qcplus_0_l b), <-Hz. ring.
Qed.

Lemma childProgress_unit (p : num) : 0 ≤ p → p ≤ 1 → childProgress p 0 1 = p.
Proof.
  intros H0 H1. unfold childProgress. case_decide; [done|].
  replace ((p - 0) / (1 - 0)) with p by (field; done).
  by apply clamp01_id.
Qed.

Lemma childProgress_at_start (s e : num) : e ≠ s → childProgress s s e = 0.
Proof.
  intros Hne. unfold childProgress. case_decide; [done|].
  replace ((s - s) / (e - s)) with (0 : num).
  - by apply clamp01_id.
  - field. by apply Qcminus_ne_0.
Qed.

Lemma childProgress_at_end (s e : num) : e ≠ s → childProgress e s e = 1.
Proof.
  intros Hne. unfold childProgress. case_decide; [done|].
  replace ((e - s) / (e - s)) with (1 : num).
  - by apply clamp01_id.
  - field. by apply Qcminus_ne_0.
Qed.

Lemma childProgress_range (p s e : num) :
  0 ≤ childProgress p s e ∧ childProgress p s e ≤ 1.
Proof.
  unfold childProgress. case_decide; [done|]. apply clamp01_range.
Qed.

End Numbers.

(** ** Objects *)

Section Objects.

Lemma obj_set_keys (o : Object) (k : string) (v : value) :
  (obj_set o k v).*1 = if decide (k ∈ o.*1) then o.*1 else o.*1 ++ [k].
Proof.
  induction o as [|[k' v'] o IH]; csimpl; [done|].
  destruct (decide (k' = k)) as [->|Hne]; csimpl.
  - rewrite decide_True; [done|]. apply elem_of_cons; by left.
  - rewrite IH. destruct (decide (k ∈ o.*1)) as [Hin|Hnin].
    + rewrite decide_True; [done|]. apply elem_of_cons; by right.
    + rewrite decide_False; [done|].
      intros [->|?]%elem_of_cons; done.
Qed.

Lemma obj_set_NoDup (o : Object) (k : string) (v : value) :
  NoDup o.*1 → NoDup (obj_set o k v).*1.
Proof.
  intros Hnd. rewrite obj_set_keys. case_decide; [done|].
  apply NoDup_app. split_and!; [done| |apply NoDup_singleton].
  intros x Hx ->%list_elem_of_singleton. done.
Qed.

Lemma collect_NoDup cs (p : num) (acc o : Object) :
  NoDup acc.*1 → MultiInterpolate.collect cs p acc = Ok o → NoDup o.*1.
Proof.
  revert acc. induction cs as [|c cs IH]; intros acc Hnd; simpl.
  - by intros [= <-].
  - destruct (Interpolate.calculate _ p); [|done].
    apply IH. by apply obj_set_NoDup.
Qed.

Lemma obj_get_elem_of (o : Object) (k : string) (v : value) :
  obj_get o k = Some v → (k, v) ∈ o.
Proof.
  induction o as [|[k' v'] o IH]; simpl; [done|].
  case_decide as Hk.
  - intros [= ->]. subst. apply elem_of_cons; by left.
  - intros H. apply elem_of_cons; right. by apply IH.
Qed.

(** What [MultiInterpolate.calculate] returns has one entry per key, as
    every JavaScript object does. *)
Lemma calculate_NoDup (mi : MultiInterpolate.t) (p : num) (o : Object) :
  MultiInterpolate.calculate mi p = Ok o → NoDup o.*1.
Proof. apply collect_NoDup. constructor. Qed.

End Objects.

(** ** CssVarInterpolate *)

Module CssVarInterpolateProofs.

Import dom CssVarInterpolate.

(** *** The write loop *)

Lemma writeAll_present (todo : Object) (this : t) (el : HTMLElement) :
  element this = Some el →
  writeAll this todo =
    {| this' := set_element this (Some {| style := styleAfter (style el) todo |});
       effects := writesOf todo;
       completion := Ok () |}.
Proof.
  revert this el. induction todo as [|[k v] todo IH]; intros this el Hel.
  - simpl. destruct this, el; simpl in *; by subst.
  - simpl. rewrite Hel. simpl.
    rewrite (IH _ {| style := <[k:=v]> (style el) |}); done.
Qed.

Lemma writeAll_null (todo : Object) (this : t) :
  element this = None → todo ≠ [] →
  writeAll this todo =
    {| this' := this; effects := []; completion := Throw TypeError |}.
Proof.
  intros Hel Hne. destruct todo as [|[k v] todo]; [done|].
  simpl. by rewrite Hel.
Qed.

Lemma styleAfter_other (o : Object) (m : gmap string value) (k : string) :
  k ∉ o.*1 → styleAfter m o !! k = m !! k.
Proof.
  revert m. induction o as [|[k' v'] o IH]; intros m Hk; [done|].
  csimpl in Hk. apply not_elem_of_cons in Hk as [Hne Hk].
  unfold styleAfter in *. simpl. rewrite IH; [|done].
  by rewrite lookup_insert_ne.
Qed.

(** With one entry per key, every pair of the object ends up in the
    inline style. *)
Lemma styleAfter_lookup (o : Object) (m : gmap string value) (k : string) (v : value) :
  NoDup o.*1 → (k, v) ∈ o → styleAfter m o !! k = Some v.
Proof.
  revert m. induction o as [|[k' v'] o IH]; intros m Hnd Hin.
  - by apply elem_of_nil in Hin.
  - csimpl in Hnd. apply NoDup_cons in Hnd as [Hk' Hnd].
    apply elem_of_cons in Hin as [[= -> ->]|Hin].
    + change (styleAfter (<[k':=v']> m) o !! k' = Some v').
      rewrite styleAfter_other; [|done]. by rewrite lookup_insert_eq.
    + change (styleAfter (<[k':=v']> m) o !! k = Some v). by apply IH.
Qed.

Lemma calculated_writesOf (o : Object) : calculated (writesOf o) = [].
Proof. by induction o as [|[??] ? IH]. Qed.

Lemma written_writesOf (o : Object) : written (writesOf o) = o.
Proof.
  induction o as [|[k v] o IH]; [done|].
  change (written (writesOf ((k, v) :: o))) with ((k, v) :: written (writesOf o)).
  by rewrite IH.
Qed.

(** *** The two paths of [update] *)

(** The culled path: the guard compares the argument with the stored
    field, and when they agree nothing at all happens. *)
Lemma update_culled (this : t) (progress : num) :
  mainProgress this = Some progress →
  update this progress =
    {| this' := this; effects := []; completion := Ok () |}.
Proof.
  intros H. unfold update, looseEq. rewrite H.
  by rewrite bool_decide_eq_true_2.
Qed.

(** The path past the guard. *)
Lemma update_accepted (this : t) (progress : num) :
  looseEq progress (mainProgress this) = false →
  let child := childProgress progress (startProgress this) (endProgress this) in
  let this1 := set_mainProgress this (Some child) in
  update this progress =
    match MultiInterpolate.calculate (multiInterpolate this) child with
    | Throw e =>
        {| this' := this1; effects := [Calculate child]; completion := Throw e |}
    | Ok values =>
        let r := writeAll (set_currentValues this1 values) values in
        {| this' := this' r; effects := Calculate child :: effects r;
           completion := completion r |}
    end.
Proof. intros H. unfold update. by rewrite H. Qed.

Lemma writeAll_fields (todo : Object) (this : t) :
  let r := writeAll this todo in
  mainProgress (this' r) = mainProgress this
  ∧ currentValues (this' r) = currentValues this
  ∧ startProgress (this' r) = startProgress this
  ∧ endProgress (this' r) = endProgress this
  ∧ multiInterpolate (this' r) = multiInterpolate this
  ∧ calculated (effects r) = [].
Proof.
  revert this. induction todo as [|[k v] todo IH]; intros this; simpl; [done|].
  destruct (element this) as [el|]; simpl; [|done].
  apply (IH (set_element this _)).
Qed.

(** What the field [mainProgress] holds after a call that got past the
    guard: the child progress, whatever happens afterwards. *)
Lemma update_accepted_mainProgress (this : t) (progress : num) :
  looseEq progress (mainProgress this) = false →
  mainProgress (this' (update this progress)) =
    Some (childProgress progress (startProgress this) (endProgress this)).
Proof.
  intros H. rewrite update_accepted; [|done]. simpl.
  destruct (MultiInterpolate.calculate _ _) as [values|e]; [|done].
  simpl. by destruct (writeAll_fields values
    (set_currentValues (set_mainProgress this
       (Some (childProgress progress (startProgress this) (endProgress this))))
       values)) as (-> & _).
Qed.

Lemma calculated_cons (p : num) (es : list effect) :
  calculated (Calculate p :: es) = p :: calculated es.
Proof. done. Qed.

Lemma update_accepted_calculated (this : t) (progress : num) :
  looseEq progress (mainProgress this) = false →
  calculated (effects (update this progress)) =
    [childProgress progress (startProgress this) (endProgress this)].
Proof.
  intros H. rewrite update_accepted; [|done]. cbv zeta.
  destruct (MultiInterpolate.calculate _ _) as [values|e]; [|done].
  cbn [effects]. rewrite calculated_cons. f_equal.
  apply writeAll_fields.
Qed.

(** The path past the guard when [calculate] returns and there is an
    element to write to: the call returns, having written every pair. *)
Lemma update_accepted_returned (this : t) (progress : num) (el : HTMLElement)
    (values : Object) :
  looseEq progress (mainProgress this) = false →
  element this = Some el →
  let child := childProgress progress (startProgress this) (endProgress this) in
  MultiInterpolate.calculate (multiInterpolate this) child = Ok values →
  update this progress =
    {| this' :=
         set_element
           (set_currentValues (set_mainProgress this (Some child)) values)
           (Some {| style := styleAfter (style el) values |});
       effects := Calculate child :: writesOf values;
       completion := Ok () |}.
Proof.
  intros Hacc Hel child Hcalc.
  rewrite update_accepted; [|done]. cbv zeta. fold child. rewrite Hcalc.
  by rewrite (writeAll_present values _ el).
Qed.

(** A call is culled exactly when the argument is what the field holds:
    every call that gets past the guard at least calls [calculate]. *)
Lemma update_culled_iff (this : t) (progress : num) :
  mainProgress this = Some progress ↔ effects (update this progress) = [].
Proof.
  split.
  - intros H. by rewrite update_culled.
  - intros H. destruct (looseEq progress (mainProgress this)) eqn:Heq.
    + unfold looseEq in Heq. destruct (mainProgress this) as [m|]; [|done].
      by apply bool_decide_eq_true in Heq as ->.
    + apply update_accepted_calculated in Heq. by rewrite H in Heq.
Qed.

Lemma update_childStored (this : t) (progress : num) :
  childStored this → childStored (this' (update this progress)).
Proof.
  intros Hinv. destruct (looseEq progress (mainProgress this)) eqn:Heq.
  - unfold update. by rewrite Heq.
  - unfold childStored. rewrite update_accepted_mainProgress; [|done].
    apply childProgress_range.
Qed.

(** The invariant holds along every sequence of calls on a binder. *)
Lemma performAll_childStored (cs : list call) (this : t) :
  childStored this → childStored (this' (performAll this cs)).
Proof.
  revert this. induction cs as [|c cs IH]; intros this Hinv; [done|].
  cbn [performAll].
  assert (childStored (this' (perform this c))) as Hc.
  { destruct c as [p|s e]; [by apply update_childStored|done]. }
  destruct (completion (perform this c)); [|done].
  by apply IH.
Qed.

(** Hence an argument outside 0 .. 1 is never culled, however often it is
    repeated. *)
Lemma update_out_of_range_never_culled (cs : list call) (this : t) (p : num) :
  childStored this → 1 < p →
  looseEq p (mainProgress (this' (performAll this cs))) = false.
Proof.
  intros Hinv Hp. apply (performAll_childStored cs) in Hinv.
  unfold childStored, looseEq in *.
  destruct (mainProgress _) as [m|]; [|done].
  apply bool_decide_eq_false. intros ->.
  destruct Hinv as [_ Hle]. by apply Qclt_not_le in Hp.
Qed.

(** On a binder with the default range, an in-range progress is its own
    child progress, so repeating it is culled. *)
Lemma update_repeat_default_range (this : t) (p : num) :
  startProgress this = 0 → endProgress this = 1 → 0 ≤ p → p ≤ 1 →
  looseEq p (mainProgress this) = false →
  let r := update this p in
  update (this' r) p = {| this' := this' r; effects := []; completion := Ok () |}.
Proof.
  intros Hs He H0 H1 Hacc r. apply update_culled.
  unfold r. rewrite update_accepted_mainProgress; [|done].
  by rewrite Hs, He, childProgress_unit.
Qed.

(** *** Culling *)

Import Examples.

Lemma new_binderX :
  new MultiInterpolate.accepting (Some ball) configX = Ok binderX.
Proof. reflexivity. Qed.

(** C1 (the code departs from the claim): once the binder is scoped to
    the range 0.2 .. 0.6, [update(0.3)] stores the child progress 0.25 in
    [mainProgress], so the guard of an immediately repeated [update(0.3)]
    compares 0.3 with 0.25 and lets the call through: it interpolates and
    writes the property a second time. *)
Theorem update_repeated_progress_not_culled :
  let ranged := this' (setProgressRange binderX (frac 2 10) (frac 6 10)) in
  let first := update ranged (frac 3 10) in
  let second := update (this' first) (frac 3 10) in
  completion first = Ok ()
  ∧ mainProgress (this' first) = Some (frac 1 4)
  ∧ effects second =
      [Calculate (frac 1 4); SetCssVariable "--x" (VNum (frac 125 1))].
Proof. vm_compute. split_and!; qc_eq. Qed.

(** The same defect seen from the other side: after [update(0.3)] on that
    binder, the different progress 0.25 is culled. *)
Lemma update_changed_progress_culled :
  let ranged := this' (setProgressRange binderX (frac 2 10) (frac 6 10)) in
  let first := update ranged (frac 3 10) in
  effects (update (this' first) (frac 1 4)) = [].
Proof. vm_compute. qc_eq. Qed.

(** C2 (the code departs from the claim): with the range 0.2 .. 0.6 an
    accepted [update(0.4)] leaves 0.5 in [mainProgress], not the argument
    0.4; with the default range an accepted [update(1.5)] leaves 1. *)
Theorem update_stores_child_progress :
  let ranged := this' (setProgressRange binderX (frac 2 10) (frac 6 10)) in
  mainProgress (this' (update ranged (frac 4 10))) = Some (frac 1 2)
  ∧ frac 1 2 ≠ frac 4 10
  ∧ mainProgress (this' (update binderX (frac 3 2))) = Some 1
  ∧ (1 : num) ≠ frac 3 2.
Proof. vm_compute. split_and!; try done; qc_eq. Qed.

(** *** Child progress *)

(** C3: an accepted [update(p)] calls [calculate] once, with
    [clamp01((p - startProgress) / (endProgress - startProgress))] when
    the two bounds differ and with 0 otherwise; on a binder scoped to
    0.2 .. 0.6 that is 0 for 0.2, 1 for 0.6 and 0.5 for 0.4. *)
Theorem update_passes_child_progress (this : t) (p : num) :
  looseEq p (mainProgress this) = false →
  calculated (effects (update this p)) =
    [ if decide (endProgress this = startProgress this) then 0
      else clamp01 ((p - startProgress this)
                      / (endProgress this - startProgress this)) ]
  ∧ (startProgress this = frac 2 10 → endProgress this = frac 6 10 →
       (p = frac 2 10 → calculated (effects (update this p)) = [0])
     ∧ (p = frac 6 10 → calculated (effects (update this p)) = [1])
     ∧ (p = frac 4 10 → calculated (effects (update this p)) = [frac 1 2])).
Proof.
  intros Hacc. rewrite update_accepted_calculated; [|done].
  split; [done|]. intros -> ->. split_and!; intros ->; f_equal.
  - by apply childProgress_at_start.
  - by apply childProgress_at_end.
  - by apply Qc_is_canon.
Qed.

Lemma update_passes_child_progress_witness :
  let ranged := this' (setProgressRange binderX (frac 2 10) (frac 6 10)) in
  looseEq (frac 4 10) (mainProgress ranged) = false
  ∧ calculated (effects (update ranged (frac 4 10))) = [frac 1 2].
Proof.
  intros ranged. split; [reflexivity|].
  apply (update_passes_child_progress ranged (frac 4 10)); reflexivity.
Defined.

(** *** Writes *)

(** C6: an accepted [update] whose [calculate] returns [values] writes
    every pair of [values] to the element, in one pass and whatever the
    binder or the element held before: the effects after the [calculate]
    call are exactly one sink write per pair, [currentValues] becomes
    [values], and the inline style then holds [values[k]] under every
    key [k] of [values]. *)
Theorem update_writes_every_pair (this : t) (p : num) (el : HTMLElement)
    (values : Object) :
  looseEq p (mainProgress this) = false →
  element this = Some el →
  MultiInterpolate.calculate (multiInterpolate this)
    (childProgress p (startProgress this) (endProgress this)) = Ok values →
  let r := update this p in
  completion r = Ok ()
  ∧ effects r =
      Calculate (childProgress p (startProgress this) (endProgress this))
        :: writesOf values
  ∧ written (effects r) = values
  ∧ currentValues (this' r) = values
  ∧ ∃ el', element (this' r) = Some el'
      ∧ ∀ k v, obj_get values k = Some v → style el' !! k = Some v.
Proof.
  intros Hacc Hel Hcalc r. unfold r.
  rewrite (update_accepted_returned this p el values); [|done..].
  cbn [this' effects completion].
  split_and!; try done.
  - change (written (writesOf values) = values). apply written_writesOf.
  - eexists. split; [done|]. intros k v Hin%obj_get_elem_of. cbn [style].
    apply styleAfter_lookup; [|done]. by eapply calculate_NoDup.
Qed.

Lemma update_writes_every_pair_witness :
  let r := update binderX (frac 3 10) in
  completion r = Ok ()
  ∧ effects r = [Calculate (frac 3 10); SetCssVariable "--x" (VNum (frac 150 1))].
Proof.
  intros r.
  assert (MultiInterpolate.calculate (multiInterpolate binderX)
            (childProgress (frac 3 10) (startProgress binderX) (endProgress binderX))
          = Ok [("--x", VNum (frac 150 1))]) as Hcalc
    by (vm_compute; qc_eq).
  destruct (update_writes_every_pair binderX (frac 3 10) ball _
              eq_refl eq_refl Hcalc) as (Hc & He & _).
  subst r. split; [exact Hc|]. etrans; [exact He|]. vm_compute. qc_eq.
Defined.

(** *** The progress range *)

(** C7: [setProgressRange(start, end)] assigns [startProgress] and
    [endProgress] and does nothing else: no [calculate], no sink write,
    every other field as before; the range is read by the next accepted
    [update]. *)
Theorem setProgressRange_frame (this : t) (start end_ : num) :
  let r := setProgressRange this start end_ in
  effects r = []
  ∧ completion r = Ok ()
  ∧ startProgress (this' r) = start
  ∧ endProgress (this' r) = end_
  ∧ mainProgress (this' r) = mainProgress this
  ∧ element (this' r) = element this
  ∧ currentValues (this' r) = currentValues this
  ∧ config (this' r) = config this
  ∧ multiInterpolate (this' r) = multiInterpolate this
  ∧ ∀ p, looseEq p (mainProgress this) = false →
      calculated (effects (update (this' r) p)) = [childProgress p start end_].
Proof.
  split_and!; try done.
  intros p Hacc. by rewrite update_accepted_calculated.
Qed.

(** *** Construction *)

(** What the first [update(p)] on a binder does that holds [null] in
    [mainProgress] and the default range. *)
Lemma first_update (b : t) (p : num) :
  mainProgress b = None → startProgress b = 0 → endProgress b = 1 →
  looseEq p (mainProgress b) = false
  ∧ calculated (effects (update b p)) = [childProgress p 0 1]
  ∧ ∀ values, MultiInterpolate.calculate (multiInterpolate b)
                (childProgress p 0 1) = Ok values →
      ∀ e, element b = Some e →
        effects (update b p) = Calculate (childProgress p 0 1) :: writesOf values
        ∧ completion (update b p) = Ok ().
Proof.
  intros Hnull Hstart Hend.
  assert (looseEq p (mainProgress b) = false) as Hacc by by rewrite Hnull.
  split; [done|]. split.
  - by rewrite update_accepted_calculated, Hstart, Hend.
  - intros values Hcalc e He.
    rewrite (update_accepted_returned b p e values), Hstart, Hend; try done.
    by rewrite Hstart, Hend.
Qed.

(** C8: a new binder holds [null] in [mainProgress], so for every number
    [p], 0 included, the first [update(p)] gets past the guard: it calls
    [calculate] and, when that returns, writes every pair. This is so
    whatever the [MultiInterpolate] constructor does, as soon as it
    returns, which is when there is a binder at all; with the
    constructor that accepts every configuration there always is one. *)
Theorem first_update_runs (construct : MultiInterpolate.Constructor)
    (el : option HTMLElement)
    (cfg : MultiInterpolate.multiInterpolateConfig) (p : num) :
  (∀ mi, construct cfg = Ok mi →
     ∃ b, new construct el cfg = Ok b
       ∧ mainProgress b = None
       ∧ looseEq p (mainProgress b) = false
       ∧ calculated (effects (update b p)) = [childProgress p 0 1]
       ∧ ∀ values, MultiInterpolate.calculate (multiInterpolate b)
                     (childProgress p 0 1) = Ok values →
           ∀ e, el = Some e →
             effects (update b p)
               = Calculate (childProgress p 0 1) :: writesOf values
             ∧ completion (update b p) = Ok ())
  ∧ (∃ b, new MultiInterpolate.accepting el cfg = Ok b
       ∧ mainProgress b = None
       ∧ looseEq p (mainProgress b) = false
       ∧ calculated (effects (update b p)) = [childProgress p 0 1]
       ∧ ∀ values, MultiInterpolate.calculate (multiInterpolate b)
                     (childProgress p 0 1) = Ok values →
           ∀ e, el = Some e →
             effects (update b p)
               = Calculate (childProgress p 0 1) :: writesOf values
             ∧ completion (update b p) = Ok ()).
Proof.
  assert (∀ b, element b = el → mainProgress b = None →
            startProgress b = 0 → endProgress b = 1 →
            mainProgress b = None
            ∧ looseEq p (mainProgress b) = false
            ∧ calculated (effects (update b p)) = [childProgress p 0 1]
            ∧ ∀ values, MultiInterpolate.calculate (multiInterpolate b)
                          (childProgress p 0 1) = Ok values →
                ∀ e, el = Some e →
                  effects (update b p)
                    = Calculate (childProgress p 0 1) :: writesOf values
                  ∧ completion (update b p) = Ok ()) as Hfirst.
  { intros b Hel Hnull Hstart Hend.
    destruct (first_update b p Hnull Hstart Hend) as (Hacc & Hcalc & Hwrites).
    split_and!; try done. intros values Hvalues e He.
    apply (Hwrites values Hvalues e). by rewrite Hel. }
  split.
  - intros mi Hmi. unfold new. rewrite Hmi. eexists. split; [done|].
    by apply Hfirst.
  - eexists. split; [done|]. by apply Hfirst.
Qed.

Lemma first_update_runs_witness :
  ∃ b, new MultiInterpolate.accepting (Some ball) configX = Ok b
    ∧ mainProgress b = None
    ∧ calculated (effects (update b 0)) = [childProgress 0 0 1].
Proof.
  destruct (first_update_runs MultiInterpolate.accepting (Some ball) configX 0)
    as [H _].
  destruct (H (MultiInterpolate.new configX) eq_refl)
    as (b & Hb & Hnull & _ & Hcalc & _).
  by exists b.
Defined.

(** C9, as stated, fails: with the configuration of the class
    documentation, constructing a binder on [null] returns normally, and
    the binder holds [null] as its element. Nor does this rest on what
    the [MultiInterpolate] constructor does: whenever a binder can be
    constructed on some element, it can be constructed on [null]. *)
Lemma new_on_null_returns :
  (∃ b, new MultiInterpolate.accepting None configX = Ok b
     ∧ element b = None)
  ∧ (∀ (construct : MultiInterpolate.Constructor) el cfg b,
       new construct el cfg = Ok b →
       ∃ b', new construct None cfg = Ok b' ∧ element b' = None).
Proof.
  split; [by eexists|]. intros construct el cfg b. unfold new.
  destruct (construct cfg); [|done]. intros _. by eexists.
Qed.

(** C9, amended: the constructor does not look at the element. Whether
    it returns or throws, and what it throws, is the same for every
    element it is handed, [null] included; when it returns, the binder
    holds the element as it was given, and binders built on different
    elements differ in that field alone. No missing element is reported
    at construction. *)
Theorem new_ignores_element (construct : MultiInterpolate.Constructor)
    (el el' : option HTMLElement)
    (cfg : MultiInterpolate.multiInterpolateConfig) :
  match new construct el cfg with
  | Ok b =>
      element b = el
      ∧ new construct el' cfg = Ok (set_element b el')
      ∧ new construct None cfg = Ok (set_element b None)
  | Throw e =>
      construct cfg = Throw e
      ∧ new construct el' cfg = Throw e
      ∧ new construct None cfg = Throw e
  end.
Proof. unfold new. by destruct (construct cfg). Qed.

End CssVarInterpolateProofs.

(** ** DomWatcher *)

Module DomWatcherProofs.
Section World.

Import DomWatcher.

Context {World : Type}.
Implicit Types (w : World) (config : DomWatcherConfig World)
  (tr : list invocation) (ics : list (nat * DomWatcherConfig World)).

Lemma callsOf_app i tr1 tr2 :
  callsOf i (tr1 ++ tr2) = callsOf i tr1 ++ callsOf i tr2.
Proof. unfold callsOf. by rewrite filter_app, fmap_app. Qed.

(** The statement of the loop body: the calls it makes are all for its
    own entry, and they look as its completion says. *)
Lemma callTwiceIfTruthy_spec i config w w1 tr1 (c1 : result unit) :
  callTwiceIfTruthy i config w = (w1, tr1, c1) →
  callsOf i tr1 = tr1.*2
  ∧ (∀ j, j ≠ i → callsOf j tr1 = [])
  ∧ match c1 with
    | Ok _ => completed tr1.*2
    | Throw e => thrown e tr1.*2 ∧ last tr1 = Some (i, Throw e)
    end.
Proof.
  unfold callTwiceIfTruthy, callsOf, completed, thrown.
  destruct (callback config w) as [w1' [[|]|e]];
    [destruct (callback config w1') as [w2 [b|e]]| |];
    intros [= <- <- <-]; (split; [|split]);
    try (intros j Hj);
    repeat (rewrite filter_cons_True by done);
    repeat (rewrite filter_cons_False by (simpl; congruence));
    simpl; eauto.
Qed.

Lemma forEach_cons i config ics w :
  forEach ((i, config) :: ics) w =
    match (callTwiceIfTruthy i config w).2 with
    | Throw e =>
        ((callTwiceIfTruthy i config w).1.1,
         (callTwiceIfTruthy i config w).1.2, Throw e)
    | Ok _ =>
        ((forEach ics (callTwiceIfTruthy i config w).1.1).1.1,
         (callTwiceIfTruthy i config w).1.2
           ++ (forEach ics (callTwiceIfTruthy i config w).1.1).1.2,
         (forEach ics (callTwiceIfTruthy i config w).1.1).2)
    end.
Proof.
  cbn [forEach]. destruct (callTwiceIfTruthy i config w) as [[w1 tr1] [[]|e]];
    cbn [fst snd]; [|done].
  by destruct (forEach ics w1) as [[w2 tr2] c2].
Qed.

Lemma forEach_calls_absent ics w i :
  i ∉ ics.*1 → callsOf i (forEach ics w).1.2 = [].
Proof.
  revert w. induction ics as [|[j c] ics IH]; intros w Hi; [done|].
  csimpl in Hi. apply not_elem_of_cons in Hi as [Hne Hi].
  rewrite forEach_cons.
  destruct (callTwiceIfTruthy j c w) as [[w1 tr1] c1] eqn:Hc.
  destruct (callTwiceIfTruthy_spec j c w w1 tr1 c1 Hc) as (_ & Hother & _).
  cbn [fst snd]. destruct c1 as [[]|e]; cbn [fst snd].
  - rewrite callsOf_app, Hother, IH; done.
  - by apply Hother.
Qed.

(** The calls of the loop body are calls of its own entry. *)
Lemma callTwiceIfTruthy_indices i config w :
  Forall (λ x : invocation, x.1 = i) (callTwiceIfTruthy i config w).1.2.
Proof.
  unfold callTwiceIfTruthy.
  destruct (callback config w) as [w1 [[|]|e]];
    [destruct (callback config w1) as [w2 [b|e]]| |];
    cbn [fst snd]; by repeat constructor.
Qed.

(** The loop calls the entries it is given and no other. *)
Lemma forEach_indices ics w :
  Forall (λ x : invocation, x.1 ∈ ics.*1) (forEach ics w).1.2.
Proof.
  revert w. induction ics as [|[j c] ics IH]; intros w; [by constructor|].
  rewrite forEach_cons. pose proof (callTwiceIfTruthy_indices j c w) as Hown.
  assert (Forall (λ x : invocation, x.1 ∈ ((j, c) :: ics).*1)
            (callTwiceIfTruthy j c w).1.2) as Hown'.
  { eapply Forall_impl; [exact Hown|]. intros x ->. csimpl. by left. }
  destruct ((callTwiceIfTruthy j c w).2) as [[]|e]; cbn [fst snd]; [|done].
  apply Forall_app. split; [done|].
  eapply Forall_impl; [apply IH|]. intros x Hx. csimpl. by right.
Qed.

(** The calls of a loop over entries in ascending order of their
    positions are made in that order. *)
Lemma forEach_ascending ics w :
  StronglySorted (λ a b : nat * DomWatcherConfig World, (a.1 < b.1)%nat) ics →
  StronglySorted (λ a b : invocation, (a.1 ≤ b.1)%nat) (forEach ics w).1.2.
Proof.
  intros Hsorted. revert w.
  induction Hsorted as [|[i0 c0] ics Hsorted IH Hlt]; intros w;
    [by constructor|].
  rewrite forEach_cons. pose proof (callTwiceIfTruthy_indices i0 c0 w) as Hown.
  assert (StronglySorted (λ a b : invocation, (a.1 ≤ b.1)%nat)
            (callTwiceIfTruthy i0 c0 w).1.2) as Hfirst.
  { induction Hown as [|x tr Hx Hown IHown]; constructor; [done|].
    eapply Forall_impl; [exact Hown|]. intros y Hy. simpl.
    by rewrite Hx, Hy. }
  destruct ((callTwiceIfTruthy i0 c0 w).2) as [[]|e]; cbn [fst snd]; [|done].
  apply StronglySorted_app_2; [|done|apply IH].
  intros x y Hx Hy. rewrite Forall_forall in Hown. apply Hown in Hx.
  pose proof (forEach_indices ics (callTwiceIfTruthy i0 c0 w).1.1) as Hrest.
  rewrite Forall_forall in Hrest. apply Hrest in Hy.
  apply list_elem_of_fmap in Hy as ([j c] & Hj & Hin). simpl in Hj.
  rewrite Forall_forall in Hlt. apply Hlt in Hin. simpl in Hin. lia.
Qed.

(** A run of the loop over entries in ascending order of their
    positions. When it completes, every entry has had its statement run
    to completion. When it throws, the loop stopped at one entry: the
    call that threw is the last one made, the entries before that entry
    are complete and those after it were not called. *)
Lemma forEach_spec ics w :
  StronglySorted (λ a b : nat * DomWatcherConfig World, (a.1 < b.1)%nat) ics →
  match (forEach ics w).2 with
  | Ok _ =>
      ∀ i config, (i, config) ∈ ics →
        (∃ w0, callsOf i (forEach ics w).1.2
               = (callTwiceIfTruthy i config w0).1.2.*2)
        ∧ completed (callsOf i (forEach ics w).1.2)
  | Throw e =>
      ∃ j cj, (j, cj) ∈ ics
        ∧ last (forEach ics w).1.2 = Some (j, Throw e)
        ∧ thrown e (callsOf j (forEach ics w).1.2)
        ∧ ∀ i config, (i, config) ∈ ics →
            ((i < j)%nat → completed (callsOf i (forEach ics w).1.2))
            ∧ ((j < i)%nat → callsOf i (forEach ics w).1.2 = [])
  end.
Proof.
  intros Hsorted. revert w.
  induction Hsorted as [|[i0 c0] ics Hsorted IH Hlt]; intros w.
  - cbn. intros i config Hin. by apply elem_of_nil in Hin.
  - assert (i0 ∉ ics.*1) as Habsent.
    { intros ([j c] & Hj & Hin)%list_elem_of_fmap. simpl in Hj. subst j.
      rewrite Forall_forall in Hlt. apply Hlt in Hin. simpl in Hin. lia. }
    rewrite forEach_cons.
    destruct (callTwiceIfTruthy i0 c0 w) as [[w1 tr1] c1] eqn:Hc.
    destruct (callTwiceIfTruthy_spec i0 c0 w w1 tr1 c1 Hc)
      as (Hsame & Hother & Hshape).
    cbn [fst snd]. destruct c1 as [[]|e]; cbn [fst snd].
    + specialize (IH w1).
      destruct (forEach ics w1) as [[w2 tr2] [[]|e]] eqn:Hrest; cbn [fst snd] in *.
      * intros i config [[= -> ->]|Hin]%elem_of_cons.
        -- assert (callsOf i0 tr2 = []) as Hnone.
           { pose proof (forEach_calls_absent ics w1 i0 Habsent) as H.
             by rewrite Hrest in H. }
           rewrite callsOf_app, Hsame, Hnone, app_nil_r. split; [|done].
           exists w. by rewrite Hc.
        -- assert (i ≠ i0) as Hne.
           { rewrite Forall_forall in Hlt. apply Hlt in Hin. simpl in Hin. lia. }
           rewrite callsOf_app, Hother by done. by apply IH.
      * destruct IH as (j & cj & Hj & Hlast & Hthrown & Hrel).
        assert (i0 < j)%nat as Hij.
        { rewrite Forall_forall in Hlt. by apply Hlt in Hj. }
        exists j, cj. split_and!.
        -- apply elem_of_cons. by right.
        -- rewrite last_app, Hlast. done.
        -- rewrite callsOf_app, Hother by lia. done.
        -- intros i config [[= -> ->]|Hin]%elem_of_cons.
           ++ assert (callsOf i0 tr2 = []) as Hnone.
              { pose proof (forEach_calls_absent ics w1 i0 Habsent) as H.
                by rewrite Hrest in H. }
              rewrite callsOf_app, Hsame, Hnone, app_nil_r.
              split; [done|lia].
           ++ assert (i ≠ i0) as Hne.
              { rewrite Forall_forall in Hlt. apply Hlt in Hin.
                simpl in Hin. lia. }
              rewrite callsOf_app, Hother by done. exact (Hrel i config Hin).
    + destruct Hshape as [Hthrown Hlast]. exists i0, c0. split_and!.
      * apply elem_of_cons. by left.
      * done.
      * by rewrite Hsame.
      * intros i config [[= -> ->]|Hin]%elem_of_cons; [split; lia|].
        assert (i0 < i)%nat as Hii.
        { rewrite Forall_forall in Hlt. by apply Hlt in Hin. }
        split; [lia|]. intros _. apply Hother. lia.
Qed.

Lemma indexed_lookup (cs : list (DomWatcherConfig World)) i config :
  (i, config) ∈ indexed cs ↔ cs !! i = Some config.
Proof.
  unfold indexed. rewrite elem_of_lookup_imap. split.
  - by intros (j & c & [= -> ->] & ?).
  - intros H. by exists i, config.
Qed.

Lemma indexed_NoDup (cs : list (DomWatcherConfig World)) : NoDup (indexed cs).*1.
Proof.
  unfold indexed. rewrite fmap_imap.
  rewrite (imap_ext _ (λ j _, j)); [|done].
  rewrite (imap_seq_0 cs (λ j, j)), list_fmap_id. apply NoDup_seq.
Qed.

Lemma imap_ascending (cs : list (DomWatcherConfig World)) (f : nat → nat) :
  (∀ m n, (m < n)%nat → (f m < f n)%nat) →
  StronglySorted (λ a b : nat * DomWatcherConfig World, (a.1 < b.1)%nat)
    (imap (λ i c, (f i, c)) cs).
Proof.
  revert f. induction cs as [|c cs IH]; intros f Hf; [constructor|].
  rewrite imap_cons. constructor.
  - apply (IH (f ∘ S)). intros m n Hmn. apply Hf. lia.
  - apply Forall_forall. intros [j c'] (n & c'' & [= -> ->] & _)%elem_of_lookup_imap.
    simpl. apply Hf. lia.
Qed.

Lemma sublist_ascending ics ics' :
  ics' `sublist_of` ics →
  StronglySorted (λ a b : nat * DomWatcherConfig World, (a.1 < b.1)%nat) ics →
  StronglySorted (λ a b : nat * DomWatcherConfig World, (a.1 < b.1)%nat) ics'.
Proof.
  induction 1 as [|x l1 l2 Hsub IH|x l1 l2 Hsub IH]; intros Hs; [done| |].
  - apply StronglySorted_inv in Hs as [Hs Hall]. constructor; [by apply IH|].
    apply Forall_forall. intros y Hy. rewrite Forall_forall in Hall.
    apply Hall. by eapply elem_of_sublist.
  - apply StronglySorted_inv in Hs as [Hs _]. by apply IH.
Qed.

(** The verdict of the filter, in words: the entry has an id, the id is
    not the empty string, and it is the argument. *)
Lemma idMatches_spec config (id_ : string) :
  idMatches config id_ = true ↔ id config = Some id_ ∧ id_ ≠ "".
Proof.
  unfold idMatches, truthy. destruct (id config) as [s|].
  - rewrite andb_true_iff, negb_true_iff, bool_decide_eq_false, bool_decide_eq_true.
    split.
    + intros [Hs ->]. by split.
    + intros [[= ->] Hs]. by split.
  - split; [done|]. by intros [? _].
Qed.

(** C10, amended. [run(id)] goes through the entries of
    [watcherConfigs] whose id is the argument, and not the empty string,
    in their order, and runs [config.callback() && config.callback()] for
    each: one call when the first returns something falsy, two when it
    returns something truthy. An entry with another id, no id or the
    empty id is never called. When no call throws, every entry that
    matches has been called in that way. When a call throws, [run] ends
    with that call and throws the same: the entries that match and come
    before the one whose callback threw have been called in that way,
    those after it have not been called at all. In both cases the calls
    are made in the order of the entries. *)
Theorem run_calls (this : t World) (id_ : string) w i config :
  watcherConfigs this !! i = Some config →
  let r := run this id_ w in
  let calls := callsOf i r.1.2 in
  (¬ (id config = Some id_ ∧ id_ ≠ "") → calls = [])
  ∧ (id config = Some id_ ∧ id_ ≠ "" →
       match r.2 with
       | Ok _ =>
           (∃ w0, calls = (callTwiceIfTruthy i config w0).1.2.*2)
           ∧ completed calls
       | Throw e =>
           ∃ j cj, watcherConfigs this !! j = Some cj
             ∧ (id cj = Some id_ ∧ id_ ≠ "")
             ∧ last r.1.2 = Some (j, Throw e)
             ∧ thrown e (callsOf j r.1.2)
             ∧ ((i < j)%nat → completed calls)
             ∧ ((j < i)%nat → calls = [])
       end)
  ∧ StronglySorted (λ a b : invocation, (a.1 ≤ b.1)%nat) r.1.2.
Proof.
  intros Hi r calls. unfold calls, r, run. clear r calls.
  set (ics := filter (λ ic, idMatches ic.2 id_) (indexed (watcherConfigs this))).
  assert (StronglySorted
            (λ a b : nat * DomWatcherConfig World, (a.1 < b.1)%nat) ics) as Hs.
  { eapply sublist_ascending; [apply sublist_filter|].
    apply (imap_ascending _ (λ j, j)). by intros. }
  assert (∀ j c, (j, c) ∈ ics ↔
            watcherConfigs this !! j = Some c ∧ (id c = Some id_ ∧ id_ ≠ "")) as Hin.
  { intros j c. unfold ics. rewrite list_elem_of_filter, indexed_lookup.
    cbn [snd]. rewrite <-idMatches_spec, Is_true_true. tauto. }
  split; [|split; [|by apply forEach_ascending]].
  - intros Hm. apply forEach_calls_absent.
    intros ([j c] & Hj & Hjc)%list_elem_of_fmap. simpl in Hj. subst j.
    apply Hin in Hjc as [Hjc Hmc]. rewrite Hi in Hjc. injection Hjc as <-.
    by apply Hm.
  - intros Hm. pose proof (forEach_spec ics w Hs) as Hspec.
    destruct (forEach ics w) as [[w' tr] [[]|e]]; cbn [fst snd] in *.
    + apply Hspec, Hin. by split.
    + destruct Hspec as (j & cj & Hj & Hlast & Hthrown & Hrel).
      apply Hin in Hj as [Hj Hmj]. exists j, cj.
      assert ((i, config) ∈ ics) as Hic by (apply Hin; by split).
      destruct (Hrel i config Hic) as [Hbefore Hafter].
      repeat (split; [done|]). done.
Qed.

End World.

Import DomWatcher Examples.

Lemma run_calls_witness :
  watcherConfigs watcherBoom !! 1%nat = Some yo
  ∧ run watcherBoom "yo" 0%nat = (1%nat, [(0%nat, Throw TypeError)], Throw TypeError)
  ∧ callsOf 1 (run watcherBoom "yo" 0%nat).1.2 = [].
Proof.
  split; [reflexivity|]. split; [reflexivity|].
  assert (id yo = Some "yo" ∧ "yo" ≠ "") as Hyo by done.
  destruct (run_calls watcherBoom "yo" 0%nat 1 yo eq_refl) as (_ & H & _).
  destruct (H Hyo) as (j & cj & _ & _ & Hlast & _ & _ & Hafter).
  apply Hafter. injection Hlast as <-. lia.
Defined.

(** C10, as stated, fails: an entry registered with the empty string as
    its id is not called by [run('')], although its id equals the
    argument; the page is left as it was. *)
Lemma run_empty_id_not_called :
  watcherConfigs watcher !! 0%nat = Some unnamed
  ∧ id unnamed = Some ""
  ∧ run watcher "" 0%nat = (0%nat, [], Ok ()).
Proof. split_and!; reflexivity. Qed.

End DomWatcherProofs.

(** ** Raf *)

Module RafProofs.
Section World.

Import Raf.

Context {World : Type}.
Implicit Types (this : t World) (w : World) (queue : list (Callback World)).

Lemma drain_prefix phase queue this w :
  trace (drain phase queue this w) `prefix_of` tasks phase queue.
Proof.
  revert this w. induction queue as [|cb queue IH]; intros this w; [done|].
  cbn [drain tasks map]. destruct (invoke this cb w) as [[this1 w1] [[]|e]].
  - cbn [trace]. apply prefix_cons, IH.
  - cbn [trace]. apply prefix_cons, prefix_nil.
Qed.

Lemma drain_returned phase queue this w :
  completion (drain phase queue this w) = Ok () →
  trace (drain phase queue this w) = tasks phase queue.
Proof.
  revert this w. induction queue as [|cb queue IH]; intros this w; [done|].
  cbn [drain tasks map]. destruct (invoke this cb w) as [[this1 w1] [[]|e]].
  - cbn [trace completion]. intros H. f_equal. by apply IH.
  - done.
Qed.

Lemma drain_only phase queue this w e :
  e ∈ trace (drain phase queue this w) → ∃ l, e = Task phase l.
Proof.
  intros He. eapply elem_of_prefix in He; [|apply drain_prefix].
  apply list_elem_of_fmap in He as (cb & -> & _). eauto.
Qed.

(** A sequenced cycle either stopped in its first part or ran it whole. *)
Lemma andThen_trace (r : cycle World) k :
  (∃ e, completion r = Throw e ∧ andThen r k = r)
  ∨ (completion r = Ok ()
     ∧ trace (andThen r k) = trace r ++ trace (k (this' r) (world r))
     ∧ completion (andThen r k) = completion (k (this' r) (world r))).
Proof.
  unfold andThen. destruct (completion r) as [[]|e]; [right|left]; eauto.
Qed.

Lemma tasks_rank phase queue e :
  e ∈ tasks phase queue → rank e = rank (Task phase 0).
Proof. intros (cb & -> & _)%list_elem_of_fmap. by destruct phase. Qed.

(** The prescribed order never steps back from a later phase to an
    earlier one. *)
Lemma schedule_sorted this (i j : nat) (e1 e2 : event) :
  schedule this !! i = Some e1 → schedule this !! j = Some e2 →
  (i < j)%nat → (rank e1 ≤ rank e2)%nat.
Proof.
  unfold schedule. intros H1 H2 Hij.
  apply lookup_app_Some in H1 as [H1|[Hl1 H1]];
    [|apply lookup_app_Some in H1 as [H1|[Hl1' H1]]];
    (apply lookup_app_Some in H2 as [H2|[Hl2 H2]];
       [|apply lookup_app_Some in H2 as [H2|[Hl2' H2]]]);
    pose proof (lookup_lt_Some _ _ _ H1); pose proof (lookup_lt_Some _ _ _ H2);
    apply list_elem_of_lookup_2, tasks_rank in H1;
    apply list_elem_of_lookup_2, tasks_rank in H2;
    rewrite H1, H2; simpl; lia.
Qed.

(** C4: with read/write mode on, a pump cycle of a running scheduler runs
    the callbacks it found queued in the order reads, writes, post-writes
    and, inside a phase, in the order they were registered: what it ran
    is an initial part of that order, all of it when no callback threw;
    a write has every read before it, a post-write every read and every
    write. *)
Theorem pump_phase_order this w :
  state this = Running → isReadWriteMode this = true →
  let r := pump this w in
  trace r `prefix_of` schedule this
  ∧ (completion r = Ok () → trace r = schedule this)
  ∧ (∀ i j e1 e2, trace r !! i = Some e1 → trace r !! j = Some e2 →
       (i < j)%nat → (rank e1 ≤ rank e2)%nat)
  ∧ (∀ l, Task Write l ∈ trace r →
       tasks Read (reads this) `prefix_of` trace r)
  ∧ (∀ l, Task PostWrite l ∈ trace r →
       (tasks Read (reads this) ++ tasks Write (writes this)) `prefix_of` trace r).
Proof.
  intros Hrun Hmode r. unfold r, pump. rewrite Hrun, Hmode. clear r.
  set (r1 := drain Read (reads this) _ w).
  set (k1 := λ this1 w1, andThen (drain Write (writes this) this1 w1) _).
  assert (trace r1 `prefix_of` tasks Read (reads this)) as Hp1
    by apply drain_prefix.
  assert (∀ e, e ∈ trace r1 → ∃ l, e = Task Read l) as Ho1
    by (intros e; apply drain_only).
  destruct (andThen_trace r1 k1) as [(e & He & ->)|(Hok1 & -> & ->)].
  { split_and!.
    - unfold schedule. by apply prefix_app_r.
    - by rewrite He.
    - intros i j e1 e2 H1 H2. apply (schedule_sorted this i j e1 e2);
        (eapply prefix_lookup_Some; [eassumption|]);
        unfold schedule; by apply prefix_app_r.
    - intros l [l' [=]]%Ho1.
    - intros l [l' [=]]%Ho1. }
  assert (trace r1 = tasks Read (reads this)) as Ht1 by by apply drain_returned.
  unfold k1. clear k1.
  set (r2 := drain Write (writes this) _ _).
  set (k2 := λ this2 w2, drain PostWrite (postWrites this) this2 w2).
  assert (trace r2 `prefix_of` tasks Write (writes this)) as Hp2
    by apply drain_prefix.
  assert (∀ e, e ∈ trace r2 → ∃ l, e = Task Write l) as Ho2
    by (intros e; apply drain_only).
  rewrite Ht1.
  destruct (andThen_trace r2 k2) as [(e & He & ->)|(Hok2 & -> & ->)].
  { assert ((tasks Read (reads this) ++ trace r2) `prefix_of` schedule this) as Hp.
    { unfold schedule. apply prefix_app, prefix_app_r, Hp2. }
    split_and!.
    - done.
    - by rewrite He.
    - intros i j e1 e2 H1 H2. apply (schedule_sorted this i j e1 e2);
        (eapply prefix_lookup_Some; [eassumption|done]).
    - intros _ _. by apply prefix_app_r.
    - intros l [Hin|Hin]%elem_of_app.
      + apply list_elem_of_fmap in Hin as (? & [=] & _).
      + by apply Ho2 in Hin as [l' [=]]. }
  assert (trace r2 = tasks Write (writes this)) as Ht2 by by apply drain_returned.
  rewrite Ht2. unfold k2. clear k2.
  set (r3 := drain PostWrite (postWrites this) _ _).
  assert (trace r3 `prefix_of` tasks PostWrite (postWrites this)) as Hp3
    by apply drain_prefix.
  assert ((tasks Read (reads this) ++ tasks Write (writes this) ++ trace r3)
            `prefix_of` schedule this) as Hp.
  { unfold schedule. by do 2 apply prefix_app. }
  split_and!.
  - done.
  - intros Hok3. unfold schedule. do 2 f_equal. by apply drain_returned.
  - intros i j e1 e2 H1 H2. apply (schedule_sorted this i j e1 e2);
      (eapply prefix_lookup_Some; [eassumption|done]).
  - intros _ _. by apply prefix_app_r.
  - intros _ _. rewrite (assoc_L (++)). by apply prefix_app_r.
Qed.

(** Registration order is queue order: a callback handed to [read],
    [write] or [postWrite] goes behind those already waiting. *)
Lemma enqueue_last this phase cb :
  schedule (enqueue this phase cb) =
    match phase with
    | Read =>
        tasks Read (reads this ++ [cb]) ++ tasks Write (writes this)
          ++ tasks PostWrite (postWrites this)
    | Write =>
        tasks Read (reads this) ++ tasks Write (writes this ++ [cb])
          ++ tasks PostWrite (postWrites this)
    | PostWrite =>
        tasks Read (reads this) ++ tasks Write (writes this)
          ++ tasks PostWrite (postWrites this ++ [cb])
    end.
Proof. by destruct phase. Qed.

End World.

Import Raf Examples.

Lemma pump_phase_order_witness :
  state scheduler = Running
  ∧ isReadWriteMode scheduler = true
  ∧ trace (pump scheduler 0%nat) = [Task Read 1; Task Write 2; Task PostWrite 3].
Proof.
  split; [reflexivity|]. split; [reflexivity|].
  destruct (pump_phase_order scheduler 0%nat eq_refl eq_refl) as (_ & H & _).
  rewrite H; reflexivity.
Defined.

(** The write callback of a cycle sees what the read callback of the same
    cycle stored, and what a callback enqueues waits for the next cycle. *)
Lemma pump_write_sees_read :
  world (pump scheduler 0%nat) = 14%nat
  ∧ schedule (this' (pump scheduler 0%nat)) = [Task Read 1].
Proof. split; reflexivity. Qed.

End RafProofs.

(** ** Interpolate *)

Module InterpolateProofs.

Import Interpolate.

(** A list of one segment leaves no choice. *)
Lemma select_single (s : Segment) (p : num) : select [s] p = Some s.
Proof.
  unfold select. cbn [List.find nearest].
  by destruct (contains (inputRange s) p).
Qed.

Lemma localProgress_unit (p : num) :
  localProgress {| from := 0; to := 1 |} p = p.
Proof.
  unfold localProgress. cbn [from to]. case_decide; [done|]. field. done.
Qed.

Lemma lerp_0 (a b : num) : lerp a b 0 = a.
Proof. unfold lerp. ring. Qed.

Lemma lerp_1 (a b : num) : lerp a b 1 = b.
Proof. unfold lerp. ring. Qed.

(** What [calculate] gives at progress [p] for a single segment from 0
    to 1: the output range interpolated at the eased [p]. *)
Lemma calculate_unit (s : Segment) (p : num) :
  inputRange s = {| from := 0; to := 1 |} →
  calculate [s] p = interpolate (outputRange s) (ease (easing s) p).
Proof.
  intros Hin. unfold calculate. rewrite select_single.
  by rewrite Hin, localProgress_unit.
Qed.

(** C5, as stated, fails. An easing function is applied to the progress
    before the outputs are interpolated, so with the easing
    [t => 1 - t] the segment from 0 to 500 gives 500 at progress 0 and 0
    at progress 1; and a segment from ["10px"] to ["20vh"] gives no
    value at all. *)
Lemma calculate_endpoints_eased_or_mixed :
  calculate [Examples.segReversed] 0 = Ok (VNum (frac 500 1))
  ∧ calculate [Examples.segReversed] 1 = Ok (VNum 0)
  ∧ calculate [Examples.segMixed] 0 = Throw ConfigurationError
  ∧ calculate [Examples.segMixed] 1 = Throw ConfigurationError.
Proof. vm_compute. split_and!; qc_eq. Qed.

(** C5, amended: an interpolator over a single segment from 0 to 1
    returns the start of its output range at progress 0 and the end at
    progress 1, for plain numbers and for magnitudes that carry one
    unit, when the segment has no easing function or one that maps 0 to
    0 and 1 to 1. *)
Theorem calculate_endpoints (s : Segment) :
  inputRange s = {| from := 0; to := 1 |} →
  sameUnits (outputRange s) →
  ease (easing s) 0 = 0 →
  ease (easing s) 1 = 1 →
  calculate [s] 0 = Ok (startOf (outputRange s))
  ∧ calculate [s] 1 = Ok (endOf (outputRange s)).
Proof.
  intros Hin Hunits H0 H1. rewrite !calculate_unit, H0, H1 by done.
  unfold interpolate, startOf, endOf, valueOf. revert Hunits.
  destruct (outputRange s) as [r|a b]; cbn [sameUnits]; intros Hunits.
  - by rewrite lerp_0, lerp_1.
  - case_decide; [|done]. rewrite lerp_0, lerp_1. by rewrite Hunits.
Qed.

Lemma calculate_endpoints_witness :
  calculate [Examples.segPx] 0 = Ok (VUnit (frac 10 1) "px")
  ∧ calculate [Examples.segPx] 1 = Ok (VUnit (frac 20 1) "px").
Proof.
  apply (calculate_endpoints Examples.segPx); reflexivity.
Defined.

(** The model against the worked examples of the spec (section 8): the
    unit round trip, extrapolation below the only segment, the value at
    the joint of two segments, and the error on mismatched units. *)
Lemma calculate_examples :
  calculate [Examples.segPx] (frac 1 2) = Ok (VUnit (frac 15 1) "px")
  ∧ calculate [Examples.segX] (frac (-2) 10) = Ok (VNum (frac (-100) 1))
  ∧ calculate Examples.twoSegments (frac 1 2) = Ok (VNum (frac 100 1))
  ∧ calculate Examples.twoSegments (frac 3 4) = Ok (VNum (frac 200 1))
  ∧ calculate [Examples.segMixed] (frac 1 2) = Throw ConfigurationError.
Proof. vm_compute. split_and!; qc_eq. Qed.

End InterpolateProofs.

(** * Further properties *)

(** ** DomWatcher: listeners *)

Module DomWatcherPageProofs.
Section World.

Import DomWatcher DomWatcherPage.

Context {World : Type}.
Implicit Types (w : World) (p : page World) (this : t World)
  (e : entry World) (es : list (entry World))
  (c : DomWatcherConfig World) (cs : list (DomWatcherConfig World)).

(** *** Lists *)

Lemma filter_none {A} (P : A → Prop) `{!∀ x, Decision (P x)} (l : list A) :
  Forall (λ x, ¬ P x) l → filter P l = [].
Proof.
  induction 1 as [|x l Hx _ IH]; [done|]. by rewrite filter_cons_False.
Qed.

Lemma filter_all {A} (P : A → Prop) `{!∀ x, Decision (P x)} (l : list A) :
  Forall P l → filter P l = l.
Proof.
  induction 1 as [|x l Hx _ IH]; [done|].
  rewrite filter_cons_True; [|done]. by f_equal.
Qed.

Lemma filter_ext_in {A} (P Q : A → Prop) `{!∀ x, Decision (P x)}
    `{!∀ x, Decision (Q x)} (l : list A) :
  Forall (λ x, P x ↔ Q x) l → filter P l = filter Q l.
Proof.
  induction 1 as [|x l Hx _ IH]; [done|].
  rewrite !filter_cons, IH.
  destruct (decide (P x)), (decide (Q x)); tauto.
Qed.

(** *** Whose remover was called *)

Lemma live_said p (pc : pageCall World) :
  live (calls (said p pc)) = hear (live (calls p)) pc.
Proof. unfold live, said. cbn [calls]. by rewrite foldl_snoc. Qed.

Lemma live_callRemover p e :
  live (calls (callRemover p e)) =
    filter (λ l, Some l ≠ remover e) (live (calls p)).
Proof.
  unfold callRemover. destruct (remover e) as [l|].
  - rewrite live_said. cbn [hear]. apply list_filter_iff. intros l'.
    split; [congruence|]. intros H ->. by apply H.
  - induction (live (calls p)) as [|l' ls IH]; [done|].
    rewrite filter_cons_True; [|done]. by f_equal.
Qed.

Lemma created_callRemover p e : created (callRemover p e) = created p.
Proof. unfold callRemover. by destruct (remover e). Qed.

Lemma elem_of_removers this l :
  l ∈ removers this ↔ ∃ e, e ∈ watcherConfigs this ∧ remover e = Some l.
Proof. unfold removers. by rewrite list_elem_of_omap. Qed.

Lemma foldl_callRemover_live es p :
  live (calls (foldl callRemover p es)) =
    filter (λ l, l ∉ omap remover es) (live (calls p)).
Proof.
  revert p. induction es as [|e es IH]; intros p.
  - simpl. induction (live (calls p)) as [|l ls IHl]; [done|].
    rewrite filter_cons_True; [by f_equal|]. apply not_elem_of_nil.
  - cbn [foldl]. rewrite IH, live_callRemover, list_filter_filter.
    apply list_filter_iff. intros l. simpl.
    destruct (remover e) as [l'|]; simpl.
    + rewrite not_elem_of_cons. split.
      * intros [H1 H2]. split; [congruence|done].
      * intros [H1 H2]. split; [done|congruence].
    + split; [by intros [? _]|]. by intros ?.
Qed.

Lemma foldl_callRemover_created es p :
  created (foldl callRemover p es) = created p.
Proof.
  revert p. induction es as [|e es IH]; intros p; [done|].
  cbn [foldl]. by rewrite IH, created_callRemover.
Qed.

(** *** What is attached *)

Lemma attached_said p (pc : pageCall World) :
  attached (calls (said p pc)) = attach (attached (calls p)) pc.
Proof. unfold attached, said. cbn [calls]. by rewrite foldl_snoc. Qed.

Lemma attached_callRemover p e :
  attached (calls (callRemover p e)) =
    filter (λ x, takenBy e x = false) (attached (calls p)).
Proof.
  unfold callRemover, takenBy. destruct (remover e) as [l|].
  - by rewrite attached_said.
  - symmetry. apply filter_all. by apply Forall_forall.
Qed.

Lemma attached_removeAll p es :
  attached (calls (foldl callRemover p es)) =
    filter (λ x, Forall (λ e, takenBy e x = false) es) (attached (calls p)).
Proof.
  revert p. induction es as [|e es IH]; intros p.
  - symmetry. apply filter_all. apply Forall_forall. by intros x _.
  - cbn [foldl]. rewrite IH, attached_callRemover, list_filter_filter.
    apply list_filter_iff. intros x. rewrite Forall_cons.
    split; intros [? ?]; by split.
Qed.

(** What the remover of a config names is what its registration named,
    the options apart. *)
Lemma removalOf_registrationOf c :
  match registrationOf c with
  | AddEventListener element on _ =>
      removalOf c = RemoveEventListener element on
  | SmartResize _ => removalOf c = SmartResizeRemover
  end.
Proof. unfold registrationOf, removalOf. by case_decide. Qed.

(** *** [add], many times *)

Lemma attachedBy_without_capture cs (l : nat) :
  Forall (λ c, capture (default noOptions (eventOptions c)) = false) cs →
  filter (λ x, capture (optionsOf x.1.2) = true) (attachedBy l cs) = [].
Proof.
  intros Hcs. revert l. induction Hcs as [|c cs Hc _ IH]; intros l; [done|].
  cbn [attachedBy]. rewrite filter_app, IH, app_nil_r.
  unfold registrationOf. case_decide; [done|].
  rewrite filter_cons_False; [done|]. cbn [fst snd optionsOf].
  by rewrite Hc.
Qed.

(** *** The same object, added again *)

Lemma zip_with_keep (f : nat → entry World → entry World) (os : list nat) es :
  length os = length es →
  (∀ o e, o ∈ os → f o e = e) →
  zip_with f os es = es.
Proof.
  revert es. induction os as [|o os IH]; intros [|e es] Hlen Hf; try done.
  cbn [zip_with]. f_equal.
  - apply Hf. by left.
  - apply IH; [by injection Hlen|]. intros o' e' Ho'. apply Hf. by right.
Qed.

Lemma zip_with_twice (f g : nat → entry World → entry World) (os : list nat) es :
  zip_with f os (zip_with g os es) = zip_with (λ o e, f o (g o e)) os es.
Proof.
  revert es. induction os as [|o os IH]; intros [|e es]; try done.
  cbn [zip_with]. by rewrite IH.
Qed.

(** [add] is [addObject] for an object the watcher does not hold. *)
Lemma addObject_fresh this (os : list nat) (o : nat) c p :
  o ∉ os → length os = length (watcherConfigs this) →
  addObject this os o c p = ((add this c p).1, os ++ [o], (add this c p).2).
Proof.
  intros Ho Hlen. unfold addObject, add. cbn [fst snd].
  rewrite zip_with_keep; [done|done|].
  intros o' e Ho'. unfold restored. case_decide; [|done]. by subst o'.
Qed.

Lemma addObjects_attached (adds : list (nat * DomWatcherConfig World)) this
    (os : list nat) p :
  attached (calls (addObjects this os adds p).2) =
    attached (calls p) ++ attachedBy (created p) adds.*2.
Proof.
  revert this os p. induction adds as [|[o c] adds IH]; intros this os p.
  - simpl. by rewrite app_nil_r.
  - cbn [addObjects addObject]. cbv zeta. rewrite IH, attached_said.
    csimpl. cbn [created said calls]. rewrite (assoc_L (++)). f_equal.
    unfold attach. by destruct (registrationOf c); rewrite ?app_nil_r.
Qed.

Lemma relatest_cons (adds : list (nat * DomWatcherConfig World)) (l o o' : nat)
    c e :
  relatest adds (S l) o' (restored o c l o' e) = relatest ((o, c) :: adds) l o' e.
Proof.
  unfold relatest, restored. cbn [latest].
  destruct (latest o' (S l) adds) as [[l' c']|]; [done|].
  by repeat case_decide; subst.
Qed.

(** What the watcher holds after the calls [adds]. *)
Lemma addObjects_entries (adds : list (nat * DomWatcherConfig World)) this
    (os : list nat) p :
  length os = length (watcherConfigs this) →
  watcherConfigs (addObjects this os adds p).1.1 =
    zip_with (relatest adds (created p)) os (watcherConfigs this)
      ++ entriesForObjects (created p) adds.
Proof.
  revert this os p. induction adds as [|[o c] adds IH]; intros this os p Hlen.
  - simpl. rewrite app_nil_r. symmetry. by apply zip_with_keep.
  - cbn [addObjects addObject]. cbv zeta. rewrite IH.
    + cbn [watcherConfigs created said entriesForObjects].
      rewrite zip_with_app by (by rewrite length_zip_with_l_eq).
      rewrite zip_with_twice. cbn [zip_with]. rewrite <-(assoc_L (++)).
      f_equal. apply zip_with_ext; [|done..].
      intros o' e. apply relatest_cons.
    + cbn [watcherConfigs]. rewrite !length_app, length_zip_with_l_eq by done.
      by rewrite Hlen.
Qed.

Lemma latest_from (adds : list (nat * DomWatcherConfig World)) (o l l' : nat) c' :
  latest o l adds = Some (l', c') → (l ≤ l')%nat.
Proof.
  revert l. induction adds as [|[o0 c0] adds IH]; intros l; [done|].
  cbn [latest]. destruct (latest o (S l) adds) as [[l1 c1]|] eqn:Hl.
  - intros [= <- <-]. apply IH in Hl. lia.
  - case_decide; [|done]. by intros [= <- <-].
Qed.

Lemma latest_None (adds : list (nat * DomWatcherConfig World)) (o l : nat) :
  latest o l adds = None ↔ o ∉ adds.*1.
Proof.
  revert l. induction adds as [|[o0 c0] adds IH]; intros l.
  - split; [intros _; apply not_elem_of_nil|done].
  - cbn [latest]. csimpl. rewrite not_elem_of_cons, <-(IH (S l)).
    destruct (latest o (S l) adds) as [r|].
    + split; [done|]. by intros [_ ?].
    + case_decide; subst; split; try done. by intros [? _].
Qed.

(** The entry of the last call for an object is among the entries. *)
Lemma latest_entry (adds : list (nat * DomWatcherConfig World)) (o l l' : nat) c' :
  latest o l adds = Some (l', c') →
  {| config := c'; remover := Some l' |} ∈ entriesForObjects l adds.
Proof.
  revert l. induction adds as [|[o0 c0] adds IH]; intros l; [done|].
  cbn [latest entriesForObjects].
  destruct (latest o (S l) adds) as [[l1 c1]|] eqn:Hl.
  - intros [= <- <-]. right. by apply IH.
  - case_decide as Ho; [|done]. intros [= <- <-]. subst o0.
    apply elem_of_cons. left. unfold relatest. by rewrite Hl.
Qed.

Lemma entriesForObjects_removers (adds : list (nat * DomWatcherConfig World))
    (l : nat) e :
  e ∈ entriesForObjects l adds → ∃ l', remover e = Some l' ∧ (l ≤ l')%nat.
Proof.
  revert l. induction adds as [|[o c] adds IH]; intros l;
    [by intros ?%elem_of_nil|].
  cbn [entriesForObjects]. intros [->|He]%elem_of_cons.
  - unfold relatest.
    destruct (latest o (S l) adds) as [[l' c']|] eqn:Hl; cbn [remover].
    + exists l'. split; [done|]. apply latest_from in Hl. lia.
    + by exists l.
  - apply IH in He as (l' & Hl' & Hle). exists l'. split; [done|lia].
Qed.

Lemma takenBy_remover e (x : nat * registration * Function World) :
  takenBy e x = true → remover e = Some x.1.1.
Proof.
  unfold takenBy, removedBy. destruct (remover e) as [l|]; [|done].
  destruct (removalOf (config e)) as [|element on]; [done|].
  destruct (x.1.2) as [|element' on' options]; [done|].
  rewrite !andb_true_iff, bool_decide_eq_true. by intros [[[-> _] _] _].
Qed.

(** Of what the calls [adds] attached, the removers that the watcher
    holds in the end take away the listeners of the last call for each
    object, unless they were registered with [capture]. *)
Lemma staying_filter (adds : list (nat * DomWatcherConfig World)) (l : nat) es :
  (∀ e, e ∈ entriesForObjects l adds → e ∈ es) →
  (∀ e (l' : nat), e ∈ es → remover e = Some l' → (l ≤ l')%nat →
     e ∈ entriesForObjects l adds) →
  filter (λ x, Forall (λ e, takenBy e x = false) es) (attachedBy l adds.*2)
  = staying l adds.
Proof.
  revert l. induction adds as [|[o c] adds IH]; intros l Hin Hfrom; [done|].
  csimpl. cbn [attachedBy staying entriesForObjects] in *.
  rewrite filter_app. f_equal.
  - pose proof (removalOf_registrationOf c) as Hr.
    destruct (registrationOf c) as [|element on options]; [done|].
    destruct (capture options || bool_decide (o ∈ adds.*1)) eqn:Hstay.
    + rewrite filter_cons_True; [done|]. apply Forall_forall. intros e He.
      destruct (takenBy e _) eqn:Htaken; [exfalso|done].
      pose proof (takenBy_remover _ _ Htaken) as Hl. cbn [fst] in Hl.
      apply orb_true_iff in Hstay as [Hcapture|Hlater].
      * unfold takenBy, removedBy in Htaken. rewrite Hl in Htaken.
        destruct (removalOf (config e)); [done|]. cbn [fst snd] in Htaken.
        rewrite Hcapture, andb_false_r in Htaken. done.
      * apply bool_decide_eq_true in Hlater.
        assert (l ≤ l)%nat as Hll by lia.
        pose proof (Hfrom e l He Hl Hll) as Hfrom'.
        apply elem_of_cons in Hfrom' as [->|Htail].
        -- unfold relatest in Hl.
           destruct (latest o (S l) adds) as [[l' c']|] eqn:Hlatest.
           ++ cbn [remover] in Hl. apply latest_from in Hlatest.
              injection Hl as ->. lia.
           ++ by apply latest_None in Hlatest.
        -- apply entriesForObjects_removers in Htail as (l' & Hl' & Hlt).
           rewrite Hl in Hl'. injection Hl' as <-. lia.
    + apply orb_false_iff in Hstay as [Hcapture Hlater].
      apply bool_decide_eq_false in Hlater. apply latest_None with (l := S l) in Hlater.
      rewrite filter_cons_False; [done|]. intros Hall.
      rewrite Forall_forall in Hall.
      specialize (Hall {| config := c; remover := Some l |}).
      assert (takenBy {| config := c; remover := Some l |}
                (l, AddEventListener element on options, listener c) = false)
        as Htaken.
      { apply Hall, Hin, elem_of_cons. left. unfold relatest.
        by rewrite Hlater. }
      unfold takenBy, removedBy in Htaken. cbn [remover config fst snd] in Htaken.
      rewrite Hr, !bool_decide_eq_true_2, Hcapture in Htaken by done. done.
  - apply IH.
    + intros e He. apply Hin, elem_of_cons. by right.
    + intros e l' He Hl Hle.
      assert (l ≤ l')%nat as Hle' by lia.
      pose proof (Hfrom e l' He Hl Hle') as Hfrom'.
      apply elem_of_cons in Hfrom' as [->|Htail]; [|done].
      unfold relatest in *.
      destruct (latest o (S l) adds) as [[l1 c1]|] eqn:Hlatest.
      * by apply latest_entry in Hlatest.
      * cbn [remover] in Hl. injection Hl as <-. lia.
Qed.

(** Objects that are added once each: nothing is added again. *)
Lemma staying_NoDup (adds : list (nat * DomWatcherConfig World)) (l : nat) :
  NoDup adds.*1 →
  staying l adds
  = filter (λ x, capture (optionsOf x.1.2) = true) (attachedBy l adds.*2).
Proof.
  revert l. induction adds as [|[o c] adds IH]; intros l Hnd; [done|].
  csimpl in *. apply NoDup_cons in Hnd as [Ho Hnd].
  cbn [staying attachedBy]. rewrite filter_app, <-IH by done. f_equal.
  destruct (registrationOf c) as [|element on options]; [done|].
  rewrite (bool_decide_eq_false_2 (o ∈ adds.*1)) by done.
  rewrite orb_false_r, filter_cons. cbn [fst snd optionsOf].
  by destruct (capture options).
Qed.

Lemma addObjects_NoDup (adds : list (nat * DomWatcherConfig World)) this
    (os : list nat) p :
  NoDup (os ++ adds.*1) → length os = length (watcherConfigs this) →
  addObjects this os adds p
  = ((addAll this adds.*2 p).1, os ++ adds.*1, (addAll this adds.*2 p).2).
Proof.
  revert this os p. induction adds as [|[o c] adds IH]; intros this os p Hnd Hlen.
  - simpl. by rewrite app_nil_r.
  - rewrite !fmap_cons in *. cbn [fst snd addObjects addAll] in *.
    apply NoDup_app in Hnd as (Hos & Hdisjoint & Hadds).
    rewrite addObject_fresh; [|intros Ho; apply (Hdisjoint o Ho); by left|done].
    destruct (add this c p) as [this1 p1] eqn:Hadd. cbn [fst snd].
    rewrite IH.
    + by rewrite <-(assoc_L (++)).
    + rewrite <-(assoc_L (++)). apply NoDup_app. split_and!; [done| |done].
      intros o' Ho'. by apply Hdisjoint.
    + unfold add in Hadd. injection Hadd as <- <-.
      cbn [watcherConfigs]. rewrite !length_app. simpl. lia.
Qed.

(** X5: what [dispose] undoes of the [add] calls of a watcher. Every
    call of [add] attaches a listener of its own. [dispose] calls the
    removers the watcher holds in the end, and the page is left with the
    listeners it had before and, after them, those listeners of the
    watcher that no remover takes away: the ones registered with
    [capture], because the remover calls
    [removeEventListener(on, listener)] without the options, which does
    not name a capturing listener; and the ones of a config object that
    was added again later, because [add] stored the remover of the later
    listener on the object, in the place of theirs. The watcher holds no
    config to remove them with. When every call was for a config object
    of its own, the calls are those of [add], and only the capturing
    listeners stay; when also none asked for [capture], the page has the
    listeners it had before. *)
Theorem dispose_undoes_adds (adds : list (nat * DomWatcherConfig World)) p :
  fresh p →
  let added := addObjects new [] adds p in
  let disposed := dispose added.1.1 added.2 in
  attached (calls added.2) = attached (calls p) ++ attachedBy (created p) adds.*2
  ∧ attached (calls disposed.2) = attached (calls p) ++ staying (created p) adds
  ∧ watcherConfigs disposed.1 = []
  ∧ (NoDup adds.*1 →
       added = ((addAll new adds.*2 p).1, adds.*1, (addAll new adds.*2 p).2)
       ∧ attached (calls disposed.2)
         = attached (calls p)
             ++ filter (λ x, capture (optionsOf x.1.2) = true)
                  (attachedBy (created p) adds.*2)
       ∧ (Forall (λ c, capture (default noOptions (eventOptions c)) = false)
            adds.*2 →
          attached (calls disposed.2) = attached (calls p))).
Proof.
  intros Hfresh added disposed.
  assert (attached (calls disposed.2)
          = attached (calls p) ++ staying (created p) adds) as Hdisposed.
  { unfold disposed, dispose, removeAll, added. cbn [snd].
    rewrite addObjects_entries by done. cbn [new watcherConfigs zip_with app].
    rewrite attached_removeAll, addObjects_attached, filter_app.
    f_equal; [|by apply staying_filter].
    apply filter_all. eapply Forall_impl; [exact Hfresh|].
    intros x Hx. apply Forall_forall. intros e He.
    destruct (takenBy e x) eqn:Htaken; [exfalso|done].
    apply takenBy_remover in Htaken.
    apply entriesForObjects_removers in He as (l' & Hl' & Hle).
    rewrite Htaken in Hl'. injection Hl' as <-. simpl in Hx. lia. }
  split; [apply addObjects_attached|]. split; [exact Hdisposed|].
  split; [done|]. intros Hnd.
  assert (attached (calls disposed.2)
          = attached (calls p)
              ++ filter (λ x, capture (optionsOf x.1.2) = true)
                   (attachedBy (created p) adds.*2)) as Hcapture
    by (by rewrite Hdisposed, staying_NoDup).
  split; [by apply (addObjects_NoDup adds new [] p)|].
  split; [exact Hcapture|]. intros Hcs.
  by rewrite Hcapture, attachedBy_without_capture, app_nil_r.
Qed.

(** *** [removeAll] *)

Lemma run_no_match (plainThis : DomWatcher.t World) (id_ : string) w :
  Forall (λ c, idMatches c id_ = false) (DomWatcher.watcherConfigs plainThis) →
  DomWatcher.run plainThis id_ w = (w, [], Ok ()).
Proof.
  intros Hno. unfold DomWatcher.run. rewrite filter_none; [done|].
  apply Forall_forall. intros [i c] Hin Hm.
  apply DomWatcherProofs.indexed_lookup in Hin.
  apply list_elem_of_lookup_2 in Hin.
  rewrite Forall_forall in Hno. apply Hno in Hin. simpl in Hm.
  rewrite Hin in Hm. done.
Qed.

(** X6: [removeAll] calls the remover of every config it holds and forgets
    them all: of the listeners on the page exactly those of other origin
    stay, in their order; afterwards [run] calls nothing, whatever the id,
    and a second [removeAll] (or [dispose]) asks nothing of the page. *)
Theorem removeAll_forgets this p :
  let r := removeAll this p in
  watcherConfigs r.1 = []
  ∧ live (calls r.2) = filter (λ l, l ∉ removers this) (live (calls p))
  ∧ created r.2 = created p
  ∧ (∀ id_ w, run r.1 id_ w = (w, [], Ok ()))
  ∧ removeAll r.1 r.2 = r
  ∧ dispose r.1 r.2 = r.
Proof.
  split_and!; try done.
  - apply foldl_callRemover_live.
  - apply foldl_callRemover_created.
Qed.

(** *** [removeById] *)

Lemma removeMatching_kept es (id_ : string) p :
  (removeMatching es id_ p).1 = filter (λ e, ¬ idMatches (config e) id_) es.
Proof.
  revert p. induction es as [|e es IH]; intros p; [done|].
  cbn [removeMatching]. destruct (idMatches (config e) id_) eqn:Hm.
  - rewrite IH, filter_cons_False; [done|]. rewrite Hm. intros H. by apply H.
  - specialize (IH p). destruct (removeMatching es id_ p) as [kept p'].
    cbn [fst] in *. rewrite filter_cons_True; [by f_equal|].
    by apply Is_true_false.
Qed.

Lemma removeMatching_page es (id_ : string) p :
  (removeMatching es id_ p).2 =
    foldl callRemover p (filter (λ e, idMatches (config e) id_) es).
Proof.
  revert p. induction es as [|e es IH]; intros p; [done|].
  cbn [removeMatching]. destruct (idMatches (config e) id_) eqn:Hm.
  - rewrite IH, filter_cons_True; [done|]. by apply Is_true_true.
  - specialize (IH p). destruct (removeMatching es id_ p) as [kept p'].
    cbn [snd] in *. rewrite filter_cons_False; [done|].
    by apply Is_true_false.
Qed.

Lemma removeById_unfold this (id_ : string) p :
  removeById this id_ p =
    ({| watcherConfigs := (removeMatching (watcherConfigs this) id_ p).1 |},
     (removeMatching (watcherConfigs this) id_ p).2).
Proof. unfold removeById. by destruct (removeMatching _ id_ p). Qed.

(** X7: [removeById(id)] splits the configs of a watcher in two: those
    whose id is the argument (and not the empty string) have their
    remover called, in their order, and are forgotten, exactly as
    [removeAll] would do for them alone; the others stay, in their order,
    and so do their listeners. *)
Theorem removeById_splits this (id_ : string) p :
  let r := removeById this id_ p in
  let gone := filter (λ e, idMatches (config e) id_) (watcherConfigs this) in
  watcherConfigs r.1 =
    filter (λ e, ¬ idMatches (config e) id_) (watcherConfigs this)
  ∧ r.2 = (removeAll {| watcherConfigs := gone |} p).2
  ∧ live (calls r.2) =
      filter (λ l, l ∉ omap remover gone) (live (calls p))
  ∧ ∀ e, e ∈ watcherConfigs r.1 ↔
      e ∈ watcherConfigs this
      ∧ ¬ (id (config e) = Some id_ ∧ id_ ≠ "").
Proof.
  intros r gone. unfold r. rewrite removeById_unfold. cbn [fst snd watcherConfigs].
  rewrite removeMatching_kept, removeMatching_page. split_and!; try done.
  - apply foldl_callRemover_live.
  - intros e. rewrite list_elem_of_filter.
    rewrite <-DomWatcherProofs.idMatches_spec, Is_true_true. tauto.
Qed.

(** *** [run] after a removal *)

Lemma callTwiceIfTruthy_forget_index i j c w :
  (callTwiceIfTruthy i c w).1.1 = (callTwiceIfTruthy j c w).1.1
  ∧ (callTwiceIfTruthy i c w).1.2.*2 = (callTwiceIfTruthy j c w).1.2.*2
  ∧ (callTwiceIfTruthy i c w).2 = (callTwiceIfTruthy j c w).2.
Proof.
  unfold callTwiceIfTruthy.
  destruct (callback c w) as [w1 [[|]|e]]; [destruct (callback c w1)| |]; done.
Qed.

Lemma forEach_forget_index (ics ics' : list (nat * DomWatcherConfig World)) w :
  ics.*2 = ics'.*2 →
  (forEach ics w).1.1 = (forEach ics' w).1.1
  ∧ (forEach ics w).1.2.*2 = (forEach ics' w).1.2.*2
  ∧ (forEach ics w).2 = (forEach ics' w).2.
Proof.
  revert ics' w. induction ics as [|[i c] ics IH]; intros [|[j c'] ics'] w Heq;
    try done.
  csimpl in Heq. injection Heq as -> Heq.
  rewrite !DomWatcherProofs.forEach_cons.
  destruct (callTwiceIfTruthy_forget_index i j c' w) as (Hw & Htr & Hc).
  rewrite <-Hc, <-Hw.
  destruct ((callTwiceIfTruthy i c' w).2) as [[]|e]; cbn [fst snd]; [|done].
  destruct (IH ics' (callTwiceIfTruthy i c' w).1.1 Heq) as (Hw2 & Htr2 & Hc2).
  by rewrite !fmap_app, Htr, Htr2.
Qed.

Lemma filter_imap_snd cs (f : nat → nat) (id_ : string) :
  (filter (λ ic : nat * DomWatcherConfig World, idMatches ic.2 id_)
     (imap (λ i c, (f i, c)) cs)).*2 = filter (λ c, idMatches c id_) cs.
Proof.
  revert f. induction cs as [|c cs IH]; intros f; [done|].
  rewrite imap_cons, !filter_cons. cbn [snd].
  destruct (decide (idMatches c id_)); csimpl; [f_equal|]; apply (IH (f ∘ S)).
Qed.

(** What [run] does to the page, what the callbacks returned and how the
    run ended depend only on the configs that match, in their order. *)
Lemma run_forget_index (a b : DomWatcher.t World) (id_ : string) w :
  filter (λ c, idMatches c id_) (DomWatcher.watcherConfigs a)
    = filter (λ c, idMatches c id_) (DomWatcher.watcherConfigs b) →
  (DomWatcher.run a id_ w).1.1 = (DomWatcher.run b id_ w).1.1
  ∧ (DomWatcher.run a id_ w).1.2.*2 = (DomWatcher.run b id_ w).1.2.*2
  ∧ (DomWatcher.run a id_ w).2 = (DomWatcher.run b id_ w).2.
Proof.
  intros Heq. unfold DomWatcher.run. apply forEach_forget_index.
  unfold indexed.
  by rewrite !(filter_imap_snd _ (λ i, i)).
Qed.

Lemma filter_map_config (P : DomWatcherConfig World → Prop)
    `{!∀ c, Decision (P c)} es :
  filter P (map config es) = map config (filter (λ e, P (config e)) es).
Proof.
  induction es as [|e es IH]; [done|].
  cbn [map]. rewrite !filter_cons. destruct (decide (P (config e))); csimpl;
    by rewrite IH.
Qed.

(** X8: after [removeById(id)], [run(id)] calls nothing, while [run] with
    any other id does to the page what it did before, gets the same
    answers from the callbacks and ends in the same way. *)
Theorem removeById_then_run this (id_ : string) p :
  let r := removeById this id_ p in
  (∀ w, run r.1 id_ w = (w, [], Ok ()))
  ∧ (∀ other w, other ≠ id_ →
       (run r.1 other w).1.1 = (run this other w).1.1
       ∧ (run r.1 other w).1.2.*2 = (run this other w).1.2.*2
       ∧ (run r.1 other w).2 = (run this other w).2).
Proof.
  intros r. unfold r. rewrite removeById_unfold. cbn [fst].
  rewrite removeMatching_kept. split.
  - intros w. apply run_no_match. cbn [plain watcherConfigs DomWatcher.watcherConfigs].
    apply Forall_forall. intros c (e & -> & He)%list_elem_of_fmap.
    apply list_elem_of_filter in He as [He _]. by apply Is_true_false.
  - intros other w Hne. apply run_forget_index.
    cbn [plain watcherConfigs DomWatcher.watcherConfigs].
    rewrite !filter_map_config. f_equal.
    apply list_filter_filter_l. intros e Hm Hm'.
    apply Is_true_true, DomWatcherProofs.idMatches_spec in Hm as [Hm _].
    apply Is_true_true, DomWatcherProofs.idMatches_spec in Hm' as [Hm' _].
    congruence.
Qed.

(** X9: [removeById] with an id no config matches changes nothing and
    calls no remover; the empty string is such an id for every watcher,
    even one that holds configs whose id is the empty string. *)
Theorem removeById_no_match this p :
  removeById this "" p = (this, p)
  ∧ ∀ id_ : string,
      Forall (λ e, id (config e) ≠ Some id_) (watcherConfigs this) →
      removeById this id_ p = (this, p).
Proof.
  assert (∀ id_ : string,
            Forall (λ e, idMatches (config e) id_ = false) (watcherConfigs this) →
            removeById this id_ p = (this, p)) as Hgen.
  { intros id_ Hno. rewrite removeById_unfold.
    rewrite removeMatching_kept, removeMatching_page.
    rewrite filter_all, filter_none.
    - by destruct this.
    - eapply Forall_impl; [exact Hno|]. intros e He. by apply Is_true_false.
    - eapply Forall_impl; [exact Hno|]. intros e He. by apply Is_true_false. }
  split.
  - apply Hgen. apply Forall_forall. intros e _.
    destruct (idMatches (config e) "") eqn:Hm; [|done].
    by apply DomWatcherProofs.idMatches_spec in Hm as [_ ?].
  - intros id_ Hno. apply Hgen. eapply Forall_impl; [exact Hno|].
    intros e He. destruct (idMatches (config e) id_) eqn:Hm; [|done].
    by apply DomWatcherProofs.idMatches_spec in Hm as [? _].
Qed.

(** *** [run] and [runWhen] *)

Lemma run_map_withoutRunWhen cs (f : nat → nat) (id_ : string) w :
  forEach (filter (λ ic, idMatches ic.2 id_)
             (imap (λ i c, (f i, c)) (map withoutRunWhen cs))) w
  = forEach (filter (λ ic, idMatches ic.2 id_)
               (imap (λ i c, (f i, c)) cs)) w.
Proof.
  revert f w. induction cs as [|c cs IH]; intros f w; [done|].
  cbn [map]. rewrite !imap_cons, !filter_cons. cbn [snd].
  change (idMatches (withoutRunWhen c) id_) with (idMatches c id_).
  destruct (decide (idMatches c id_)); [|apply (IH (f ∘ S))].
  cbn [forEach].
  change (callTwiceIfTruthy (f 0%nat) (withoutRunWhen c) w)
    with (callTwiceIfTruthy (f 0%nat) c w).
  destruct (callTwiceIfTruthy (f 0%nat) c w) as [[w1 tr1] [[]|e]]; [|done].
  by rewrite (IH (f ∘ S)).
Qed.

(** X10: [run] is a dry run of the callbacks alone: it never consults
    [runWhen], so a watcher whose configs have their conditions taken away
    runs exactly alike. *)
Theorem run_ignores_runWhen (plainThis : DomWatcher.t World) (id_ : string) w :
  DomWatcher.run
    {| DomWatcher.watcherConfigs :=
         map withoutRunWhen (DomWatcher.watcherConfigs plainThis) |} id_ w
  = DomWatcher.run plainThis id_ w.
Proof.
  unfold DomWatcher.run, indexed. cbn [DomWatcher.watcherConfigs].
  apply (run_map_withoutRunWhen _ (λ i, i)).
Qed.

End World.

Import DomWatcher DomWatcherPage Examples MoreExamples.

Lemma dispose_undoes_adds_witness :
  fresh emptyPage
  ∧ attached
      (calls
         (addObjects new [] [(0%nat, yo); (1%nat, capturing); (0%nat, yo)]
            emptyPage).2)
    = attachedBy 0 [yo; capturing; yo]
  ∧ attached
      (calls
         (dispose
            (addObjects new [] [(0%nat, yo); (1%nat, capturing); (0%nat, yo)]
               emptyPage).1.1
            (addObjects new [] [(0%nat, yo); (1%nat, capturing); (0%nat, yo)]
               emptyPage).2).2)
    = [(0%nat, AddEventListener Window "click" noOptions, listener yo);
       (1%nat,
        AddEventListener Window "click"
          {| capture := true; once := false; passive := false |},
        listener capturing)].
Proof.
  assert (fresh emptyPage) as Hfresh by constructor.
  split; [exact Hfresh|].
  destruct (dispose_undoes_adds
              [(0%nat, yo); (1%nat, capturing); (0%nat, yo)] emptyPage Hfresh)
    as (H1 & H2 & _).
  split; [exact H1|]. etrans; [exact H2|]. reflexivity.
Defined.

End DomWatcherPageProofs.

(** ** CssVarInterpolate: further behaviour *)

Module CssVarInterpolateMore.

Import dom CssVarInterpolate CssVarInterpolateProofs.

Lemma writeAll_config (todo : Object) (this : t) :
  config (this' (writeAll this todo)) = config this.
Proof.
  revert this. induction todo as [|[k v] todo IH]; intros this; simpl; [done|].
  destruct (element this) as [el|]; simpl; [|done].
  apply (IH (set_element this _)).
Qed.

Lemma obj_get_None (o : Object) (k : string) :
  obj_get o k = None → k ∉ o.*1.
Proof.
  induction o as [|[k' v'] o IH]; simpl; [intros _; apply not_elem_of_nil|].
  case_decide as Hk; [done|]. intros H. csimpl.
  apply not_elem_of_cons. split; [congruence|by apply IH].
Qed.

(** X1: when [calculate] throws, [update] throws the same error having
    written nothing: the element and [currentValues] are as before. The
    field [mainProgress], assigned before the call, already holds the new
    child progress. *)
Theorem update_calculate_throws (this : t) (p : num) (e : error) :
  looseEq p (mainProgress this) = false →
  MultiInterpolate.calculate (multiInterpolate this)
    (childProgress p (startProgress this) (endProgress this)) = Throw e →
  let r := update this p in
  completion r = Throw e
  ∧ written (effects r) = []
  ∧ element (this' r) = element this
  ∧ currentValues (this' r) = currentValues this
  ∧ mainProgress (this' r) =
      Some (childProgress p (startProgress this) (endProgress this)).
Proof.
  intros Hacc Hthrow r. unfold r.
  rewrite update_accepted; [|done]. cbv zeta. by rewrite Hthrow.
Qed.

Lemma update_calculate_throws_witness :
  let r := update MoreExamples.binderMixed (frac 1 2) in
  completion r = Throw ConfigurationError
  ∧ element (this' r) = Some Examples.ball
  ∧ mainProgress (this' r) = Some (frac 1 2).
Proof.
  intros r.
  destruct (update_calculate_throws MoreExamples.binderMixed (frac 1 2)
              ConfigurationError eq_refl eq_refl) as (Hc & _ & Hel & _ & Hm).
  split; [exact Hc|]. split; [exact Hel|].
  etrans; [exact Hm|]. qc_eq.
Defined.

(** X2: an accepted [update] touches only the properties [calculate]
    returned: every other declaration of the element's inline style is
    what it was. *)
Theorem update_keeps_other_properties (this : t) (p : num) (el : HTMLElement)
    (values : Object) :
  looseEq p (mainProgress this) = false →
  element this = Some el →
  MultiInterpolate.calculate (multiInterpolate this)
    (childProgress p (startProgress this) (endProgress this)) = Ok values →
  ∃ el', element (this' (update this p)) = Some el'
    ∧ ∀ k, obj_get values k = None → style el' !! k = style el !! k.
Proof.
  intros Hacc Hel Hcalc.
  rewrite (update_accepted_returned this p el values); [|done..].
  cbn [this' element set_element]. eexists. split; [done|].
  intros k Hk. cbn [style]. apply styleAfter_other. by apply obj_get_None.
Qed.

Lemma update_keeps_other_properties_witness :
  let this := set_element Examples.binderX
                (Some {| style := {[ "color" := VNum 1 ]} |}) in
  ∃ el', element (this' (update this (frac 3 10))) = Some el'
    ∧ style el' !! "color" = Some (VNum 1).
Proof.
  intros this.
  assert (MultiInterpolate.calculate (multiInterpolate this)
            (childProgress (frac 3 10) (startProgress this) (endProgress this))
          = Ok [("--x", VNum (frac 150 1))]) as Hcalc
    by (vm_compute; qc_eq).
  destruct (update_keeps_other_properties this (frac 3 10) _ _
              eq_refl eq_refl Hcalc) as (el' & Hel & Hk).
  exists el'. split; [exact Hel|]. by rewrite Hk.
Defined.

(** X3: changing the range does not by itself cause a new pass: after
    [setProgressRange], an [update] with the value [mainProgress] holds is
    still culled, although its child progress in the new range may be
    another. *)
Theorem setProgressRange_keeps_cull (this : t) (start end_ p : num) :
  mainProgress this = Some p →
  let ranged := this' (setProgressRange this start end_) in
  update ranged p = {| this' := ranged; effects := []; completion := Ok () |}.
Proof. intros H ranged. by apply update_culled. Qed.

Lemma setProgressRange_keeps_cull_witness :
  let this := this' (update Examples.binderX (frac 1 2)) in
  let ranged := this' (setProgressRange this 0 (frac 1 2)) in
  mainProgress this = Some (frac 1 2)
  ∧ effects (update ranged (frac 1 2)) = []
  ∧ childProgress (frac 1 2) 0 (frac 1 2) = 1.
Proof.
  intros this ranged.
  assert (mainProgress this = Some (frac 1 2)) as Hm
    by (vm_compute; qc_eq).
  split; [exact Hm|]. split.
  - unfold ranged.
    by rewrite (setProgressRange_keeps_cull this 0 (frac 1 2) (frac 1 2) Hm).
  - by apply Qc_is_canon.
Defined.

(** X4: no call of [update], culled, completed or failed, changes the
    progress range, the configuration or the interpolator of a binder. *)
Theorem update_keeps_configuration (this : t) (p : num) :
  let r := update this p in
  startProgress (this' r) = startProgress this
  ∧ endProgress (this' r) = endProgress this
  ∧ config (this' r) = config this
  ∧ multiInterpolate (this' r) = multiInterpolate this.
Proof.
  intros r. unfold r, update.
  destruct (looseEq p (mainProgress this)); [done|]. cbv zeta.
  destruct (MultiInterpolate.calculate _ _) as [values|e]; [|done].
  cbn [this'].
  destruct (writeAll_fields values
              (set_currentValues
                 (set_mainProgress this
                    (Some (childProgress p (startProgress this) (endProgress this))))
                 values)) as (_ & _ & Hs & He & Hmi & _).
  rewrite Hs, He, Hmi, writeAll_config. done.
Qed.

End CssVarInterpolateMore.

(** ** Rounding *)

Module ieeeProofs.

Import ieee.

Local Open Scope Q_scope.

Lemma pow2_pos (e : Z) : 0 < pow2 e.
Proof. by apply Qpower_0_lt. Qed.

Lemma pow2_add (a b : Z) : pow2 (a + b) == pow2 a * pow2 b.
Proof. by apply Qpower_plus. Qed.

Lemma pow2_le (a b : Z) : (a ≤ b)%Z → pow2 a <= pow2 b.
Proof. intros H. by apply Qpower_le_compat_l. Qed.

Lemma pow2_lt_inv (a b : Z) : pow2 a < pow2 b → (a < b)%Z.
Proof. intros H. by apply (Qpower_lt_compat_l_inv 2). Qed.

Lemma pow2_Z (e : Z) : (0 ≤ e)%Z → pow2 e == inject_Z (2 ^ e).
Proof. intros H. symmetry. by apply Zpower_Qpower. Qed.

Lemma pow2_cancel (a b : Z) : pow2 a * pow2 (b - a) == pow2 b.
Proof. rewrite <- pow2_add. by replace (a + (b - a))%Z with b by lia. Qed.

(** An integer between two powers of two, as a rational. *)
Lemma log2_bounds (n : Z) :
  (0 < n)%Z →
  pow2 (Z.log2 n) <= inject_Z n ∧ inject_Z n < pow2 (Z.log2 n + 1).
Proof.
  intros Hn. destruct (Z.log2_spec n Hn) as [Hlow Hhigh].
  pose proof (Z.log2_nonneg n) as Hlog.
  rewrite !pow2_Z by lia. rewrite <- Zle_Qle, <- Zlt_Qlt. split; [done|].
  by rewrite <- Z.add_1_r in Hhigh.
Qed.

Lemma mag_spec (a : Q) : 0 < a → pow2 (mag a - 1) <= a ∧ a < pow2 (mag a).
Proof.
  intros Ha. unfold mag.
  assert (0 < Qnum a)%Z as Hn.
  { destruct a as [n d]. unfold Qlt in Ha. simpl in *. lia. }
  destruct (log2_bounds (Qnum a) Hn) as [Hn1 Hn2].
  destruct (log2_bounds (Zpos (Qden a)) eq_refl) as [Hd1 Hd2].
  set (ln := Z.log2 (Qnum a)) in *. set (ld := Z.log2 (Zpos (Qden a))) in *.
  assert (a * inject_Z (Zpos (Qden a)) == inject_Z (Qnum a)) as Ha'.
  { destruct a as [n d]. unfold Qeq. simpl. lia. }
  pose proof (pow2_cancel (ld + 1) ln) as Hlow.
  pose proof (pow2_cancel ld (ln + 1)) as Hhigh.
  pose proof (pow2_pos (ln - (ld + 1))) as Hp1.
  pose proof (pow2_pos (ln + 1 - ld)) as Hp2.
  pose proof (pow2_pos ld) as Hp3.
  assert (pow2 (ln - ld - 1) < a ∧ a < pow2 (ln - ld + 1)) as [Hlt1 Hlt2].
  { replace (ln - ld - 1)%Z with (ln - (ld + 1))%Z by lia.
    replace (ln - ld + 1)%Z with (ln + 1 - ld)%Z by lia.
    split; nra. }
  destruct (Qle_bool (pow2 (ln - ld)) a) eqn:Hle.
  - apply Qle_bool_iff in Hle.
    replace (ln - ld + 1 - 1)%Z with (ln - ld)%Z by lia. done.
  - split; [by apply Qlt_le_weak|].
    apply Qnot_le_lt. intros Hle'. apply Qle_bool_iff in Hle'. congruence.
Qed.

Lemma nearest_comp (s t : Q) : s == t → nearest s = nearest t.
Proof.
  intros H. unfold nearest. rewrite (Qfloor_comp _ _ H).
  replace (Qcompare (s - inject_Z (Qfloor t)) (1 # 2))
    with (Qcompare (t - inject_Z (Qfloor t)) (1 # 2)); [done|].
  apply Qcompare_comp; [by rewrite H|reflexivity].
Qed.

Lemma nearest_Z (k : Z) : nearest (inject_Z k) = k.
Proof.
  unfold nearest. rewrite Qfloor_Z.
  destruct (Qcompare_spec (inject_Z k - inject_Z k) (1 # 2)) as [H|H|H];
    [lra|done|lra].
Qed.

Lemma nearest_bounds (s : Q) (a b : Z) :
  inject_Z a <= s → s <= inject_Z b → (a ≤ nearest s ≤ b)%Z.
Proof.
  intros Ha Hb. unfold nearest.
  assert (a ≤ Qfloor s)%Z as Hlow.
  { rewrite <- (Qfloor_Z a). by apply Qfloor_resp_le. }
  assert (Qfloor s ≤ b)%Z as Hhigh.
  { rewrite <- (Qfloor_Z b). by apply Qfloor_resp_le. }
  assert (1 # 2 <= s - inject_Z (Qfloor s) → (Qfloor s < b)%Z) as Hhalf.
  { intros Hge. destruct (decide (Qfloor s = b)) as [Heq|]; [|lia].
    rewrite Heq in Hge. lra. }
  destruct (Qcompare_spec (s - inject_Z (Qfloor s)) (1 # 2)) as [H|H|H].
  - assert (Qfloor s < b)%Z by (apply Hhalf; lra).
    destruct (Z.even (Qfloor s)); lia.
  - lia.
  - assert (Qfloor s < b)%Z by (apply Hhalf; lra). lia.
Qed.

Lemma representable_comp (p : Z) (x y : Q) :
  x == y → representable p x → representable p y.
Proof. intros Hxy (k & e & Hx & Hk). exists k, e. by rewrite <- Hxy. Qed.

Lemma representable_opp (p : Z) (y : Q) :
  representable p y → representable p (- y).
Proof.
  intros (k & e & Hy & Hk). exists (- k)%Z, e. split; [|lia].
  rewrite Hy, inject_Z_opp. ring.
Qed.

Lemma representable_0 (p : Z) : (0 ≤ p)%Z → representable p 0.
Proof.
  intros Hp. exists 0%Z, 0%Z. split; [reflexivity|].
  by apply Z.pow_pos_nonneg.
Qed.

(** A number of [p] bits is a number of [q] bits, if [p <= q]. *)
Lemma representable_le (p q : Z) (y : Q) :
  (p ≤ q)%Z → representable p y → representable q y.
Proof.
  intros Hpq (k & e & Hy & Hk). exists k, e. split; [done|].
  assert (0 ≤ p)%Z as Hp.
  { destruct (decide (0 ≤ p)%Z) as [|Hneg]; [done|].
    rewrite Z.pow_neg_r in Hk by lia. lia. }
  pose proof (Z.pow_le_mono_r 2 p q) as Hmono. lia.
Qed.

(** Rounding leaves the numbers of [p] bits as they are. *)
Lemma round_representable (p : Z) (y : Q) :
  representable p y → round p y == y.
Proof.
  intros (k & e & Hy & Hk). unfold round.
  destruct (Qeq_bool y 0) eqn:H0.
  { apply Qeq_bool_eq in H0. by rewrite H0. }
  apply Qeq_bool_neq in H0.
  assert (0 ≤ p)%Z as Hp.
  { destruct (decide (0 ≤ p)%Z) as [|Hneg]; [done|].
    rewrite Z.pow_neg_r in Hk by lia. lia. }
  assert (Qabs y == inject_Z (Z.abs k) * pow2 e) as Ha.
  { rewrite Hy, Qabs_Qmult. rewrite (Qabs_pos (pow2 e)).
    - reflexivity.
    - apply Qlt_le_weak, pow2_pos. }
  assert (0 < Z.abs k)%Z as Hk0.
  { destruct (decide (k = 0)%Z) as [->|]; [|lia].
    exfalso. apply H0. rewrite Hy. ring. }
  pose proof (pow2_pos e) as He.
  assert (0 < Qabs y) as Hpos.
  { rewrite Ha. apply Qmult_lt_0_compat; [|done].
    by rewrite <- (Zlt_Qlt 0). }
  destruct (mag_spec (Qabs y) Hpos) as [Hm1 Hm2].
  set (m := mag (Qabs y)) in *.
  assert (m - 1 < p + e)%Z as Hj.
  { apply pow2_lt_inv. rewrite (pow2_add p e), (pow2_Z p Hp).
    apply Qle_lt_trans with (1 := Hm1). rewrite Ha.
    apply Qmult_lt_compat_r; [done|]. by rewrite <- Zlt_Qlt. }
  assert (pow2 (p + e - m) == inject_Z (2 ^ (p + e - m))) as Hpow
    by (apply pow2_Z; lia).
  assert (nearest (Qabs y * pow2 (p - m)) = (Z.abs k * 2 ^ (p + e - m))%Z)
    as ->.
  { rewrite <- (nearest_Z (Z.abs k * 2 ^ (p + e - m))).
    apply nearest_comp. rewrite Ha, inject_Z_mult, <- Hpow.
    rewrite <- (pow2_cancel e (p + e - m)).
    replace (p + e - m - e)%Z with (p - m)%Z by lia. ring. }
  assert (inject_Z (Z.abs k * 2 ^ (p + e - m)) * pow2 (m - p) == Qabs y)
    as Hback.
  { rewrite Ha, inject_Z_mult, <- Hpow.
    rewrite <- (pow2_cancel (p + e - m) e).
    replace (e - (p + e - m))%Z with (m - p)%Z by lia. ring. }
  destruct (Qle_bool 0 y) eqn:Hsign; rewrite Hback.
  - apply Qle_bool_iff in Hsign. by apply Qabs_pos.
  - assert (y <= 0) as Hneg.
    { apply Qlt_le_weak, Qnot_le_lt. intros Hle.
      apply Qle_bool_iff in Hle. congruence. }
    rewrite (Qabs_neg y Hneg). ring.
Qed.

(** What rounding gives is a number of [p] bits. *)
Lemma representable_round (p : Z) (x : Q) :
  (1 ≤ p)%Z → representable p (round p x).
Proof.
  intros Hp. unfold round.
  destruct (Qeq_bool x 0) eqn:H0; [apply representable_0; lia|].
  apply Qeq_bool_neq in H0.
  assert (0 < Qabs x) as Hpos.
  { pose proof (Qabs_nonneg x) as Hge.
    destruct (Qlt_le_dec 0 (Qabs x)) as [|Hle]; [done|].
    exfalso. apply H0. apply Qabs_Qle_condition in Hle. lra. }
  destruct (mag_spec (Qabs x) Hpos) as [Hm1 Hm2].
  set (m := mag (Qabs x)) in *.
  pose proof (pow2_pos (p - m)) as Hscale.
  pose proof (pow2_cancel (m - 1) (p - 1)) as Hlow.
  pose proof (pow2_cancel m p) as Hhigh.
  replace (p - 1 - (m - 1))%Z with (p - m)%Z in Hlow by lia.
  rewrite (pow2_Z (p - 1)) in Hlow by lia.
  rewrite (pow2_Z p) in Hhigh by lia.
  destruct (nearest_bounds (Qabs x * pow2 (p - m)) (2 ^ (p - 1)) (2 ^ p))
    as [Hk1 Hk2]; [nra|nra|].
  set (k := nearest (Qabs x * pow2 (p - m))) in *.
  assert (0 < 2 ^ (p - 1))%Z as Hpow by (apply Z.pow_pos_nonneg; lia).
  assert (2 ^ p = 2 * 2 ^ (p - 1))%Z as Hdouble.
  { rewrite <- Z.pow_succ_r by lia. f_equal. lia. }
  assert (representable p (inject_Z k * pow2 (m - p))) as Hrep.
  { destruct (decide (k = 2 ^ p)%Z) as [Hk|Hk].
    - exists (2 ^ (p - 1))%Z, (m - p + 1)%Z. split; [|lia].
      rewrite Hk, Hdouble, inject_Z_mult, (pow2_add (m - p) 1).
      change (pow2 1) with 2. change (inject_Z 2) with 2. ring.
    - exists k, (m - p)%Z. split; [reflexivity|lia]. }
  destruct (Qle_bool 0 x); [done|by apply representable_opp].
Qed.

Lemma round_opp (p : Z) (x : Q) : round p (- x) == - round p x.
Proof.
  unfold round.
  assert (Qabs (- x) = Qabs x) as ->.
  { destruct x as [n d]. unfold Qabs, Qopp. simpl. by rewrite Z.abs_opp. }
  destruct (Qeq_bool x 0) eqn:H0.
  - apply Qeq_bool_eq in H0.
    assert (Qeq_bool (- x) 0 = true) as ->; [|reflexivity].
    apply Qeq_bool_iff. rewrite H0. reflexivity.
  - apply Qeq_bool_neq in H0.
    assert (Qeq_bool (- x) 0 = false) as ->.
    { apply not_true_is_false. intros Heq. apply Qeq_bool_eq in Heq.
      apply H0. lra. }
    destruct (Qle_bool 0 x) eqn:Hx, (Qle_bool 0 (- x)) eqn:Hox.
    + apply Qle_bool_iff in Hx, Hox. exfalso. apply H0. lra.
    + reflexivity.
    + ring.
    + exfalso.
      assert (¬ 0 <= x) as Hnx by (intros H; apply Qle_bool_iff in H; congruence).
      assert (¬ 0 <= - x) as Hnox
        by (intros H; apply Qle_bool_iff in H; congruence).
      apply Hnx. apply Qnot_lt_le. intros Hlt. apply Hnox. lra.
Qed.

End ieeeProofs.

(** ** MatrixIV *)

Module MatrixIVProofs.

Import MatrixIV.

(** *** Roundings *)

Lemma exact_lawful : Lawful exact.
Proof. by split. Qed.

Lemma round_round (p q : Z) (x : Q) :
  (1 ≤ p)%Z → (p ≤ q)%Z →
  (ieee.round q (Qred (ieee.round p x)) == ieee.round p x)%Q.
Proof.
  intros Hp Hpq. rewrite ieeeProofs.round_representable.
  - apply Qred_correct.
  - apply (ieeeProofs.representable_le p q); [done|].
    apply (ieeeProofs.representable_comp p (ieee.round p x)).
    + symmetry. apply Qred_correct.
    + by apply ieeeProofs.representable_round.
Qed.

Lemma binary_lawful : Lawful binary.
Proof.
  split.
  - intros x. apply Q2Qc_eq_iff. by apply round_round.
  - intros x. apply Q2Qc_eq_iff. by apply round_round.
  - intros x. apply Q2Qc_eq_iff. by apply round_round.
  - intros x. apply Qc_is_canon. cbn [double binary].
    change (this (- x)) with (Qred (- this x)).
    rewrite Qred_opp, (canon x). unfold Qcopp, Q2Qc. cbn [this].
    by rewrite !Qred_correct, ieeeProofs.round_opp.
  - by apply Qc_is_canon.
  - by apply Qc_is_canon.
Qed.

Lemma Qcopp_0 : - 0 = 0.
Proof. ring. Qed.

Lemma Qcmult_opp_r (x y : num) : x * - y = - (x * y).
Proof. ring. Qed.

Section Roundings.

Context {R : Rounding} {HR : Lawful R}.

Lemma double_0 : double 0 = 0.
Proof. by rewrite <- single_0 at 1; rewrite double_single, single_0. Qed.

Lemma double_1 : double 1 = 1.
Proof. by rewrite <- single_1 at 1; rewrite double_single, single_1. Qed.

(** What a [Float32Array] holds is a JavaScript number. *)
Lemma double_float (x : num) : single x = x → double x = x.
Proof. intros <-. apply double_single. Qed.

End Roundings.

(** *** Sixteen entries, always *)

Section Sized.

Context {R : Rounding}.

Lemma sized_put (i : nat) (v : num) (m : t) : sized m → sized (put i v m).
Proof. unfold sized, put. cbn [value]. by rewrite length_insert. Qed.

Lemma sized_new (matrix : option t) :
  (∀ m, matrix = Some m → sized m) → sized (new matrix).
Proof.
  intros H. destruct matrix as [m|]; [exact (H m eq_refl)|]. reflexivity.
Qed.

Lemma sized_IDENTITY : sized IDENTITY.
Proof. reflexivity. Qed.

Lemma sized_translateXyz (m : t) (x y z : num) :
  sized m → sized (translateXyz m x y z).
Proof. intros H. unfold translateXyz. by do 4 apply sized_put. Qed.

Lemma sized_scaleXyz (m : t) (x y z : num) : sized m → sized (scaleXyz m x y z).
Proof. intros H. unfold scaleXyz. by do 12 apply sized_put. Qed.

Lemma sized_rotateZ (m : t) (s c : num) : sized m → sized (rotateZ m s c).
Proof. intros H. unfold rotateZ. by do 8 apply sized_put. Qed.

End Sized.

(** *** Floats, always *)

Section Floats.

Context {R : Rounding} {HR : Lawful R}.

Lemma floats_put (i : nat) (v : num) (m : t) : floats m → floats (put i v m).
Proof.
  unfold floats, put. cbn [value]. intros H.
  apply Forall_insert; [done|]. apply single_idem.
Qed.

Lemma floats_identity (m : t) : floats m → floats (identity m).
Proof. intros H. unfold identity. by do 16 apply floats_put. Qed.

Lemma floats_IDENTITY : floats IDENTITY.
Proof.
  unfold IDENTITY, new. do 3 apply floats_identity.
  unfold floats. cbn [value]. apply Forall_replicate, single_0.
Qed.

Lemma floats_translateXyz (m : t) (x y z : num) :
  floats m → floats (translateXyz m x y z).
Proof. intros H. unfold translateXyz. by do 4 apply floats_put. Qed.

Lemma floats_scaleXyz (m : t) (x y z : num) :
  floats m → floats (scaleXyz m x y z).
Proof. intros H. unfold scaleXyz. by do 12 apply floats_put. Qed.

Lemma floats_rotateZ (m : t) (s c : num) : floats m → floats (rotateZ m s c).
Proof. intros H. unfold rotateZ. by do 8 apply floats_put. Qed.

End Floats.

(** *** The methods, entry by entry *)

Lemma sized_entries (m : t) :
  sized m →
  ∃ a0 a1 a2 a3 a4 a5 a6 a7 a8 a9 a10 a11 a12 a13 a14 a15,
    m = {| value := [a0; a1; a2; a3; a4; a5; a6; a7;
                     a8; a9; a10; a11; a12; a13; a14; a15] |}.
Proof.
  destruct m as [v]. unfold sized. cbn [value]. intros H.
  do 16 (destruct v as [|? v]; [discriminate H|]).
  destruct v; [|discriminate H]. by repeat eexists.
Qed.

Section Entries.

Context {R : Rounding}.

Variables (a0 a1 a2 a3 a4 a5 a6 a7 a8 a9 a10 a11 a12 a13 a14 a15 : num).

Let m : t :=
  {| value := [a0; a1; a2; a3; a4; a5; a6; a7;
               a8; a9; a10; a11; a12; a13; a14; a15] |}.

Lemma identity_entries :
  identity m =
    {| value := [single 1; single 0; single 0; single 0;
                 single 0; single 1; single 0; single 0;
                 single 0; single 0; single 1; single 0;
                 single 0; single 0; single 0; single 1] |}.
Proof. reflexivity. Qed.

Lemma setXyz_entries (x y z : num) :
  setXyz m x y z =
    {| value := [single 1; single 0; single 0; single 0;
                 single 0; single 1; single 0; single 0;
                 single 0; single 0; single 1; single 0;
                 single x; single y; single z; single 1] |}.
Proof. reflexivity. Qed.

Lemma scaleXyz_entries (x y z : num) :
  scaleXyz m x y z =
    {| value := [single (a0 ⊗ x); single (a1 ⊗ x);
                 single (a2 ⊗ x); single (a3 ⊗ x);
                 single (a4 ⊗ y); single (a5 ⊗ y);
                 single (a6 ⊗ y); single (a7 ⊗ y);
                 single (a8 ⊗ z); single (a9 ⊗ z);
                 single (a10 ⊗ z); single (a11 ⊗ z);
                 a12; a13; a14; a15] |}.
Proof. reflexivity. Qed.

Lemma translateXyz_entries (x y z : num) :
  translateXyz m x y z =
    {| value := [a0; a1; a2; a3; a4; a5; a6; a7; a8; a9; a10; a11;
                 single (a0 ⊗ x ⊕ a4 ⊗ y ⊕ a8 ⊗ z ⊕ a12);
                 single (a1 ⊗ x ⊕ a5 ⊗ y ⊕ a9 ⊗ z ⊕ a13);
                 single (a2 ⊗ x ⊕ a6 ⊗ y ⊕ a10 ⊗ z ⊕ a14);
                 single (a3 ⊗ x ⊕ a7 ⊗ y ⊕ a11 ⊗ z ⊕ a15)] |}.
Proof. reflexivity. Qed.

Lemma rotateZ_entries (s c : num) :
  rotateZ m s c =
    {| value := [single (a0 ⊗ c ⊕ a4 ⊗ s); single (a1 ⊗ c ⊕ a5 ⊗ s);
                 single (a2 ⊗ c ⊕ a6 ⊗ s); single (a3 ⊗ c ⊕ a7 ⊗ s);
                 single (a4 ⊗ c ⊖ a0 ⊗ s); single (a5 ⊗ c ⊖ a1 ⊗ s);
                 single (a6 ⊗ c ⊖ a2 ⊗ s); single (a7 ⊗ c ⊖ a3 ⊗ s);
                 a8; a9; a10; a11; a12; a13; a14; a15] |}.
Proof. reflexivity. Qed.

(** [rotateX] writes entry 4 without the cosine, and what it has stored
    in the entries 4 to 7 is what its entries 8 to 11 are computed
    from. *)
Lemma rotateX_entries (s c : num) :
  rotateX m s c =
    {| value := [a0; a1; a2; a3;
                 single (a4 ⊕ a8 ⊗ s); single (a5 ⊗ c ⊕ a9 ⊗ s);
                 single (a6 ⊗ c ⊕ a10 ⊗ s); single (a7 ⊗ c ⊕ a11 ⊗ s);
                 single (a8 ⊗ c ⊖ single (a4 ⊕ a8 ⊗ s) ⊗ s);
                 single (a9 ⊗ c ⊖ single (a5 ⊗ c ⊕ a9 ⊗ s) ⊗ s);
                 single (a10 ⊗ c ⊖ single (a6 ⊗ c ⊕ a10 ⊗ s) ⊗ s);
                 single (a11 ⊗ c ⊖ single (a7 ⊗ c ⊕ a11 ⊗ s) ⊗ s);
                 a12; a13; a14; a15] |}.
Proof. reflexivity. Qed.

(** What [rotateY] has stored in the entries 0 to 3 is what it computes
    its entries 8 to 11 from. *)
Lemma rotateY_entries (s c : num) :
  rotateY m s c =
    {| value := [single (a0 ⊗ c ⊖ a8 ⊗ s); single (a1 ⊗ c ⊖ a9 ⊗ s);
                 single (a2 ⊗ c ⊖ a10 ⊗ s); single (a3 ⊗ c ⊖ a11 ⊗ s);
                 a4; a5; a6; a7;
                 single (single (a0 ⊗ c ⊖ a8 ⊗ s) ⊗ s ⊕ a8 ⊗ c);
                 single (single (a1 ⊗ c ⊖ a9 ⊗ s) ⊗ s ⊕ a9 ⊗ c);
                 single (single (a2 ⊗ c ⊖ a10 ⊗ s) ⊗ s ⊕ a10 ⊗ c);
                 single (single (a3 ⊗ c ⊖ a11 ⊗ s) ⊗ s ⊕ a11 ⊗ c);
                 a12; a13; a14; a15] |}.
Proof. reflexivity. Qed.

(** [rotate] about an axis [(a, b, c)] of magnitude 1. *)
Lemma rotate_unit_entries (s c : num) (a b c' : num) :
  rotate m s c {| x := a; y := b; z := c' |} 1 =
    Some
      {| value :=
           [single (a0 ⊗ (a ⊗ a ⊗ (1 ⊖ c) ⊕ c)
                    ⊕ a4 ⊗ (b ⊗ a ⊗ (1 ⊖ c) ⊕ c' ⊗ s)
                    ⊕ a8 ⊗ (c' ⊗ a ⊗ (1 ⊖ c) ⊖ b ⊗ s));
            single (a1 ⊗ (a ⊗ a ⊗ (1 ⊖ c) ⊕ c)
                    ⊕ a5 ⊗ (b ⊗ a ⊗ (1 ⊖ c) ⊕ c' ⊗ s)
                    ⊕ a9 ⊗ (c' ⊗ a ⊗ (1 ⊖ c) ⊖ b ⊗ s));
            single (a2 ⊗ (a ⊗ a ⊗ (1 ⊖ c) ⊕ c)
                    ⊕ a6 ⊗ (b ⊗ a ⊗ (1 ⊖ c) ⊕ c' ⊗ s)
                    ⊕ a10 ⊗ (c' ⊗ a ⊗ (1 ⊖ c) ⊖ b ⊗ s));
            single (a3 ⊗ (a ⊗ a ⊗ (1 ⊖ c) ⊕ c)
                    ⊕ a7 ⊗ (b ⊗ a ⊗ (1 ⊖ c) ⊕ c' ⊗ s)
                    ⊕ a11 ⊗ (c' ⊗ a ⊗ (1 ⊖ c) ⊖ b ⊗ s));
            single (a0 ⊗ (a ⊗ b ⊗ (1 ⊖ c) ⊖ c' ⊗ s)
                    ⊕ a4 ⊗ (b ⊗ b ⊗ (1 ⊖ c) ⊕ c)
                    ⊕ a8 ⊗ (c' ⊗ b ⊗ (1 ⊖ c) ⊕ a ⊗ s));
            single (a1 ⊗ (a ⊗ b ⊗ (1 ⊖ c) ⊖ c' ⊗ s)
                    ⊕ a5 ⊗ (b ⊗ b ⊗ (1 ⊖ c) ⊕ c)
                    ⊕ a9 ⊗ (c' ⊗ b ⊗ (1 ⊖ c) ⊕ a ⊗ s));
            single (a2 ⊗ (a ⊗ b ⊗ (1 ⊖ c) ⊖ c' ⊗ s)
                    ⊕ a6 ⊗ (b ⊗ b ⊗ (1 ⊖ c) ⊕ c)
                    ⊕ a10 ⊗ (c' ⊗ b ⊗ (1 ⊖ c) ⊕ a ⊗ s));
            single (a3 ⊗ (a ⊗ b ⊗ (1 ⊖ c) ⊖ c' ⊗ s)
                    ⊕ a7 ⊗ (b ⊗ b ⊗ (1 ⊖ c) ⊕ c)
                    ⊕ a11 ⊗ (c' ⊗ b ⊗ (1 ⊖ c) ⊕ a ⊗ s));
            single (a0 ⊗ (a ⊗ c' ⊗ (1 ⊖ c) ⊕ b ⊗ s)
                    ⊕ a4 ⊗ (b ⊗ c' ⊗ (1 ⊖ c) ⊖ a ⊗ s)
                    ⊕ a8 ⊗ (c' ⊗ c' ⊗ (1 ⊖ c) ⊕ c));
            single (a1 ⊗ (a ⊗ c' ⊗ (1 ⊖ c) ⊕ b ⊗ s)
                    ⊕ a5 ⊗ (b ⊗ c' ⊗ (1 ⊖ c) ⊖ a ⊗ s)
                    ⊕ a9 ⊗ (c' ⊗ c' ⊗ (1 ⊖ c) ⊕ c));
            single (a2 ⊗ (a ⊗ c' ⊗ (1 ⊖ c) ⊕ b ⊗ s)
                    ⊕ a6 ⊗ (b ⊗ c' ⊗ (1 ⊖ c) ⊖ a ⊗ s)
                    ⊕ a10 ⊗ (c' ⊗ c' ⊗ (1 ⊖ c) ⊕ c));
            single (a3 ⊗ (a ⊗ c' ⊗ (1 ⊖ c) ⊕ b ⊗ s)
                    ⊕ a7 ⊗ (b ⊗ c' ⊗ (1 ⊖ c) ⊖ a ⊗ s)
                    ⊕ a11 ⊗ (c' ⊗ c' ⊗ (1 ⊖ c) ⊕ c));
            single a12; single a13; single a14; single a15] |}.
Proof.
  unfold rotate. rewrite decide_False; [|done].
  rewrite (decide_False (P := (1 : num) ≠ 1)); [|by intros Hne; apply Hne].
  reflexivity.
Qed.

End Entries.

Lemma IDENTITY_entries {R : Rounding} {HR : Lawful R} :
  IDENTITY = {| value := [1; 0; 0; 0; 0; 1; 0; 0; 0; 0; 1; 0; 0; 0; 0; 1] |}.
Proof.
  change IDENTITY with
    {| value := [single 1; single 0; single 0; single 0;
                 single 0; single 1; single 0; single 0;
                 single 0; single 0; single 1; single 0;
                 single 0; single 0; single 0; single 1] |}.
  by rewrite !single_0, !single_1.
Qed.

(** Names the sixteen entries of a matrix known to be [sized]. *)
Ltac matrix_cases m H :=
  destruct (sized_entries m H)
    as (?a & ?a & ?a & ?a & ?a & ?a & ?a & ?a
        & ?a & ?a & ?a & ?a & ?a & ?a & ?a & ?a & ->).

(** Says of each named entry of a matrix of [floats] that it is one. *)
Ltac floats_cases H :=
  unfold floats in H; cbn [value] in H;
  repeat (apply Forall_cons in H as [? H]); clear H; cbn beta in *.

(** Runs the methods on named entries. *)
Ltac matrix_run :=
  repeat progress
    rewrite ?IDENTITY_entries, ?identity_entries, ?setXyz_entries,
      ?scaleXyz_entries,
      ?translateXyz_entries, ?rotateZ_entries, ?rotateX_entries,
      ?rotateY_entries.

(** Rounds what needs no rounding: the products with 0 and 1, the sums
    with 0, the floats and the doubles at hand. *)
Ltac rounding_simpl :=
  unfold number in *; unfold add, sub, mul, div, Qcminus in *;
  repeat progress
    (rewrite ?Qcmult_0_l, ?Qcmult_0_r, ?Qcmult_1_l, ?Qcmult_1_r,
       ?Qcplus_0_l, ?Qcplus_0_r, ?Qcopp_0, ?Qcmult_opp_r,
       ?double_0, ?double_1, ?single_0, ?single_1,
       ?double_idem, ?single_idem, ?double_single, ?double_opp;
     repeat match goal with
       | H : single ?a = ?a |- context [single ?a] => rewrite H
       | H : single ?a = ?a |- context [double ?a] =>
           rewrite (double_float a H)
       | H : double ?a = _ |- context [double ?a] => rewrite H
       end).

(** Two matrices with named entries are equal entry by entry. *)
Ltac matrix_eq :=
  matrix_run; apply (f_equal Build_t); rounding_simpl;
  repeat (apply (f_equal2 (@cons _));
          [first [reflexivity | do 2 f_equal; ring]|]);
  reflexivity.

(** Goes through the places of a matrix with named entries. *)
Ltac matrix_get i :=
  do 16 (destruct i as [|i]; [first [lia | reflexivity]|]); reflexivity.

(** *** The examples *)

(** The first two entries of [turned] are the floats nearest to four
    fifths and to three fifths. *)
Lemma turned_entries :
  value MoreExamples.turned
    = [frac 13421773 16777216; frac 10066330 16777216; 0; 0;
       frac (-10066330) 16777216; frac 13421773 16777216; 0; 0;
       0; 0; 1; 0; 0; 0; 0; 1].
Proof.
  vm_compute.
  repeat (apply (f_equal2 (@cons _)); [by apply Qc_is_canon|]); done.
Qed.

Lemma sized_scaled : sized MoreExamples.scaled.
Proof. reflexivity. Qed.

Lemma sized_turned : sized MoreExamples.turned.
Proof. reflexivity. Qed.

Lemma floats_scaled : @floats binary MoreExamples.scaled.
Proof.
  apply (@floats_scaleXyz binary binary_lawful).
  apply (@floats_IDENTITY binary binary_lawful).
Qed.

Lemma floats_turned : @floats binary MoreExamples.turned.
Proof.
  apply (@floats_rotateZ binary binary_lawful).
  apply (@floats_IDENTITY binary binary_lawful).
Qed.

Lemma number_examples :
  @number binary MoreExamples.tenth ∧ @number binary MoreExamples.sine
  ∧ @number binary MoreExamples.cosine ∧ @number binary 0
  ∧ @number binary 1.
Proof.
  split_and!;
    first [apply (@double_idem binary binary_lawful)
          |apply (@double_0 binary binary_lawful)
          |apply (@double_1 binary binary_lawful)].
Qed.

(** X30: a matrix does not hold the numbers it was given, but the
    floats nearest to them: after [MatrixIV.IDENTITY.scaleXyz(0.1, 1, 1)]
    the first entry is 13421773/134217728, which is not the number [0.1]
    the identity was scaled by; the other entries are those of the
    identity. *)
Theorem scaleXyz_stores_floats :
  value MoreExamples.scaled
    = [frac 13421773 134217728; 0; 0; 0; 0; 1; 0; 0; 0; 0; 1; 0; 0; 0; 0; 1]
  ∧ get MoreExamples.scaled 0 ≠ MoreExamples.tenth
  ∧ MoreExamples.tenth = frac 3602879701896397 36028797018963968.
Proof.
  split_and!.
  - vm_compute.
    repeat (apply (f_equal2 (@cons _)); [by apply Qc_is_canon|]); done.
  - by vm_compute.
  - by apply Qc_is_canon.
Qed.

(** *** Translation and scale *)

(** X11: [translateXyz] writes the last four entries only, the first
    twelve are as before; and translating a matrix of floats by zero
    changes nothing, whatever the rounding. *)
Theorem translateXyz_frame (R : Rounding) (HR : Lawful R) (m : t)
    (x y z : num) :
  sized m →
  (∀ i, (i < 12)%nat → get (translateXyz m x y z) i = get m i)
  ∧ (floats m → translateXyz m 0 0 0 = m).
Proof.
  intros H. matrix_cases m H. split.
  - rewrite translateXyz_entries. intros i Hi. matrix_get i.
  - intros Hm. floats_cases Hm. matrix_eq.
Qed.

Lemma translateXyz_frame_witness :
  sized MoreExamples.scaled
  ∧ get (@translateXyz binary MoreExamples.scaled MoreExamples.tenth 0 0) 0
    = get MoreExamples.scaled 0
  ∧ (@floats binary MoreExamples.scaled
     → @translateXyz binary MoreExamples.scaled 0 0 0 = MoreExamples.scaled).
Proof.
  pose proof (translateXyz_frame binary binary_lawful MoreExamples.scaled)
    as Hframe.
  split; [exact sized_scaled|].
  split; [apply (Hframe MoreExamples.tenth 0 0 sized_scaled); lia|].
  apply (Hframe 0 0 0 sized_scaled).
Defined.

(** X12: [scaleXyz] leaves the last four entries as they are; and
    scaling a matrix of floats by one changes nothing, whatever the
    rounding. *)
Theorem scaleXyz_frame (R : Rounding) (HR : Lawful R) (m : t) (x y z : num) :
  sized m →
  (∀ i, (12 ≤ i)%nat → get (scaleXyz m x y z) i = get m i)
  ∧ (floats m → scaleXyz m 1 1 1 = m).
Proof.
  intros H. matrix_cases m H. split.
  - rewrite scaleXyz_entries. intros i Hi. matrix_get i.
  - intros Hm. floats_cases Hm. matrix_eq.
Qed.

Lemma scaleXyz_frame_witness :
  sized MoreExamples.turned
  ∧ get (@scaleXyz binary MoreExamples.turned MoreExamples.tenth 1 1) 12
    = get MoreExamples.turned 12
  ∧ (@floats binary MoreExamples.turned
     → @scaleXyz binary MoreExamples.turned 1 1 1 = MoreExamples.turned).
Proof.
  pose proof (scaleXyz_frame binary binary_lawful MoreExamples.turned)
    as Hframe.
  split; [exact sized_turned|].
  split; [apply (Hframe MoreExamples.tenth 1 1 sized_turned); lia|].
  apply (Hframe 1 1 1 sized_turned).
Defined.



(** X14: [setXyz] forgets what the matrix held: whatever it was, the
    result is the identity translated by [(x, y, z)], for every
    rounding, the three numbers being doubles; and so in exact
    arithmetic. *)
Theorem setXyz_resets :
  (∀ (R : Rounding), Lawful R → ∀ (m : t) (x y z : num),
     sized m → number x → number y → number z →
     setXyz m x y z = translateXyz IDENTITY x y z)
  ∧ (∀ (m : t) (x y z : num),
     sized m →
     @setXyz exact m x y z = @translateXyz exact (@IDENTITY exact) x y z).
Proof.
  assert (∀ (R : Rounding), Lawful R → ∀ (m : t) (x y z : num),
     sized m → number x → number y → number z →
     setXyz m x y z = translateXyz IDENTITY x y z) as general.
  { intros R HR m x y z H Hx Hy Hz. matrix_cases m H. matrix_eq. }
  split; [exact general|]. intros m x y z H.
  by apply (general exact exact_lawful).
Qed.

Lemma setXyz_resets_witness :
  sized MoreExamples.turned
  ∧ @number binary MoreExamples.tenth ∧ @number binary 0
  ∧ @setXyz binary MoreExamples.turned MoreExamples.tenth 0 0
    = @translateXyz binary MoreExamples.identityIV MoreExamples.tenth 0 0.
Proof.
  destruct number_examples as (Htenth & _ & _ & Hzero & _).
  split; [exact sized_turned|]. split; [exact Htenth|].
  split; [exact Hzero|].
  apply (proj1 setXyz_resets binary binary_lawful MoreExamples.turned
           MoreExamples.tenth 0 0 sized_turned Htenth Hzero Hzero).
Defined.

(** *** Rotations *)

(** X15: [rotateZ] writes the first eight entries only, the entries 8
    to 15 are as before; and turning a matrix of floats by the angle
    zero, sine 0 and cosine 1, changes nothing, whatever the
    rounding. *)
Theorem rotateZ_frame (R : Rounding) (HR : Lawful R) (m : t) (s c : num) :
  sized m →
  (∀ i, (8 ≤ i)%nat → get (rotateZ m s c) i = get m i)
  ∧ (floats m → rotateZ m 0 1 = m).
Proof.
  intros H. matrix_cases m H. split.
  - rewrite rotateZ_entries. intros i Hi. matrix_get i.
  - intros Hm. floats_cases Hm. matrix_eq.
Qed.

Lemma rotateZ_frame_witness :
  sized MoreExamples.scaled
  ∧ get (@rotateZ binary MoreExamples.scaled
           MoreExamples.sine MoreExamples.cosine) 10
    = get MoreExamples.scaled 10
  ∧ (@floats binary MoreExamples.scaled
     → @rotateZ binary MoreExamples.scaled 0 1 = MoreExamples.scaled).
Proof.
  pose proof (rotateZ_frame binary binary_lawful MoreExamples.scaled)
    as Hframe.
  split; [exact sized_scaled|].
  split;
    [apply (Hframe MoreExamples.sine MoreExamples.cosine sized_scaled); lia|].
  apply (Hframe 0 1 sized_scaled).
Defined.

(** X17: [rotate] about the axis [(0, 0, 1)], whose magnitude is 1, is
    [rotateZ]: for every rounding, on a matrix of floats, the sine and
    the cosine being doubles and [1 - c + c] coming out as 1; and so in
    exact arithmetic. About an axis of magnitude 0 it returns [null]. *)
Theorem rotate_about_z :
  (∀ (R : Rounding), Lawful R → ∀ (m : t) (s c : num),
     sized m → floats m → number s → number c → (1 ⊖ c) ⊕ c = 1 →
     rotate m s c {| x := 0; y := 0; z := 1 |} 1 = Some (rotateZ m s c)
     ∧ ∀ axis, rotate m s c axis 0 = None)
  ∧ (∀ (m : t) (s c : num),
     sized m →
     @rotate exact m s c {| x := 0; y := 0; z := 1 |} 1
       = Some (@rotateZ exact m s c)
     ∧ ∀ axis, @rotate exact m s c axis 0 = None).
Proof.
  assert (∀ (R : Rounding), Lawful R → ∀ (m : t) (s c : num),
     sized m → floats m → number s → number c → (1 ⊖ c) ⊕ c = 1 →
     rotate m s c {| x := 0; y := 0; z := 1 |} 1 = Some (rotateZ m s c)
     ∧ ∀ axis, rotate m s c axis 0 = None) as general.
  { intros R HR m s c H Hm Hs Hc Hone. split; [|done]. matrix_cases m H.
    floats_cases Hm. rewrite rotate_unit_entries. f_equal. matrix_eq. }
  split; [exact general|]. intros m s c H.
  apply (general exact exact_lawful); try done.
  - unfold floats. by apply Forall_forall.
  - unfold add, sub. cbn [double exact]. ring.
Qed.

Lemma rotate_about_z_witness :
  sized MoreExamples.scaled ∧ @floats binary MoreExamples.scaled
  ∧ @number binary MoreExamples.sine ∧ @number binary MoreExamples.cosine
  ∧ @add binary (@sub binary 1 MoreExamples.cosine) MoreExamples.cosine = 1
  ∧ @rotate binary MoreExamples.scaled MoreExamples.sine MoreExamples.cosine
      {| x := 0; y := 0; z := 1 |} 1
    = Some (@rotateZ binary MoreExamples.scaled
              MoreExamples.sine MoreExamples.cosine).
Proof.
  destruct number_examples as (_ & Hsine & Hcosine & _).
  assert (@add binary (@sub binary 1 MoreExamples.cosine) MoreExamples.cosine
          = 1) as Hone by (by apply Qc_is_canon).
  split; [exact sized_scaled|]. split; [exact floats_scaled|].
  split; [exact Hsine|]. split; [exact Hcosine|]. split; [exact Hone|].
  apply (proj1 rotate_about_z binary binary_lawful MoreExamples.scaled
           MoreExamples.sine MoreExamples.cosine
           sized_scaled floats_scaled Hsine Hcosine Hone).
Defined.

(** X19: [rotateX] and [rotateY] by the angle zero, sine 0 and cosine 1,
    change nothing: for every rounding on a matrix of floats, and so in
    exact arithmetic. *)
Theorem rotateX_rotateY_at_zero :
  (∀ (R : Rounding), Lawful R → ∀ (m : t),
     sized m → floats m → rotateX m 0 1 = m ∧ rotateY m 0 1 = m)
  ∧ (∀ (m : t),
     sized m → @rotateX exact m 0 1 = m ∧ @rotateY exact m 0 1 = m).
Proof.
  assert (∀ (R : Rounding), Lawful R → ∀ (m : t),
     sized m → floats m → rotateX m 0 1 = m ∧ rotateY m 0 1 = m) as general.
  { intros R HR m H Hm. matrix_cases m H. floats_cases Hm. split; matrix_eq. }
  split; [exact general|]. intros m H.
  apply (general exact exact_lawful); [done|].
  unfold floats. by apply Forall_forall.
Qed.

Lemma rotateX_rotateY_at_zero_witness :
  sized MoreExamples.turned ∧ @floats binary MoreExamples.turned
  ∧ @rotateX binary MoreExamples.turned 0 1 = MoreExamples.turned
  ∧ @rotateY binary MoreExamples.turned 0 1 = MoreExamples.turned.
Proof.
  split; [exact sized_turned|]. split; [exact floats_turned|].
  apply (proj1 rotateX_rotateY_at_zero binary binary_lawful
           MoreExamples.turned sized_turned floats_turned).
Defined.

(** X20: [rotateX] does not turn entry 4: its assignment to that entry
    has no cosine in it, so on a matrix of floats whose entry 8 is zero
    entry 4 comes out as it went in, whatever the angle and the
    rounding. The entries 0 to 3 and 12 to 15 are not written by
    [rotateX], the entries 4 to 7 and 12 to 15 not by [rotateY]. *)
Theorem rotateX_keeps_entry_4 (R : Rounding) (HR : Lawful R) (m : t)
    (s c : num) :
  sized m →
  (floats m → get m 8 = 0 → get (rotateX m s c) 4 = get m 4)
  ∧ (∀ i, (i < 4 ∨ 12 ≤ i)%nat → get (rotateX m s c) i = get m i)
  ∧ (∀ i, (4 ≤ i < 8 ∨ 12 ≤ i)%nat → get (rotateY m s c) i = get m i).
Proof.
  intros H. matrix_cases m H. rewrite rotateX_entries, rotateY_entries.
  split_and!.
  - cbv [get value lookup list_lookup default from_option id].
    intros Hm ->. floats_cases Hm. by rounding_simpl.
  - intros i Hi. matrix_get i.
  - intros i Hi. matrix_get i.
Qed.

Lemma rotateX_keeps_entry_4_witness :
  sized MoreExamples.turned ∧ @floats binary MoreExamples.turned
  ∧ get MoreExamples.turned 8 = 0
  ∧ get (@rotateX binary MoreExamples.turned
           MoreExamples.sine MoreExamples.cosine) 4
    = get MoreExamples.turned 4.
Proof.
  assert (get MoreExamples.turned 8 = 0) as Hzero by reflexivity.
  split; [exact sized_turned|]. split; [exact floats_turned|].
  split; [exact Hzero|].
  destruct (rotateX_keeps_entry_4 binary binary_lawful MoreExamples.turned
              MoreExamples.sine MoreExamples.cosine sized_turned)
    as [Hentry _].
  exact (Hentry floats_turned Hzero).
Defined.

End MatrixIVProofs.

(** ** GlobalWindow *)

Module GlobalWindowProofs.

Import DomWatcher DomWatcherPage GlobalWindow.

Implicit Types (r : realm) (ws : list (DomWatcherPage.t World))
  (p : DomWatcherPage.page World) (hs : list happening).

(** *** The constructor and the module body *)

Lemma construct_spec r :
  let k := created (page r) in
  let this := length (instances (world r)) in
  let w := win (world r) in
  construct r =
    ({| world :=
          {| win := w;
             instances :=
               instances (world r)
                 ++ [ {| scrollY := window.scrollY w;
                         width := window.innerWidth w;
                         height := window.innerHeight w |} ] |};
        page :=
          {| created := S (S k);
             calls :=
               calls (page r)
                 ++ [Listen k (AddEventListener Window "scroll" passiveOptions)
                       (listener (scrollConfig this));
                     Listen (S k) (AddEventListener Window "resize" passiveOptions)
                       (listener (resizeConfig this))] |};
        watchers :=
          watchers r
            ++ [ {| watcherConfigs :=
                      [ {| config := scrollConfig this; remover := Some k |};
                        {| config := resizeConfig this;
                           remover := Some (S k) |} ] |} ] |},
     this).
Proof.
  unfold construct, add, said. cbn. by rewrite <-(assoc_L (++)).
Qed.

Lemma heardFrom_app k ws ws' :
  heardFrom k (ws ++ ws') = heardFrom k ws ++ heardFrom (k + length ws) ws'.
Proof.
  revert k. induction ws as [|w ws IH]; intros k.
  - simpl. by rewrite Nat.add_0_r.
  - cbn [heardFrom app length]. rewrite IH, (assoc_L (++)).
    by replace (S k + length ws)%nat with (k + S (length ws))%nat by lia.
Qed.

Lemma tidy_start (s w h : num) : tidy (start s w h).
Proof. unfold tidy, start. cbn. split_and!; try done. Qed.

Lemma tidy_construct r : tidy r → tidy (construct r).1.
Proof.
  intros (Hlen & Hcreated & Hws & Hheard). rewrite construct_spec. cbn [fst].
  unfold tidy. cbn [watchers world instances page created calls].
  split_and!.
  - rewrite !length_app. simpl. lia.
  - rewrite length_app. simpl. lia.
  - intros i watcher [Hi|[Hi Hlast]]%lookup_app_Some.
    + by apply Hws.
    + destruct (i - length (watchers r))%nat as [|n] eqn:Hn; [|done].
      injection Hlast as <-. right. cbn [watcherConfigs].
      assert (i = length (watchers r)) as -> by lia.
      unfold entriesOf. rewrite Hcreated, <-Hlen.
      by replace (2 * length (watchers r) + 1)%nat
        with (S (2 * length (watchers r))) by lia.
  - unfold attached in *. rewrite foldl_app, Hheard. cbn [foldl attach].
    rewrite heardFrom_app. cbn [heardFrom watcherConfigs].
    rewrite bool_decide_eq_false_2; [|done].
    rewrite app_nil_r, <-(assoc_L (++)). cbn [app]. unfold listenersOf.
    rewrite Hcreated, <-Hlen. cbn [Nat.add].
    by replace (2 * length (watchers r) + 1)%nat
      with (S (2 * length (watchers r))) by lia.
Qed.

Lemma load_spec r :
  load r =
    match window.YANO_JS_GLOBAL_WINDOW (win (world r)) with
    | Some existing => ((construct r).1, existing)
    | None =>
        (withWindow (construct r).1
           {| window.scrollY := window.scrollY (win (world r));
              window.innerWidth := window.innerWidth (win (world r));
              window.innerHeight := window.innerHeight (win (world r));
              window.YANO_JS_GLOBAL_WINDOW :=
                Some (length (instances (world r))) |},
         length (instances (world r)))
    end.
Proof.
  unfold load. rewrite construct_spec. cbv zeta.
  cbn [world win]. by destruct (window.YANO_JS_GLOBAL_WINDOW _).
Qed.

Lemma tidy_withWindow r (w : window.t) : tidy r → tidy (withWindow r w).
Proof. done. Qed.

Lemma tidy_load r : tidy r → tidy (load r).1.
Proof.
  intros H. rewrite load_spec.
  destruct (window.YANO_JS_GLOBAL_WINDOW _); cbn [fst].
  - by apply tidy_construct.
  - by apply tidy_withWindow, tidy_construct.
Qed.

(** *** [dispose] *)

Lemma heardFrom_keys k ws x : x ∈ heardFrom k ws → (2 * k ≤ x.1.1)%nat.
Proof.
  revert k. induction ws as [|w ws IH]; intros k; [by intros ?%elem_of_nil|].
  cbn [heardFrom]. intros [Hx|Hx]%elem_of_app.
  - case_bool_decide; [by apply elem_of_nil in Hx|].
    unfold listenersOf in Hx.
    apply elem_of_cons in Hx as [->|Hx]; [simpl; lia|].
    apply list_elem_of_singleton in Hx as ->. simpl. lia.
  - apply IH in Hx. lia.
Qed.

Lemma heardFrom_dispose ws k n (watcher : DomWatcherPage.t World) :
  ws !! n = Some watcher →
  watcherConfigs watcher = [] ∨ watcherConfigs watcher = entriesOf (k + n) →
  filter (λ x, x.1.1 ∉ omap remover (watcherConfigs watcher)) (heardFrom k ws)
    = heardFrom k (<[n := DomWatcherPage.new]> ws).
Proof.
  revert k n. induction ws as [|w ws IH]; intros k n Hn Hconfigs; [done|].
  destruct n as [|n].
  - injection Hn as ->. cbn [heardFrom insert list_insert].
    rewrite filter_app. cbn [DomWatcherPage.new watcherConfigs].
    rewrite (bool_decide_eq_true_2 ([] = [])); [|done]. cbn [app].
    destruct Hconfigs as [->| ->].
    + rewrite bool_decide_eq_true_2; [|done]. cbn [app].
      apply DomWatcherPageProofs.filter_all, Forall_forall.
      intros x _. apply not_elem_of_nil.
    + rewrite bool_decide_eq_false_2; [|done].
      rewrite Nat.add_0_r. unfold entriesOf, listenersOf. cbn [omap list_omap remover].
      rewrite filter_cons_False, filter_cons_False, filter_nil; cbn [app fst].
      * apply DomWatcherPageProofs.filter_all, Forall_forall.
        intros x Hx%heardFrom_keys Hin.
        apply elem_of_cons in Hin as [Hin|Hin]; [lia|].
        apply list_elem_of_singleton in Hin. lia.
      * intros H. apply H. apply elem_of_cons. right. apply elem_of_cons. by left.
      * intros H. apply H. apply elem_of_cons. by left.
  - cbn [heardFrom insert list_insert]. rewrite filter_app.
    replace (k + S n)%nat with (S k + n)%nat in Hconfigs by lia.
    rewrite (IH (S k) n Hn Hconfigs). f_equal.
    case_bool_decide; [done|].
    apply DomWatcherPageProofs.filter_all, Forall_forall.
    intros x Hx Hin. unfold listenersOf in Hx.
    assert (x.1.1 = (2 * k)%nat ∨ x.1.1 = (2 * k + 1)%nat) as Hkey.
    { apply elem_of_cons in Hx as [->|Hx]; [by left|].
      apply list_elem_of_singleton in Hx as ->. by right. }
    destruct Hconfigs as [Hc|Hc]; rewrite Hc in Hin.
    + by apply elem_of_nil in Hin.
    + unfold entriesOf in Hin. cbn [omap list_omap remover] in Hin.
      apply elem_of_cons in Hin as [Hin|Hin]; [lia|].
      apply list_elem_of_singleton in Hin. lia.
Qed.

Lemma elem_of_heardFrom k ws (x : nat * registration * Function World) :
  x ∈ heardFrom k ws → ∃ j, x ∈ listenersOf j.
Proof.
  revert k. induction ws as [|w ws IH]; intros k; [by intros ?%elem_of_nil|].
  cbn [heardFrom]. intros [Hx|Hx]%elem_of_app; [|by eapply IH].
  case_bool_decide; [by apply elem_of_nil in Hx|]. by exists k.
Qed.

(** The listeners of this class neither capture nor expire. *)
Lemma heardFrom_options k ws :
  Forall (λ x : nat * registration * Function World,
            capture (optionsOf x.1.2) = false
            ∧ once (optionsOf x.1.2) = false)
    (heardFrom k ws).
Proof.
  apply Forall_forall. intros x [j Hx]%elem_of_heardFrom.
  unfold listenersOf in Hx.
  apply elem_of_cons in Hx as [->|Hx]; [done|].
  by apply list_elem_of_singleton in Hx as ->.
Qed.

(** For the listeners of this class, a remover takes away the listener
    it was made for. *)
Lemma takenBy_listenersOf (i j : nat)
    (x : nat * registration * Function World) (e : entry World) :
  x ∈ listenersOf j → e ∈ entriesOf i →
  takenBy e x = true ↔ remover e = Some x.1.1.
Proof.
  unfold listenersOf, entriesOf. intros Hx He.
  apply elem_of_cons in Hx as [->|Hx];
    [|apply list_elem_of_singleton in Hx as ->];
    (apply elem_of_cons in He as [->|He];
       [|apply list_elem_of_singleton in He as ->]);
    unfold takenBy, removedBy; cbn [remover config fst snd];
    vm_compute removalOf;
    rewrite ?andb_true_iff, ?bool_decide_eq_true; cbn [negb capture passiveOptions];
    (split; [intros H; f_equal; lia || (destruct H as [[[? ?] ?] ?]; done)
            |intros [= H]; (repeat split; done || lia) || lia]).
Qed.

Lemma heard_taken k ws (i : nat) es :
  es = [] ∨ es = entriesOf i →
  filter (λ x, Forall (λ e, takenBy e x = false) es) (heardFrom k ws)
  = filter (λ x, x.1.1 ∉ omap remover es) (heardFrom k ws).
Proof.
  intros Hes. apply DomWatcherPageProofs.filter_ext_in, Forall_forall.
  intros x [j Hx]%elem_of_heardFrom. destruct Hes as [->| ->].
  - split; [intros _; apply not_elem_of_nil|by intros _].
  - rewrite Forall_forall. split.
    + intros Hnone (e & Hin & He)%list_elem_of_omap.
      specialize (Hnone e Hin).
      apply (takenBy_listenersOf i j x e Hx Hin) in He. congruence.
    + intros Hkey e Hin. destruct (takenBy e x) eqn:Htaken; [|done].
      apply (takenBy_listenersOf i j x e Hx Hin) in Htaken.
      exfalso. apply Hkey. apply list_elem_of_omap. by exists e.
Qed.

Lemma dispose_spec r (this : nat) (watcher : DomWatcherPage.t World) :
  watchers r !! this = Some watcher →
  dispose this r =
    {| world := world r;
       page := foldl callRemover (page r) (watcherConfigs watcher);
       watchers := <[this := DomWatcherPage.new]> (watchers r) |}.
Proof. intros H. unfold dispose. by rewrite H. Qed.

Lemma tidy_dispose r (this : nat) : tidy r → tidy (dispose this r).
Proof.
  intros (Hlen & Hcreated & Hws & Hheard).
  destruct (watchers r !! this) as [watcher|] eqn:Hw;
    [|unfold dispose; by rewrite Hw].
  rewrite (dispose_spec r this watcher Hw). unfold tidy.
  cbn [watchers world page]. rewrite length_insert. split_and!.
  - done.
  - by rewrite DomWatcherPageProofs.foldl_callRemover_created.
  - intros i w Hi. destruct (decide (i = this)) as [->|Hne].
    + rewrite list_lookup_insert_eq in Hi by (by eapply lookup_lt_Some).
      injection Hi as <-. by left.
    + rewrite list_lookup_insert_ne in Hi by done. by apply Hws.
  - rewrite DomWatcherPageProofs.attached_removeAll, Hheard.
    rewrite (heard_taken 0 (watchers r) this) by (by apply Hws).
    apply heardFrom_dispose; [done|]. by apply Hws.
Qed.

(** The page calling listeners of this class leaves them attached. *)
Lemma fired_attached p (ls : list (nat * registration * Function World)) :
  Forall (λ x : nat * registration * Function World,
            once (optionsOf x.1.2) = false) (attached (calls p)) →
  created (foldl (λ p x, said p (Fired x.1.1)) p ls) = created p
  ∧ attached (calls (foldl (λ p x, said p (Fired x.1.1)) p ls))
    = attached (calls p).
Proof.
  revert p. induction ls as [|x ls IH]; intros p Honce; [done|].
  cbn [foldl].
  assert (attached (calls (said p (Fired x.1.1))) = attached (calls p)) as Hsame.
  { rewrite DomWatcherPageProofs.attached_said. cbn [attach].
    apply DomWatcherPageProofs.filter_all.
    eapply Forall_impl; [exact Honce|]. intros y Hy [_ Hy']. congruence. }
  destruct (IH (said p (Fired x.1.1))) as [Hcreated Hattached].
  { by rewrite Hsame. }
  by rewrite Hcreated, Hattached, Hsame.
Qed.

(** In a tidy realm the listeners called for an event are those of the
    watchers that hold their configs, in the order of the instances. *)
Lemma heard_tidy r (on : string) :
  tidy r →
  heard on (page r)
  = filter (λ x : nat * registration * Function World, hears x.1.2 on)
      (heardFrom 0 (watchers r)).
Proof.
  intros (_ & _ & _ & Hheard). unfold heard. rewrite Hheard.
  assert (Forall (λ x : nat * registration * Function World,
                    capture (optionsOf x.1.2) = false)
            (filter (λ x : nat * registration * Function World, hears x.1.2 on)
               (heardFrom 0 (watchers r)))) as Hnone.
  { apply Forall_forall. intros x [_ Hx]%list_elem_of_filter.
    pose proof (heardFrom_options 0 (watchers r)) as Hall.
    rewrite Forall_forall in Hall. by apply Hall in Hx as [? _]. }
  rewrite DomWatcherPageProofs.filter_none, DomWatcherPageProofs.filter_all;
    [done|done|].
  eapply Forall_impl; [exact Hnone|]. intros x Hx. simpl in *. congruence.
Qed.

(** *** Events *)

Section Fire.

(** An event name, and what the listener for it of each instance does. *)
Variables (on : string) (upd : window.t → GlobalWindow.t → GlobalWindow.t).

Hypothesis one_listener : ∀ j (w : World),
  foldl (λ w x, (x.2 w).1) w
    (filter (λ x : nat * registration * Function World, hears x.1.2 on)
       (listenersOf j))
  = {| win := win w; instances := alter (upd (win w)) j (instances w) |}.

Lemma foldl_heard k ws (w : World) :
  let w' :=
    foldl (λ w x, (x.2 w).1) w
      (filter (λ x : nat * registration * Function World, hears x.1.2 on)
         (heardFrom k ws)) in
  win w' = win w
  ∧ ∀ i,
      instances w' !! i =
        match ws !! (i - k)%nat with
        | Some watcher =>
            if bool_decide (watcherConfigs watcher = []) || bool_decide (i < k)%nat
            then instances w !! i
            else upd (win w) <$> instances w !! i
        | None => instances w !! i
        end.
Proof.
  revert k w. induction ws as [|watcher ws IH]; intros k w; [done|].
  cbn [heardFrom]. cbv zeta. rewrite filter_app, foldl_app.
  set (w1 := foldl _ w (filter _ (if bool_decide _ then _ else _))).
  destruct (IH (S k) w1) as [Hwin Hins].
  assert (win w1 = win w
          ∧ ∀ i, instances w1 !! i =
                   if bool_decide (watcherConfigs watcher = [])
                      || negb (bool_decide (i = k))
                   then instances w !! i
                   else upd (win w) <$> instances w !! i) as [Hwin1 Hins1].
  { unfold w1. destruct (bool_decide (watcherConfigs watcher = [])); [done|].
    rewrite one_listener. split; [done|]. intros i. cbn [instances orb].
    case_bool_decide as Hi; cbn [negb].
    - subst i. apply list_lookup_alter_eq.
    - apply list_lookup_alter_ne. congruence. }
  clearbody w1. split; [congruence|].
  intros i. rewrite Hins, Hwin1, !Hins1. clear Hins Hins1 Hwin Hwin1 IH.
  destruct (decide (i < k)%nat) as [Hlt|Hge].
  - replace (i - k)%nat with 0%nat by lia. replace (i - S k)%nat with 0%nat by lia.
    change ((watcher :: ws) !! 0%nat) with (Some watcher).
    rewrite (bool_decide_eq_true_2 (i < k)%nat) by done.
    rewrite (bool_decide_eq_true_2 (i < S k)%nat) by lia.
    rewrite (bool_decide_eq_false_2 (i = k)) by lia.
    cbn [negb]. rewrite ?orb_true_r, ?orb_false_r.
    destruct (ws !! 0%nat); by rewrite ?orb_true_r.
  - destruct (decide (i = k)) as [->|Hne].
    + replace (k - k)%nat with 0%nat by lia.
      replace (k - S k)%nat with 0%nat by lia.
      change ((watcher :: ws) !! 0%nat) with (Some watcher).
      rewrite (bool_decide_eq_false_2 (k < k)%nat) by lia.
      rewrite (bool_decide_eq_true_2 (k < S k)%nat) by lia.
      rewrite (bool_decide_eq_true_2 (k = k)) by done.
      cbn [negb]. rewrite ?orb_true_r, ?orb_false_r.
    destruct (ws !! 0%nat); by rewrite ?orb_true_r.
    + replace (i - k)%nat with (S (i - S k)) by lia.
      change ((watcher :: ws) !! S (i - S k)) with (ws !! (i - S k)%nat).
      rewrite (bool_decide_eq_false_2 (i < k)%nat) by lia.
      rewrite (bool_decide_eq_false_2 (i < S k)%nat) by lia.
      rewrite (bool_decide_eq_false_2 (i = k)) by lia.
      cbn [negb]. rewrite ?orb_true_r, ?orb_false_r.
      destruct (ws !! (i - S k)%nat); by rewrite ?orb_true_r, ?orb_false_r.
Qed.

(** What an event does in a tidy realm: the instances whose watcher holds
    its configs are updated, nothing else changes. *)
Lemma fire_tidy r :
  tidy r →
  win (world (fire on r)) = win (world r)
  ∧ (∀ i, instances (world (fire on r)) !! i =
            if listening r i
            then upd (win (world r)) <$> instances (world r) !! i
            else instances (world r) !! i)
  ∧ tidy (fire on r).
Proof.
  intros Htidy. pose proof Htidy as (Hlen & Hcreated & Hws & Hheard).
  unfold fire. cbn [world]. rewrite (heard_tidy r on Htidy).
  destruct (fired_attached (page r)
              (filter (λ x : nat * registration * Function World,
                         hears x.1.2 on) (heardFrom 0 (watchers r))))
    as [Hfired_created Hfired_attached].
  { rewrite Hheard. eapply Forall_impl; [apply heardFrom_options|].
    by intros x [_ ?]. }
  destruct (foldl_heard 0 (watchers r) (world r)) as [Hwin Hins].
  assert (∀ i, instances
                 (foldl (λ w x, (x.2 w).1) (world r)
                    (filter (λ x : nat * registration * Function World,
                               hears x.1.2 on)
                       (heardFrom 0 (watchers r)))) !! i =
               if listening r i
               then upd (win (world r)) <$> instances (world r) !! i
               else instances (world r) !! i) as Hins'.
  { intros i. rewrite Hins, Nat.sub_0_r. unfold listening.
    destruct (watchers r !! i) as [watcher|]; [|done].
    rewrite (bool_decide_eq_false_2 (i < 0)%nat), orb_false_r by lia.
    by case_bool_decide. }
  split; [done|]. split; [done|].
  unfold tidy. cbn [world page watchers].
  rewrite Hfired_created, Hfired_attached. split_and!; try done.
  rewrite Hlen. apply Nat.le_antisymm.
  - apply Nat.nlt_ge. intros Hlt.
    apply lookup_lt_is_Some in Hlt as [g Hg].
    specialize (Hins' (length (instances (foldl (λ w x, (x.2 w).1) (world r)
      (filter (λ x : nat * registration * Function World, hears x.1.2 on)
         (heardFrom 0 (watchers r))))))).
    rewrite lookup_ge_None_2 in Hins' by lia.
    rewrite Hg in Hins'. by destruct (listening r _).
  - apply Nat.nlt_ge. intros Hlt.
    apply lookup_lt_is_Some in Hlt as [g Hg].
    specialize (Hins' (length (instances (world r)))).
    rewrite Hg in Hins'. rewrite lookup_ge_None_2 in Hins' by lia.
    by destruct (listening r _).
Qed.

End Fire.

Lemma scroll_listener j (w : World) :
  foldl (λ w x, (x.2 w).1) w
    (filter (λ x : nat * registration * Function World, hears x.1.2 "scroll")
       (listenersOf j))
  = {| win := win w; instances := alter (scrolled (win w)) j (instances w) |}.
Proof. reflexivity. Qed.

Lemma resize_listener j (w : World) :
  foldl (λ w x, (x.2 w).1) w
    (filter (λ x : nat * registration * Function World, hears x.1.2 "resize")
       (listenersOf j))
  = {| win := win w; instances := alter (resized (win w)) j (instances w) |}.
Proof. reflexivity. Qed.

Lemma scrollTo_tidy r (y : num) :
  tidy r →
  tidy (scrollTo y r)
  ∧ window.YANO_JS_GLOBAL_WINDOW (win (world (scrollTo y r)))
    = window.YANO_JS_GLOBAL_WINDOW (win (world r))
  ∧ ∀ i, instances (world (scrollTo y r)) !! i =
           if listening r i
           then (λ g, {| scrollY := y; width := width g; height := height g |})
                  <$> instances (world r) !! i
           else instances (world r) !! i.
Proof.
  intros H. unfold scrollTo. cbv zeta.
  set (w := {| window.scrollY := y |}).
  destruct (fire_tidy "scroll" scrolled scroll_listener (withWindow r w))
    as (Hwin & Hins & Htidy); [by apply tidy_withWindow|].
  split; [done|]. split; [by rewrite Hwin|]. apply Hins.
Qed.

Lemma resizeTo_tidy r (width height : num) :
  tidy r →
  tidy (resizeTo width height r)
  ∧ window.YANO_JS_GLOBAL_WINDOW (win (world (resizeTo width height r)))
    = window.YANO_JS_GLOBAL_WINDOW (win (world r))
  ∧ ∀ i, instances (world (resizeTo width height r)) !! i =
           if listening r i
           then (λ _, {| scrollY := window.scrollY (win (world r));
                         GlobalWindow.width := width;
                         GlobalWindow.height := height |})
                  <$> instances (world r) !! i
           else instances (world r) !! i.
Proof.
  intros H. unfold resizeTo. cbv zeta.
  set (w := {| window.innerWidth := width |}).
  destruct (fire_tidy "resize" resized resize_listener (withWindow r w))
    as (Hwin & Hins & Htidy); [by apply tidy_withWindow|].
  split; [done|]. split; [by rewrite Hwin|]. apply Hins.
Qed.

(** *** Everything that can happen *)

Lemma tidy_happen r (h : happening) : tidy r → tidy (happen r h).1.
Proof.
  intros H. destruct h as [|this|y|width height]; cbn [happen].
  - pose proof (tidy_load r H) as H'. by destruct (load r).
  - by apply tidy_dispose.
  - by apply scrollTo_tidy.
  - by apply resizeTo_tidy.
Qed.

Lemma nonempty_length r r' :
  tidy r → tidy r' → watchers r' = watchers r →
  instances (world r) ≠ [] → instances (world r') ≠ [].
Proof.
  intros (Hlen & _) (Hlen' & _) Hw Hne Hnil. rewrite Hw, Hnil in Hlen'.
  rewrite Hlen' in Hlen. by destruct (instances (world r)).
Qed.

Lemma empty_length r r' :
  tidy r → tidy r' → watchers r' = watchers r →
  instances (world r) = [] → instances (world r') = [].
Proof.
  intros (Hlen & _) (Hlen' & _) Hw Hnil. rewrite Hw, Hlen, Hnil in Hlen'.
  by destruct (instances (world r')).
Qed.

Lemma singleton_happen r (h : happening) :
  tidy r → singleton r →
  singleton (happen r h).1 ∧ Forall (λ g, g = 0%nat) (happen r h).2.
Proof.
  intros Htidy Hs. destruct h as [|this|y|width height]; cbn [happen fst snd].
  - replace (let '(r', g) := load r in (r', [g])) with ((load r).1, [(load r).2])
      by (by destruct (load r)).
    cbn [fst snd]. rewrite load_spec, construct_spec. unfold singleton in *. cbv zeta.
    destruct (window.YANO_JS_GLOBAL_WINDOW (win (world r))) as [g|] eqn:Hg;
      cbn [fst snd world win instances withWindow window.YANO_JS_GLOBAL_WINDOW].
    + rewrite Hg. destruct Hs as [-> Hne]. split; [|by repeat constructor].
      split; [done|]. by destruct (instances (world r)).
    + rewrite Hs. split; [done|]. by repeat constructor.
  - split; [|done]. unfold singleton, dispose in *.
    destruct (watchers r !! this); [|done]. done.
  - split; [|done].
    destruct (scrollTo_tidy r y Htidy) as (Htidy' & Hwin & _).
    unfold singleton in *. rewrite Hwin.
    destruct (window.YANO_JS_GLOBAL_WINDOW (win (world r))).
    + destruct Hs as [-> Hne]. split; [done|].
      by apply (nonempty_length r).
    + by apply (empty_length r).
  - split; [|done].
    destruct (resizeTo_tidy r width height Htidy) as (Htidy' & Hwin & _).
    unfold singleton in *. rewrite Hwin.
    destruct (window.YANO_JS_GLOBAL_WINDOW (win (world r))).
    + destruct Hs as [-> Hne]. split; [done|].
      by apply (nonempty_length r).
    + by apply (empty_length r).
Qed.

Lemma happenAll_cons r (h : happening) hs :
  happenAll r (h :: hs) =
    ((happenAll (happen r h).1 hs).1,
     (happen r h).2 ++ (happenAll (happen r h).1 hs).2).
Proof.
  cbn [happenAll]. destruct (happen r h) as [r1 e1]. cbn [fst snd].
  by destruct (happenAll r1 hs).
Qed.

Lemma happenAll_keeps r hs :
  tidy r → singleton r →
  tidy (happenAll r hs).1 ∧ singleton (happenAll r hs).1
  ∧ Forall (λ g, g = 0%nat) (happenAll r hs).2.
Proof.
  revert r. induction hs as [|h hs IH]; intros r Htidy Hs; [done|].
  rewrite happenAll_cons. cbn [fst snd].
  destruct (singleton_happen r h Htidy Hs) as [Hs1 He1].
  destruct (IH (happen r h).1 (tidy_happen r h Htidy) Hs1) as (? & ? & ?).
  split_and!; try done. by apply Forall_app.
Qed.

Lemma tidy_reached (s w h : num) hs : tidy (happenAll (start s w h) hs).1.
Proof. by apply happenAll_keeps; [apply tidy_start|]. Qed.

(** An instance that no longer listens, as things go on. *)
Lemma silent_happen r (h : happening) (i : nat) :
  tidy r → (i < length (watchers r))%nat → listening r i = false →
  (i < length (watchers (happen r h).1))%nat
  ∧ listening (happen r h).1 i = false
  ∧ instances (world (happen r h).1) !! i = instances (world r) !! i.
Proof.
  intros Htidy Hi Hl. destruct h as [|this|y|width height]; cbn [happen].
  - assert ((load r).1 = (construct r).1
            ∨ ∃ w, (load r).1 = withWindow (construct r).1 w) as Hload.
    { rewrite load_spec. destruct (window.YANO_JS_GLOBAL_WINDOW _); eauto. }
    assert (watchers (load r).1 = watchers (construct r).1
            ∧ instances (world (load r).1)
              = instances (world (construct r).1)) as [Hw Hins].
    { by destruct Hload as [->|[w ->]]. }
    destruct (load r) as [r' g]. cbn [fst] in *.
    unfold listening. rewrite Hw, Hins, construct_spec. cbn.
    rewrite length_app, !lookup_app_l
      by (try lia; destruct Htidy as [<- _]; lia).
    split; [lia|]. split; [apply Hl|done].
  - cbn [fst]. destruct (watchers r !! this) as [watcher|] eqn:Hw;
      [|unfold dispose; by rewrite Hw].
    rewrite (dispose_spec r this watcher Hw). unfold listening.
    cbn [watchers world]. rewrite length_insert. split; [done|].
    split; [|done]. destruct (decide (this = i)) as [->|Hne].
    + by rewrite list_lookup_insert_eq by done.
    + rewrite list_lookup_insert_ne by done. apply Hl.
  - cbn [fst]. destruct (scrollTo_tidy r y Htidy) as (_ & _ & Hins).
    split; [done|]. split; [done|]. rewrite Hins. by rewrite Hl.
  - cbn [fst].
    destruct (resizeTo_tidy r width height Htidy) as (_ & _ & Hins).
    split; [done|]. split; [done|]. rewrite Hins. by rewrite Hl.
Qed.

Lemma silent_happenAll r hs (i : nat) :
  tidy r → (i < length (watchers r))%nat → listening r i = false →
  instances (world (happenAll r hs).1) !! i = instances (world r) !! i.
Proof.
  revert r. induction hs as [|h hs IH]; intros r Htidy Hi Hl; [done|].
  rewrite happenAll_cons. cbn [fst].
  destruct (silent_happen r h i Htidy Hi Hl) as (Hi' & Hl' & <-).
  apply IH; [by apply tidy_happen|done|done].
Qed.

(** X21: however often the file is loaded on a page, and whatever
    scrolling, resizing and disposing happens in between, every load
    exports the instance made by the first load. *)
Theorem loads_export_first (s w h : num) hs :
  Forall (λ g, g = 0%nat) (happenAll (start s w h) hs).2.
Proof. by apply happenAll_keeps; [apply tidy_start|]. Qed.

(** X22: a load constructs an instance and attaches its two listeners
    also when an older instance is kept in [YANO_JS_GLOBAL_WINDOW] and
    exported instead: the new instance is not the export, yet it stays on
    the page and listens. *)
Theorem load_leaves_listening_instance r (existing : nat) :
  tidy r →
  window.YANO_JS_GLOBAL_WINDOW (win (world r)) = Some existing →
  let this := length (instances (world r)) in
  (load r).2 = existing
  ∧ length (instances (world (load r).1)) = S this
  ∧ listening (load r).1 this = true
  ∧ attached (calls (page (load r).1))
    = attached (calls (page r)) ++ listenersOf this.
Proof.
  intros Htidy Hex this. pose proof (tidy_construct r Htidy) as Htidy'.
  rewrite load_spec, Hex. cbn [fst snd]. split; [done|].
  destruct Htidy as (Hlen & Hcreated & Hws & Hheard).
  destruct Htidy' as (_ & _ & _ & Hheard'). rewrite Hheard', Hheard.
  rewrite construct_spec. cbn [fst world instances watchers].
  rewrite length_app. cbn [length]. split; [lia|].
  unfold listening. cbn [watchers].
  rewrite heardFrom_app. cbn [heardFrom watcherConfigs].
  rewrite bool_decide_eq_false_2 by done. rewrite app_nil_r.
  fold this. rewrite Hlen. cbn [Nat.add]. fold this. split; [|done].
  rewrite lookup_app_r by lia. rewrite Hlen, Nat.sub_diag. done.
Qed.

Lemma load_leaves_listening_instance_witness :
  (load (load (start 0 (frac 800 1) (frac 600 1))).1).2 = 0%nat
  ∧ length
      (instances (world (load (load (start 0 (frac 800 1) (frac 600 1))).1).1))
    = 2%nat
  ∧ listening (load (load (start 0 (frac 800 1) (frac 600 1))).1).1 1 = true
  ∧ attached
      (calls (page (load (load (start 0 (frac 800 1) (frac 600 1))).1).1))
    = attached (calls (page (load (start 0 (frac 800 1) (frac 600 1))).1))
        ++ listenersOf 1.
Proof.
  apply (load_leaves_listening_instance
           (load (start 0 (frac 800 1) (frac 600 1))).1 0);
    [apply tidy_load, tidy_start|reflexivity].
Defined.

(** X23: on a page that only this file has touched, a scroll to [y]
    gives every instance whose watcher still holds its configs the new
    [scrollY] and leaves its [width] and [height]; the other instances
    stay as they are. *)
Theorem scroll_reaches_listening_instances (s w h y : num) hs (i : nat) :
  let r := (happenAll (start s w h) hs).1 in
  instances (world (scrollTo y r)) !! i =
    if listening r i
    then (λ g, {| scrollY := y; width := width g; height := height g |})
           <$> instances (world r) !! i
    else instances (world r) !! i.
Proof. intros r. by apply scrollTo_tidy, tidy_reached. Qed.

(** X24: a resize gives every instance that still listens the new
    [width] and [height], and with them the [scrollY] the window has at
    that moment. *)
Theorem resize_reaches_listening_instances
    (s w h width height : num) hs (i : nat) :
  let r := (happenAll (start s w h) hs).1 in
  instances (world (resizeTo width height r)) !! i =
    if listening r i
    then (λ _, {| scrollY := window.scrollY (win (world r));
                  GlobalWindow.width := width;
                  GlobalWindow.height := height |})
           <$> instances (world r) !! i
    else instances (world r) !! i.
Proof. intros r. by apply resizeTo_tidy, tidy_reached. Qed.

(** X25: [dispose] is final: a disposed instance keeps the values it had,
    whatever is loaded, scrolled, resized or disposed afterwards. This
    holds for the instance in [YANO_JS_GLOBAL_WINDOW] too, which later
    loads still export. *)
Theorem disposed_instance_is_frozen (s w h : num) hs hs' (this : nat) :
  let r := (happenAll (start s w h) hs).1 in
  (this < length (instances (world r)))%nat →
  instances (world (happenAll (dispose this r) hs').1) !! this
    = instances (world r) !! this.
Proof.
  intros r Hthis. pose proof (tidy_reached s w h hs) as Htidy. fold r in Htidy.
  assert (this < length (watchers r))%nat as Hw
    by (destruct Htidy as [-> _]; done).
  pose proof Hw as [watcher Hwatcher]%lookup_lt_is_Some.
  rewrite silent_happenAll.
  - by rewrite (dispose_spec r this watcher).
  - by apply tidy_dispose.
  - rewrite (dispose_spec r this watcher) by done. cbn [watchers].
    by rewrite length_insert.
  - rewrite (dispose_spec r this watcher) by done. unfold listening.
    cbn [watchers]. by rewrite list_lookup_insert_eq.
Qed.

Lemma disposed_instance_is_frozen_witness :
  instances
    (world
       (happenAll
          (dispose 0 (happenAll (start 0 (frac 800 1) (frac 600 1)) [Load]).1)
          [ScrollTo (frac 120 1); Load]).1) !! 0%nat
  = instances (world (happenAll (start 0 (frac 800 1) (frac 600 1)) [Load]).1)
      !! 0%nat.
Proof.
  apply (disposed_instance_is_frozen 0 (frac 800 1) (frac 600 1) [Load]
           [ScrollTo (frac 120 1); Load] 0).
  simpl. lia.
Defined.

End GlobalWindowProofs.

(** ** [ScrollSmoothRender] *)

Module ScrollSmoothRenderProofs.

Import ScrollSmoothRender.

Implicit Types (this : t) (e : WheelEvent) (inputs : list input).

Lemma handleAll_cons this (i : input) inputs :
  handleAll this (i :: inputs) =
    ((handleAll (handle this i).1 inputs).1,
     (handle this i).2 ++ (handleAll (handle this i).1 inputs).2).
Proof.
  cbn [handleAll]. destruct (handle this i) as [this1 calls1]. cbn [fst snd].
  by destruct (handleAll this1 inputs).
Qed.

Lemma handleAll_app this inputs inputs' :
  handleAll this (inputs ++ inputs') =
    ((handleAll (handleAll this inputs).1 inputs').1,
     (handleAll this inputs).2 ++ (handleAll (handleAll this inputs).1 inputs').2).
Proof.
  revert this. induction inputs as [|i inputs IH]; intros this.
  - cbn [app handleAll fst snd]. by destruct (handleAll this inputs').
  - cbn [app]. rewrite !handleAll_cons, IH. cbn [fst snd].
    by rewrite (assoc_L (++)).
Qed.

Lemma scrollHandler_skips this : scrollHandler this = (this, []).
Proof. unfold scrollHandler, disableIsTruthy. by rewrite orb_true_r. Qed.

Lemma handle_event_disabled this (i : input) :
  disabled this = true → isWheeling this = false → fromPage i = true →
  (handle this i).1 = this
  ∧ Forall (λ c, c = RafStop) (handle this i).2.
Proof.
  intros Hd Hw Hi. destruct i as [e| | | |]; try done; cbn [handle].
  - unfold wheelHandler. by rewrite Hd.
  - by rewrite scrollHandler_skips.
  - unfold stopWheelJack. cbn [fst snd]. split; [|by repeat constructor].
    destruct this. cbn in *. by subst.
Qed.

Lemma handle_calm this (i : input) :
  disabled this && isWheeling this = false →
  disabled (handle this i).1 && isWheeling (handle this i).1 = false.
Proof.
  intros H. destruct i as [e| | | |]; cbn [handle].
  - unfold wheelHandler. destruct (disabled this) eqn:Hd.
    + cbn [fst]. by rewrite Hd.
    + cbn. by rewrite Hd.
  - by rewrite scrollHandler_skips.
  - cbn. apply andb_false_r.
  - done.
  - done.
Qed.

(** X26: after [disable()], and until [enable()] is called, the events of
    the page change nothing of the instance: no wheel event is prevented,
    the raf is not started and no read is queued. All that still reaches
    the raf is the [stop()] of a mouse press. *)
Theorem disable_silences this inputs :
  Forall (λ i, fromPage i = true) inputs →
  (handleAll (disable this).1 inputs).1 = (disable this).1
  ∧ Forall (λ c, c = RafStop) (handleAll (disable this).1 inputs).2.
Proof.
  assert (disabled (disable this).1 = true
          ∧ isWheeling (disable this).1 = false) as [Hd Hw] by done.
  generalize dependent (disable this).1. clear this. intros this Hd Hw.
  induction 1 as [|i inputs Hi _ IH]; [done|].
  rewrite handleAll_cons. cbn [fst snd].
  destruct (handle_event_disabled this i Hd Hw Hi) as [-> Hcalls].
  destruct IH as [-> Hrest]. split; [done|]. by apply Forall_app.
Qed.

Lemma disable_silences_witness :
  (handleAll (disable (new MoreExamples.smooth)).1
     [Wheel MoreExamples.notch; Scroll; MouseDown]).1
  = (disable (new MoreExamples.smooth)).1
  ∧ Forall (λ c, c = RafStop)
      (handleAll (disable (new MoreExamples.smooth)).1
         [Wheel MoreExamples.notch; Scroll; MouseDown]).2.
Proof.
  apply (disable_silences (new MoreExamples.smooth)
           [Wheel MoreExamples.notch; Scroll; MouseDown]).
  repeat constructor.
Defined.

(** X27: an instance is never wheeling while it is disabled, whatever
    events and calls of [disable()] and [enable()] it has seen since it
    was made. *)
Theorem never_wheeling_while_disabled
    (config : ScrollSmoothRenderConfig) inputs :
  disabled (handleAll (new config) inputs).1
  && isWheeling (handleAll (new config) inputs).1 = false.
Proof.
  assert (disabled (new config) && isWheeling (new config) = false) as H
    by done.
  generalize dependent (new config). intros this H. revert this H.
  induction inputs as [|i inputs IH]; intros this H; [done|].
  rewrite handleAll_cons. cbn [fst]. by apply IH, handle_calm.
Qed.

(** X28: a scroll event never queues the read that would take [targetY]
    from the scroll position: the guard of [scrollHandler] reads the
    method [disable] where the field [disabled] is meant, so the handler
    always returns first. Whatever reaches an instance, no such read is
    among the calls on its raf. *)
Theorem scroll_never_tracks_target this inputs :
  RafRead TrackTargetY ∉ (handleAll this inputs).2.
Proof.
  revert this. induction inputs as [|i inputs IH]; intros this.
  - apply not_elem_of_nil.
  - rewrite handleAll_cons. cbn [snd]. rewrite elem_of_app.
    intros [Hin|Hin]; [|by apply (IH _ Hin)].
    destruct i as [e| | | |]; cbn [handle] in Hin.
    + unfold wheelHandler in Hin. destruct (disabled this); cbn [snd] in Hin.
      * by apply elem_of_nil in Hin.
      * repeat (apply elem_of_cons in Hin as [Hin|Hin]; [done|]).
        by apply elem_of_nil in Hin.
    + rewrite scrollHandler_skips in Hin. by apply elem_of_nil in Hin.
    + cbn in Hin. apply elem_of_cons in Hin as [Hin|Hin]; [done|].
      by apply elem_of_nil in Hin.
    + cbn in Hin. apply elem_of_cons in Hin as [Hin|Hin]; [done|].
      by apply elem_of_nil in Hin.
    + by apply elem_of_nil in Hin.
Qed.

(** X29: with [dynamicSensitivity], a wheel event that carries a
    [wheelDeltaY] other than zero moves the target by that many 120ths of
    the sensitivity, against its sign and whatever its [deltaY]: once the
    queued read runs, [targetY] is [currentY - wheelDeltaY / 120 *
    scrollSensitivity]. *)
Theorem wheel_normalises_notches this e (v y top : num) :
  disabled this = false →
  dynamicSensitivity (config this) = true →
  wheelDeltaY e = Some v → v ≠ 0 →
  currentY this = Some y →
  ∃ k, wheelHandler this e
       = (set_isWheeling this true, [PreventDefault; RafStart; RafRead k])
     ∧ targetY (run k top (wheelHandler this e).1)
       = Some (y - v / frac 120 1 * scrollSensitivity (config this)).
Proof.
  intros Hd Hdyn Hv Hne Hy. unfold wheelHandler.
  rewrite Hd, Hdyn, Hv. unfold truthy.
  rewrite bool_decide_eq_false_2 by done. cbn [negb].
  eexists. split; [reflexivity|].
  cbn [fst run set_isWheeling currentY targetY set_targetY].
  rewrite Hy. cbn [fmap option_fmap option_map]. f_equal. field. done.
Qed.

Lemma wheel_normalises_notches_witness :
  ∃ k, wheelHandler
         (set_currentY (new MoreExamples.smooth) (Some (frac 300 1)))
         MoreExamples.notch
       = (set_isWheeling
            (set_currentY (new MoreExamples.smooth) (Some (frac 300 1))) true,
          [PreventDefault; RafStart; RafRead k])
     ∧ targetY
         (run k 0
            (wheelHandler
               (set_currentY (new MoreExamples.smooth) (Some (frac 300 1)))
               MoreExamples.notch).1)
       = Some (frac 300 1 - frac (-120) 1 / frac 120 1
                            * scrollSensitivity
                                (config
                                   (set_currentY (new MoreExamples.smooth)
                                      (Some (frac 300 1))))).
Proof.
  apply (wheel_normalises_notches
           (set_currentY (new MoreExamples.smooth) (Some (frac 300 1)))
           MoreExamples.notch (frac (-120) 1) (frac 300 1) 0);
    [reflexivity|reflexivity|reflexivity|done|reflexivity].
Defined.

End ScrollSmoothRenderProofs.
